(** * GoshawkDB server: Proposer Manager and transaction engine

    A shallow embedding of [paxos/proposermanager.go] and
    [txnengine/txn.go].  Go code that may panic returns a [Res]; calls
    into collaborators whose code lives elsewhere (Proposer, proposal,
    Var, VarDispatcher, the one-shot sender, the upward callbacks) are
    recorded, in call order, in an effect log carried by the state. *)

From stdpp Require Import gmap list.
From Stdlib Require Import ZArith Lia.

Local Open Scope Z_scope.

(** ** Panics *)

Inductive PanicReason :=
| UnexpectedTwoBVotesType
| NextStateInTerminalState
| PreAbortInWrongState
| BallotsCompleteInWrongState
| OutcomeInWrongState
| PreAbortedButCommit
| ActiveFramesCountNegative
| CompletionInWrongState.

Inductive Failure :=
| NilDereference
| MakeSliceLenOutOfRange
| IndexOutOfRange
| OutOfFuel
| Panic (why : PanicReason).

Inductive Res (A : Type) :=
| Ok (a : A)
| Fault (f : Failure).
Arguments Ok {A} a.
Arguments Fault {A} f.

#[global] Instance res_ret : MRet Res := @Ok.
#[global] Instance res_bind : MBind Res := λ A B f m,
  match m with
  | Ok a => f a
  | Fault e => Fault e
  end.

Definition isOk {A} (r : Res A) : bool :=
  match r with Ok _ => true | Fault _ => false end.

#[global] Instance PanicReason_eq_dec : EqDecision PanicReason.
Proof. solve_decision. Defined.
#[global] Instance Failure_eq_dec : EqDecision Failure.
Proof. solve_decision. Defined.

(** ** Identifiers and wire data *)

(** [common.TxnId] and [common.VarUUId] are byte arrays of length
    [common.KeyLen]; [common.RMId] is a uint32. *)
Definition TxnId := list Z.
Definition VarUUId := list Z.

(** Serialised vector clock, as carried by capnp messages. *)
Definition ClockData := list Z.

Definition wrap32 (x : Z) : Z := (x + 2 ^ 31) mod 2 ^ 32 - 2 ^ 31.

Module Msgs.

Record Allocation := {
  RmId : Z;                 (* uint32 *)
  Active : Z;               (* uint32 boot count, 0 = learner *)
  ActionIndices : list Z    (* UInt16List *)
}.

Record Action := {
  VarId : list Z
}.

Record Txn := {
  TopologyVersion : Z;
  FInc : Z;                 (* unsigned *)
  Allocations : list Allocation
}.

Inductive Outcome :=
| OUTCOME_COMMIT (clock : ClockData)
| OUTCOME_ABORT.

Record Var := {
  VarIdOf : list Z;
  Positions : list Z;
  WriteTxnId : list Z;
  WriteTxnClock : ClockData;
  WritesClock : ClockData
}.

(** capnp [List.At]: an index outside the list yields the zero struct. *)
Definition Action_At (l : list Action) (i : Z) : Action :=
  if decide (0 ≤ i) then default {| VarId := [] |} (l !! Z.to_nat i)
  else {| VarId := [] |}.

End Msgs.

Module txnreader.

Record TxnReader := {
  Id : TxnId;
  Txn : Msgs.Txn;
  Actions : list Msgs.Action   (* reader.Actions(true).Actions() *)
}.

End txnreader.

(** [common.MakeVarUUId] / [common.MakeTxnId] copy the bytes into a
    fresh fixed-length id. *)
Definition MakeVarUUId (data : list Z) : VarUUId := data.
Definition MakeTxnId (data : list Z) : TxnId := data.

(** ** Ballots *)

Inductive Vote := Commit | AbortDeadlock | AbortBadRead.

Record BadRead := {
  badReadTxnId : TxnId;
  badReadActions : list Msgs.Action
}.

Record Ballot := {
  ballotVarUUId : VarUUId;
  ballotVote : Vote;
  ballotClock : option ClockData;
  ballotSubscriptions : option (list TxnId);
  ballotBadRead : option BadRead
}.

(** [NewBallotBuilder(vUUId, vote, clock, subscriptions).ToBallot()]. *)
Definition NewBallot (v : VarUUId) (vote : Vote) (clock : option ClockData)
    (subs : option (list TxnId)) : Ballot :=
  {| ballotVarUUId := v; ballotVote := vote; ballotClock := clock;
     ballotSubscriptions := subs; ballotBadRead := None |}.

(** [NewBallotBuilder(...).CreateBadReadBallot(txnId, actions)]. *)
Definition CreateBadReadBallot (v : VarUUId) (clock : option ClockData)
    (txnId : TxnId) (actions : list Msgs.Action) : Ballot :=
  {| ballotVarUUId := v; ballotVote := AbortBadRead; ballotClock := clock;
     ballotSubscriptions := None;
     ballotBadRead := Some {| badReadTxnId := txnId; badReadActions := actions |} |}.

#[global] Instance Vote_eq_dec : EqDecision Vote.
Proof. solve_decision. Defined.
#[global] Instance Action_eq_dec : EqDecision Msgs.Action.
Proof. solve_decision. Defined.
#[global] Instance BadRead_eq_dec : EqDecision BadRead.
Proof. solve_decision. Defined.
#[global] Instance Ballot_eq_dec : EqDecision Ballot.
Proof. solve_decision. Defined.

(** ** The Proposer Manager ([paxos/proposermanager.go]) *)

Module Paxos.

(** [configuration.Topology], as far as the manager reads it. *)
Record Configuration := {
  ConfVersion : Z
}.

Record Topology := {
  Version : Z;
  Next : option Configuration;
  RMsRemoved : gset Z
}.

Inductive ProposerMode :=
| ProposerActiveVoter
| ProposerActiveLearner
| ProposerPassiveLearner.

(** Modelled from the spec: the Proposer of [paxos/proposer.go] (section
    4.3), of which the manager uses the constructors and the methods
    [Start], [TopologyChange], [BallotOutcomeReceived],
    [TxnGloballyCompleteReceived] and [Abort].  It is kept as the record
    of what its constructor received; [proposerOid] is the identity of
    the Go object. *)
Record Proposer := {
  proposerOid : nat;
  proposerTxnId : TxnId;
  proposerTxn : option txnreader.TxnReader;
  proposerMode : ProposerMode;
  proposerTopology : option Topology
}.

(** Modelled from the spec: the Paxos instance of [paxos/proposal.go]
    (section 4.2), kept as the record of the arguments of [NewProposal];
    [proposalOid] is the identity of the Go object. *)
Record proposal := {
  proposalOid : nat;
  proposalTxn : txnreader.TxnReader;
  proposalFInc : Z;
  proposalBallots : list (option Ballot);
  instanceRMId : Z;
  proposalAcceptors : list Z;
  skipPhase1 : bool
}.

Inductive Message :=
| TxnLocallyCompleteMsg (txnId : list Z)
| TxnSubmissionCompleteMsg (txnId : list Z)
| TxnSubmissionAbortMsg (txnId : list Z).

Inductive TwoBTxnVotes :=
| TWOBTXNVOTES_FAILURES (failuresRmId : Z)
| TWOBTXNVOTES_OUTCOME (outcome : Msgs.Outcome)
| TWOBTXNVOTES_OTHER (which : Z).

(** Calls the manager makes into its collaborators. *)
Inductive Effect :=
| ProposerStart (p : Proposer)
| ProposerTopologyChange (p : Proposer) (t : option Topology)
| ProposerBallotOutcomeReceived (p : Proposer) (sender : Z) (o : Msgs.Outcome)
| ProposerTxnGloballyCompleteReceived (p : Proposer) (sender : Z)
| ProposerAbort (p : Proposer)
| ProposalStart (q : proposal)
| ProposalAddBallots (q : proposal) (bs : list (option Ballot))
| ProposalOneBTxnVotesReceived (q : proposal) (sender : Z)
| ProposalTwoBFailuresReceived (q : proposal) (sender : Z)
| ProposalFinishProposing (q : proposal)
| NewOneShotSender (msg : Message) (recipient : Z)
| ImmigrationTxnFromCap (reader : txnreader.TxnReader) (varCaps : list Msgs.Var)
| LogAddBallotNotFound (txnId : TxnId) (rmId : Z)
| TopologyDone (b : bool).

(** The manager.  [proposals] and [proposers] are the two Go maps.
    [liveProposers] lists the Proposers on which [Start] was called and
    which have not reported [TxnFinished] since, each with the key it
    was started for; [liveProposals] lists the proposals on which
    [Start] was called and [FinishProposing] was not; [nextOid] numbers
    the objects allocated so far. *)
Record ProposerManager := {
  RMId : Z;
  BootCount : Z;
  proposals : gmap (list Z) proposal;
  proposers : gmap (list Z) Proposer;
  topology : option Topology;
  nextOid : nat;
  liveProposers : list (list Z * Proposer);
  liveProposals : list (list Z * proposal);
  effects : list Effect
}.

Definition NewProposerManager (rmId bootCount : Z) : ProposerManager :=
  {| RMId := rmId; BootCount := bootCount; proposals := ∅; proposers := ∅;
     topology := None; nextOid := 0; liveProposers := []; liveProposals := [];
     effects := [] |}.

Definition emit (e : Effect) (pm : ProposerManager) : ProposerManager :=
  {| RMId := RMId pm; BootCount := BootCount pm; proposals := proposals pm;
     proposers := proposers pm; topology := topology pm; nextOid := nextOid pm;
     liveProposers := liveProposers pm; liveProposals := liveProposals pm;
     effects := effects pm ++ [e] |}.

Definition setTopology (t : option Topology) (pm : ProposerManager) : ProposerManager :=
  {| RMId := RMId pm; BootCount := BootCount pm; proposals := proposals pm;
     proposers := proposers pm; topology := t; nextOid := nextOid pm;
     liveProposers := liveProposers pm; liveProposals := liveProposals pm;
     effects := effects pm |}.

Definition allocOid (pm : ProposerManager) : nat * ProposerManager :=
  (nextOid pm,
   {| RMId := RMId pm; BootCount := BootCount pm; proposals := proposals pm;
      proposers := proposers pm; topology := topology pm; nextOid := S (nextOid pm);
      liveProposers := liveProposers pm; liveProposals := liveProposals pm;
      effects := effects pm |}).

(** [pm.proposers[k] = p]. *)
Definition setProposer (k : list Z) (p : Proposer) (pm : ProposerManager) : ProposerManager :=
  {| RMId := RMId pm; BootCount := BootCount pm; proposals := proposals pm;
     proposers := <[k := p]> (proposers pm); topology := topology pm;
     nextOid := nextOid pm; liveProposers := liveProposers pm;
     liveProposals := liveProposals pm; effects := effects pm |}.

(** [delete(pm.proposers, k)], called by the Proposer that finished. *)
Definition deleteProposer (k : list Z) (pm : ProposerManager) : ProposerManager :=
  {| RMId := RMId pm; BootCount := BootCount pm; proposals := proposals pm;
     proposers := delete k (proposers pm); topology := topology pm;
     nextOid := nextOid pm;
     liveProposers := filter (λ kp, kp.1 ≠ k) (liveProposers pm);
     liveProposals := liveProposals pm; effects := effects pm |}.

(** [p.Start()] for the Proposer just stored under [k]. *)
Definition startProposer (k : list Z) (p : Proposer) (pm : ProposerManager) : ProposerManager :=
  {| RMId := RMId pm; BootCount := BootCount pm; proposals := proposals pm;
     proposers := proposers pm; topology := topology pm; nextOid := nextOid pm;
     liveProposers := (k, p) :: liveProposers pm;
     liveProposals := liveProposals pm;
     effects := effects pm ++ [ProposerStart p] |}.

(** [pm.proposals[k] = q]. *)
Definition setProposal (k : list Z) (q : proposal) (pm : ProposerManager) : ProposerManager :=
  {| RMId := RMId pm; BootCount := BootCount pm;
     proposals := <[k := q]> (proposals pm); proposers := proposers pm;
     topology := topology pm; nextOid := nextOid pm;
     liveProposers := liveProposers pm; liveProposals := liveProposals pm;
     effects := effects pm |}.

(** [q.Start()] for the proposal just stored under [k]. *)
Definition startProposal (k : list Z) (q : proposal) (pm : ProposerManager) : ProposerManager :=
  {| RMId := RMId pm; BootCount := BootCount pm; proposals := proposals pm;
     proposers := proposers pm; topology := topology pm; nextOid := nextOid pm;
     liveProposers := liveProposers pm;
     liveProposals := (k, q) :: liveProposals pm;
     effects := effects pm ++ [ProposalStart q] |}.

(** [delete(pm.proposals, k); q.FinishProposing()]. *)
Definition finishProposal (k : list Z) (q : proposal) (pm : ProposerManager) : ProposerManager :=
  {| RMId := RMId pm; BootCount := BootCount pm;
     proposals := delete k (proposals pm); proposers := proposers pm;
     topology := topology pm; nextOid := nextOid pm;
     liveProposers := liveProposers pm;
     liveProposals := filter (λ kq, kq.1 ≠ k) (liveProposals pm);
     effects := effects pm ++ [ProposalFinishProposing q] |}.

Definition NewProposer (txn : txnreader.TxnReader) (mode : ProposerMode)
    (topo : option Topology) (pm : ProposerManager) : Proposer * ProposerManager :=
  let '(oid, pm) := allocOid pm in
  ({| proposerOid := oid; proposerTxnId := txnreader.Id txn; proposerTxn := Some txn;
      proposerMode := mode; proposerTopology := topo |}, pm).

Definition NewProposal (txn : txnreader.TxnReader) (fInc : Z) (ballots : list (option Ballot))
    (rmId : Z) (acceptors : list Z) (skip : bool)
    (pm : ProposerManager) : proposal * ProposerManager :=
  let '(oid, pm) := allocOid pm in
  ({| proposalOid := oid; proposalTxn := txn; proposalFInc := fInc;
      proposalBallots := ballots; instanceRMId := rmId;
      proposalAcceptors := acceptors; skipPhase1 := skip |}, pm).

(** [binary.BigEndian.PutUint32]. *)
Definition BigEndianPutUint32 (v : Z) : list Z :=
  [ Z.land (Z.shiftr v 24) 255; Z.land (Z.shiftr v 16) 255;
    Z.land (Z.shiftr v 8) 255; Z.land v 255 ].

(** The [instanceIdPrefix] built at the head of every operation: the
    bytes of the TxnId followed by the RM id, big endian. *)
Definition instanceId (txnId : TxnId) (rmId : Z) : list Z :=
  txnId ++ BigEndianPutUint32 rmId.

(** The loop of [GetAcceptorsFromTxn]: [allocs] is what is left of the
    allocation list from position [idx] on. *)
Fixpoint fillAcceptors (allocs : list Msgs.Allocation) (idx twoFInc : nat)
    (acceptors : list Z) : list Z * nat :=
  match allocs with
  | [] => (acceptors, idx)
  | alloc :: rest =>
      if decide (idx < twoFInc)%nat
      then fillAcceptors rest (S idx) twoFInc (<[idx := Msgs.RmId alloc]> acceptors)
      else (acceptors, idx)
  end.

Definition GetAcceptorsFromTxn (txnCap : Msgs.Txn) : Res (list Z) :=
  let fInc := Msgs.FInc txnCap in
  let twoFInc := fInc + fInc - 1 in
  if decide (twoFInc < 0) then Fault MakeSliceLenOutOfRange
  else
    let n := Z.to_nat twoFInc in
    let '(acceptors, idx) := fillAcceptors (Msgs.Allocations txnCap) 0 n (replicate n 0) in
    Ok (take idx acceptors).

Definition MakeTxnLocallyCompleteMsg (txnId : TxnId) : Message :=
  TxnLocallyCompleteMsg txnId.

Fixpoint AllocForRMId_from (allocs : list Msgs.Allocation) (rmId : Z)
    : option Msgs.Allocation :=
  match allocs with
  | [] => None
  | alloc :: rest =>
      if decide (Msgs.RmId alloc = rmId) then Some alloc
      else AllocForRMId_from rest rmId
  end.

Definition AllocForRMId (txn : Msgs.Txn) (rmId : Z) : option Msgs.Allocation :=
  AllocForRMId_from (Msgs.Allocations txn) rmId.

(** The loop of [MakeAbortBallots]: [indices] is what is left of the
    action indices from position [idx] on. *)
Fixpoint fillAbortBallots (actions : list Msgs.Action) (indices : list Z)
    (idx : nat) (ballots : list (option Ballot)) : list (option Ballot) :=
  match indices with
  | [] => ballots
  | i :: rest =>
      let action := Msgs.Action_At actions i in
      let vUUId := MakeVarUUId (Msgs.VarId action) in
      fillAbortBallots actions rest (S idx)
        (<[idx := Some (NewBallot vUUId AbortDeadlock None None)]> ballots)
  end.

Definition MakeAbortBallots (txn : txnreader.TxnReader) (alloc : option Msgs.Allocation)
    : Res (list (option Ballot)) :=
  let actions := txnreader.Actions txn in
  match alloc with
  | None => Fault NilDereference
  | Some a =>
      let actionIndices := Msgs.ActionIndices a in
      Ok (fillAbortBallots actions actionIndices 0
            (replicate (length actionIndices) None))
  end.

Definition NewPaxosProposals (txn : txnreader.TxnReader) (fInc : Z)
    (ballots : list (option Ballot)) (acceptors : list Z) (rmId : Z)
    (skip : bool) (pm : ProposerManager) : ProposerManager :=
  let instId := instanceId (txnreader.Id txn) rmId in
  match proposals pm !! instId with
  | Some _ => pm
  | None =>
      let '(prop, pm) := NewProposal txn fInc ballots rmId acceptors skip pm in
      startProposal instId prop (setProposal instId prop pm)
  end.

Definition AddToPaxosProposals (txnId : TxnId) (ballots : list (option Ballot))
    (rmId : Z) (pm : ProposerManager) : ProposerManager :=
  let instId := instanceId txnId rmId in
  match proposals pm !! instId with
  | Some prop => emit (ProposalAddBallots prop ballots) pm
  | None => emit (LogAddBallotNotFound txnId rmId) pm
  end.

(** [loadFromData]; [decoded] is what [ProposerFromData] makes of the
    data: an error, or the mode of the restored Proposer.  The result is
    the manager and whether an error is returned. *)
Definition loadFromData (txnId : TxnId) (decoded : option ProposerMode)
    (pm : ProposerManager) : ProposerManager * bool :=
  match proposers pm !! txnId with
  | Some _ => (pm, false)
  | None =>
      match decoded with
      | None => (pm, true)
      | Some mode =>
          let '(oid, pm) := allocOid pm in
          let proposer := {| proposerOid := oid; proposerTxnId := txnId;
                             proposerTxn := None; proposerMode := mode;
                             proposerTopology := topology pm |} in
          (startProposer txnId proposer (setProposer txnId proposer pm), false)
      end
  end.

(** The task [TopologyChanged] enqueues. *)
Definition TopologyChangedTask (topo : option Topology) (pm : ProposerManager)
    : ProposerManager :=
  let pm := setTopology topo pm in
  let pm := foldl (λ pm kp, emit (ProposerTopologyChange kp.2 topo) pm) pm
              (map_to_list (proposers pm)) in
  emit (TopologyDone true) pm.

Definition ImmigrationReceived (txn : txnreader.TxnReader) (varCaps : list Msgs.Var)
    (pm : ProposerManager) : ProposerManager :=
  emit (ImmigrationTxnFromCap txn varCaps) pm.

(** The loop of [TxnReceived] over the allocations. *)
Fixpoint activeMatchesBootCount (allocs : list Msgs.Allocation)
    (pm : ProposerManager) : bool :=
  match allocs with
  | [] => false
  | alloc :: rest =>
      if decide (Msgs.RmId alloc = RMId pm)
      then bool_decide (Msgs.Active alloc = BootCount pm)
      else activeMatchesBootCount rest pm
  end.

(** The value of [accept] when [TxnReceived] reaches [if accept]. *)
Definition acceptTxn (sender : Z) (txn : txnreader.TxnReader) (pm : ProposerManager) : bool :=
  let txnCap := txnreader.Txn txn in
  match topology pm with
  | None => true
  | Some topo =>
      let accept :=
        (bool_decide (Next topo = None)
           && bool_decide (Version topo = Msgs.TopologyVersion txnCap))
        || match Next topo with
           | Some next => bool_decide (ConfVersion next = Msgs.TopologyVersion txnCap)
           | None => false
           end in
      if accept then
        let found := bool_decide (sender ∈ RMsRemoved topo) in
        let accept := negb found in
        if accept then activeMatchesBootCount (Msgs.Allocations txnCap) pm
        else false
      else false
  end.

Definition TxnReceived (sender : Z) (txn : txnreader.TxnReader) (pm : ProposerManager)
    : Res ProposerManager :=
  let txnId := txnreader.Id txn in
  let txnCap := txnreader.Txn txn in
  match proposers pm !! txnId with
  | Some _ => Ok pm
  | None =>
      if acceptTxn sender txn pm then
        let '(proposer, pm) := NewProposer txn ProposerActiveVoter (topology pm) pm in
        Ok (startProposer txnId proposer (setProposer txnId proposer pm))
      else
        acceptors ← GetAcceptorsFromTxn txnCap;
        let fInc := Msgs.FInc txnCap in
        let alloc := AllocForRMId txnCap (RMId pm) in
        ballots ← MakeAbortBallots txn alloc;
        let pm := NewPaxosProposals txn fInc ballots acceptors (RMId pm) true pm in
        let '(proposer, pm) := NewProposer txn ProposerActiveLearner (topology pm) pm in
        Ok (startProposer txnId proposer (setProposer txnId proposer pm))
  end.

Definition OneBTxnVotesReceived (sender : Z) (txnId : TxnId) (votesRmId : Z)
    (pm : ProposerManager) : ProposerManager :=
  let instId := instanceId txnId votesRmId in
  match proposals pm !! instId with
  | Some prop => emit (ProposalOneBTxnVotesReceived prop sender) pm
  | None => pm
  end.

Definition TwoBTxnVotesReceived (sender : Z) (txnId : TxnId) (txn : txnreader.TxnReader)
    (twoBTxnVotes : TwoBTxnVotes) (pm : ProposerManager) : Res ProposerManager :=
  match twoBTxnVotes with
  | TWOBTXNVOTES_FAILURES failuresRmId =>
      let instId := instanceId txnId failuresRmId in
      match proposals pm !! instId with
      | Some prop => Ok (emit (ProposalTwoBFailuresReceived prop sender) pm)
      | None => Ok pm
      end
  | TWOBTXNVOTES_OUTCOME outcome =>
      match proposers pm !! txnId with
      | Some proposer =>
          Ok (emit (ProposerBallotOutcomeReceived proposer sender outcome) pm)
      | None =>
          let txnCap := txnreader.Txn txn in
          match AllocForRMId txnCap (RMId pm) with
          | None => Fault NilDereference
          | Some alloc =>
              if decide (Msgs.Active alloc ≠ 0) then
                acceptors ← GetAcceptorsFromTxn txnCap;
                let fInc := Msgs.FInc txnCap in
                ballots ← MakeAbortBallots txn (Some alloc);
                let pm := NewPaxosProposals txn fInc ballots acceptors (RMId pm) false pm in
                let '(proposer, pm) :=
                  NewProposer txn ProposerActiveLearner (topology pm) pm in
                let pm := startProposer txnId proposer (setProposer txnId proposer pm) in
                Ok (emit (ProposerBallotOutcomeReceived proposer sender outcome) pm)
              else
                match outcome with
                | Msgs.OUTCOME_COMMIT _ =>
                    let '(proposer, pm) :=
                      NewProposer txn ProposerPassiveLearner (topology pm) pm in
                    let pm := startProposer txnId proposer (setProposer txnId proposer pm) in
                    Ok (emit (ProposerBallotOutcomeReceived proposer sender outcome) pm)
                | _ =>
                    Ok (emit (NewOneShotSender (MakeTxnLocallyCompleteMsg txnId) sender) pm)
                end
          end
      end
  | TWOBTXNVOTES_OTHER _ => Fault (Panic UnexpectedTwoBVotesType)
  end.

Definition TxnGloballyCompleteReceived (sender : Z) (txnId : TxnId)
    (pm : ProposerManager) : ProposerManager :=
  match proposers pm !! txnId with
  | Some proposer => emit (ProposerTxnGloballyCompleteReceived proposer sender) pm
  | None => pm
  end.

Definition TxnSubmissionAbortReceived (sender : Z) (txnId : TxnId)
    (pm : ProposerManager) : ProposerManager :=
  match proposers pm !! txnId with
  | Some proposer => emit (ProposerAbort proposer) pm
  | None => pm
  end.

Definition TxnFinished (txnId : TxnId) (pm : ProposerManager) : ProposerManager :=
  deleteProposer txnId pm.

(** [FinishProposers]; [abortInstances] is what the first
    [FinishProposing] returns. *)
Definition FinishProposers (txnId : TxnId) (abortInstances : list Z)
    (pm : ProposerManager) : ProposerManager :=
  let instId := instanceId txnId (RMId pm) in
  match proposals pm !! instId with
  | Some prop =>
      let pm := finishProposal instId prop pm in
      foldl (λ pm rmId,
               let instId := instanceId txnId rmId in
               match proposals pm !! instId with
               | Some prop => finishProposal instId prop pm
               | None => pm
               end) pm abortInstances
  | None => pm
  end.

(** One call into the manager, on its executor. *)
Inductive Op :=
| OpLoadFromData (txnId : TxnId) (decoded : option ProposerMode)
| OpTopologyChanged (topo : option Topology)
| OpImmigrationReceived (txn : txnreader.TxnReader) (varCaps : list Msgs.Var)
| OpTxnReceived (sender : Z) (txn : txnreader.TxnReader)
| OpNewPaxosProposals (txn : txnreader.TxnReader) (fInc : Z) (ballots : list (option Ballot))
    (acceptors : list Z) (rmId : Z) (skip : bool)
| OpAddToPaxosProposals (txnId : TxnId) (ballots : list (option Ballot)) (rmId : Z)
| OpOneBTxnVotesReceived (sender : Z) (txnId : TxnId) (votesRmId : Z)
| OpTwoBTxnVotesReceived (sender : Z) (txnId : TxnId) (txn : txnreader.TxnReader)
    (twoBTxnVotes : TwoBTxnVotes)
| OpTxnGloballyCompleteReceived (sender : Z) (txnId : TxnId)
| OpTxnSubmissionAbortReceived (sender : Z) (txnId : TxnId)
| OpTxnFinished (txnId : TxnId)
| OpFinishProposers (txnId : TxnId) (abortInstances : list Z).

Definition step (op : Op) (pm : ProposerManager) : Res ProposerManager :=
  match op with
  | OpLoadFromData txnId decoded => Ok (loadFromData txnId decoded pm).1
  | OpTopologyChanged topo => Ok (TopologyChangedTask topo pm)
  | OpImmigrationReceived txn varCaps => Ok (ImmigrationReceived txn varCaps pm)
  | OpTxnReceived sender txn => TxnReceived sender txn pm
  | OpNewPaxosProposals txn fInc ballots acceptors rmId skip =>
      Ok (NewPaxosProposals txn fInc ballots acceptors rmId skip pm)
  | OpAddToPaxosProposals txnId ballots rmId =>
      Ok (AddToPaxosProposals txnId ballots rmId pm)
  | OpOneBTxnVotesReceived sender txnId votesRmId =>
      Ok (OneBTxnVotesReceived sender txnId votesRmId pm)
  | OpTwoBTxnVotesReceived sender txnId txn twoBTxnVotes =>
      TwoBTxnVotesReceived sender txnId txn twoBTxnVotes pm
  | OpTxnGloballyCompleteReceived sender txnId =>
      Ok (TxnGloballyCompleteReceived sender txnId pm)
  | OpTxnSubmissionAbortReceived sender txnId =>
      Ok (TxnSubmissionAbortReceived sender txnId pm)
  | OpTxnFinished txnId => Ok (TxnFinished txnId pm)
  | OpFinishProposers txnId abortInstances =>
      Ok (FinishProposers txnId abortInstances pm)
  end.

Fixpoint run (ops : list Op) (pm : ProposerManager) : Res ProposerManager :=
  match ops with
  | [] => Ok pm
  | op :: rest => pm' ← step op pm; run rest pm'
  end.

End Paxos.

(** ** The transaction state machine ([txnengine/txn.go]) *)

Module TxnEngine.

Module localAction.

Record t := {
  Id : option TxnId;
  vUUId : VarUUId;
  ballot : option Ballot;
  frame : option nat;
  create : option (list Z);
  read : option TxnId;
  write : bool;
  roll : bool;
  addSub : bool;
  delSub : option TxnId;
  outcomeClock : option ClockData;
  immigrantVar : option Msgs.Var;
  writesClock : option ClockData
}.

Definition zero : t :=
  {| Id := None; vUUId := []; ballot := None; frame := None; create := None;
     read := None; write := false; roll := false; addSub := false;
     delSub := None; outcomeClock := None; immigrantVar := None;
     writesClock := None |}.

Definition setBallot (b : option Ballot) (a : t) : t :=
  {| Id := Id a; vUUId := vUUId a; ballot := b; frame := frame a;
     create := create a; read := read a; write := write a; roll := roll a;
     addSub := addSub a; delSub := delSub a; outcomeClock := outcomeClock a;
     immigrantVar := immigrantVar a; writesClock := writesClock a |}.

Definition setFrame (f : option nat) (a : t) : t :=
  {| Id := Id a; vUUId := vUUId a; ballot := ballot a; frame := f;
     create := create a; read := read a; write := write a; roll := roll a;
     addSub := addSub a; delSub := delSub a; outcomeClock := outcomeClock a;
     immigrantVar := immigrantVar a; writesClock := writesClock a |}.

Definition setOutcomeClock (c : option ClockData) (a : t) : t :=
  {| Id := Id a; vUUId := vUUId a; ballot := ballot a; frame := frame a;
     create := create a; read := read a; write := write a; roll := roll a;
     addSub := addSub a; delSub := delSub a; outcomeClock := c;
     immigrantVar := immigrantVar a; writesClock := writesClock a |}.

Definition IsRead (a : t) : bool := bool_decide (read a ≠ None).

Definition IsWrite (a : t) : bool :=
  write a || roll a || addSub a || bool_decide (delSub a ≠ None).

Definition IsNoopWrite (a : t) : bool :=
  negb (write a) && (roll a || addSub a || bool_decide (delSub a ≠ None)).

Definition IsMeta (a : t) : bool := addSub a || bool_decide (delSub a ≠ None).

Definition IsImmigrant (a : t) : bool := bool_decide (immigrantVar a ≠ None).

End localAction.

(** The five components, in the order [nextState] walks them. *)
Inductive State :=
| txnDetermineLocalBallots
| txnAwaitLocalBallots
| txnReceiveOutcome
| txnAwaitLocallyComplete
| txnReceiveCompletion.

(** Functions handed to [exe.EnqueueFuncAsync]. *)
Inductive Task :=
| preAbortTask
| allTxnBallotsCompleteTask
| locallyCompleteTask.

(** What the function handed to [vd.ApplyToVar] asks of the variable. *)
Inductive VarCall :=
| ReceiveTxn
| PreAbortNotify
| ReceiveTxnOutcome
| TxnGloballyComplete.

(** The trace of a Txn: each [currentState.start()], each request to the
    VarDispatcher and each upward callback on [stateChange]. *)
Inductive Effect :=
| Enter (s : State)
| ApplyToVar (call : VarCall) (createIfMissing : bool) (v : VarUUId)
| TxnBallotsComplete (ballots : list (option Ballot))
| TxnLocallyComplete
| TxnFinished.

#[global] Instance State_eq_dec : EqDecision State.
Proof. solve_decision. Defined.
#[global] Instance Task_eq_dec : EqDecision Task.
Proof. solve_decision. Defined.
#[global] Instance VarCall_eq_dec : EqDecision VarCall.
Proof. solve_decision. Defined.
#[global] Instance Effect_eq_dec : EqDecision Effect.
Proof. solve_decision. Defined.

(** [Txn] with its five embedded components flattened.  [tdbTxn],
    [talbTxn], [troTxn], [talcTxn] and [trcTxn] say whether the
    component's back pointer has been set by [init]; a component whose
    back pointer is nil faults when it reaches through it. *)
Record Txn := {
  Id : TxnId;
  writes : list VarUUId;
  localActions : list localAction.t;
  voter : bool;
  TxnReader : option txnreader.TxnReader;
  tdbTxn : bool;
  pendingVote : Z;
  talbTxn : bool;
  preAborted : Z;
  preAbortedBool : bool;
  troTxn : bool;
  outcomeClock : option ClockData;
  aborted : bool;
  talcTxn : bool;
  activeFramesCount : Z;
  trcTxn : bool;
  completed : bool;
  currentState : option State;
  queue : list Task;
  trace : list Effect
}.

Definition setLocalActions (l : list localAction.t) (t : Txn) : Txn :=
  {| Id := Id t; writes := writes t; localActions := l; voter := voter t;
     TxnReader := TxnReader t; tdbTxn := tdbTxn t; pendingVote := pendingVote t;
     talbTxn := talbTxn t; preAborted := preAborted t;
     preAbortedBool := preAbortedBool t; troTxn := troTxn t;
     outcomeClock := outcomeClock t; aborted := aborted t; talcTxn := talcTxn t;
     activeFramesCount := activeFramesCount t; trcTxn := trcTxn t;
     completed := completed t; currentState := currentState t;
     queue := queue t; trace := trace t |}.

Definition setPendingVote (v : Z) (t : Txn) : Txn :=
  {| Id := Id t; writes := writes t; localActions := localActions t;
     voter := voter t; TxnReader := TxnReader t; tdbTxn := tdbTxn t;
     pendingVote := v; talbTxn := talbTxn t; preAborted := preAborted t;
     preAbortedBool := preAbortedBool t; troTxn := troTxn t;
     outcomeClock := outcomeClock t; aborted := aborted t; talcTxn := talcTxn t;
     activeFramesCount := activeFramesCount t; trcTxn := trcTxn t;
     completed := completed t; currentState := currentState t;
     queue := queue t; trace := trace t |}.

Definition setPreAborted (v : Z) (t : Txn) : Txn :=
  {| Id := Id t; writes := writes t; localActions := localActions t;
     voter := voter t; TxnReader := TxnReader t; tdbTxn := tdbTxn t;
     pendingVote := pendingVote t; talbTxn := talbTxn t; preAborted := v;
     preAbortedBool := preAbortedBool t; troTxn := troTxn t;
     outcomeClock := outcomeClock t; aborted := aborted t; talcTxn := talcTxn t;
     activeFramesCount := activeFramesCount t; trcTxn := trcTxn t;
     completed := completed t; currentState := currentState t;
     queue := queue t; trace := trace t |}.

Definition setPreAbortedBool (b : bool) (t : Txn) : Txn :=
  {| Id := Id t; writes := writes t; localActions := localActions t;
     voter := voter t; TxnReader := TxnReader t; tdbTxn := tdbTxn t;
     pendingVote := pendingVote t; talbTxn := talbTxn t;
     preAborted := preAborted t; preAbortedBool := b; troTxn := troTxn t;
     outcomeClock := outcomeClock t; aborted := aborted t; talcTxn := talcTxn t;
     activeFramesCount := activeFramesCount t; trcTxn := trcTxn t;
     completed := completed t; currentState := currentState t;
     queue := queue t; trace := trace t |}.

Definition setOutcomeClock (c : option ClockData) (t : Txn) : Txn :=
  {| Id := Id t; writes := writes t; localActions := localActions t;
     voter := voter t; TxnReader := TxnReader t; tdbTxn := tdbTxn t;
     pendingVote := pendingVote t; talbTxn := talbTxn t;
     preAborted := preAborted t; preAbortedBool := preAbortedBool t;
     troTxn := troTxn t; outcomeClock := c; aborted := aborted t;
     talcTxn := talcTxn t; activeFramesCount := activeFramesCount t;
     trcTxn := trcTxn t; completed := completed t;
     currentState := currentState t; queue := queue t; trace := trace t |}.

Definition setAborted (b : bool) (t : Txn) : Txn :=
  {| Id := Id t; writes := writes t; localActions := localActions t;
     voter := voter t; TxnReader := TxnReader t; tdbTxn := tdbTxn t;
     pendingVote := pendingVote t; talbTxn := talbTxn t;
     preAborted := preAborted t; preAbortedBool := preAbortedBool t;
     troTxn := troTxn t; outcomeClock := outcomeClock t; aborted := b;
     talcTxn := talcTxn t; activeFramesCount := activeFramesCount t;
     trcTxn := trcTxn t; completed := completed t;
     currentState := currentState t; queue := queue t; trace := trace t |}.

Definition setActiveFramesCount (v : Z) (t : Txn) : Txn :=
  {| Id := Id t; writes := writes t; localActions := localActions t;
     voter := voter t; TxnReader := TxnReader t; tdbTxn := tdbTxn t;
     pendingVote := pendingVote t; talbTxn := talbTxn t;
     preAborted := preAborted t; preAbortedBool := preAbortedBool t;
     troTxn := troTxn t; outcomeClock := outcomeClock t; aborted := aborted t;
     talcTxn := talcTxn t; activeFramesCount := v; trcTxn := trcTxn t;
     completed := completed t; currentState := currentState t;
     queue := queue t; trace := trace t |}.

Definition setCompleted (b : bool) (t : Txn) : Txn :=
  {| Id := Id t; writes := writes t; localActions := localActions t;
     voter := voter t; TxnReader := TxnReader t; tdbTxn := tdbTxn t;
     pendingVote := pendingVote t; talbTxn := talbTxn t;
     preAborted := preAborted t; preAbortedBool := preAbortedBool t;
     troTxn := troTxn t; outcomeClock := outcomeClock t; aborted := aborted t;
     talcTxn := talcTxn t; activeFramesCount := activeFramesCount t;
     trcTxn := trcTxn t; completed := b; currentState := currentState t;
     queue := queue t; trace := trace t |}.

Definition setCurrentState (s : option State) (t : Txn) : Txn :=
  {| Id := Id t; writes := writes t; localActions := localActions t;
     voter := voter t; TxnReader := TxnReader t; tdbTxn := tdbTxn t;
     pendingVote := pendingVote t; talbTxn := talbTxn t;
     preAborted := preAborted t; preAbortedBool := preAbortedBool t;
     troTxn := troTxn t; outcomeClock := outcomeClock t; aborted := aborted t;
     talcTxn := talcTxn t; activeFramesCount := activeFramesCount t;
     trcTxn := trcTxn t; completed := completed t; currentState := s;
     queue := queue t; trace := trace t |}.

Definition setQueue (q : list Task) (t : Txn) : Txn :=
  {| Id := Id t; writes := writes t; localActions := localActions t;
     voter := voter t; TxnReader := TxnReader t; tdbTxn := tdbTxn t;
     pendingVote := pendingVote t; talbTxn := talbTxn t;
     preAborted := preAborted t; preAbortedBool := preAbortedBool t;
     troTxn := troTxn t; outcomeClock := outcomeClock t; aborted := aborted t;
     talcTxn := talcTxn t; activeFramesCount := activeFramesCount t;
     trcTxn := trcTxn t; completed := completed t;
     currentState := currentState t; queue := q; trace := trace t |}.

Definition setTrace (l : list Effect) (t : Txn) : Txn :=
  {| Id := Id t; writes := writes t; localActions := localActions t;
     voter := voter t; TxnReader := TxnReader t; tdbTxn := tdbTxn t;
     pendingVote := pendingVote t; talbTxn := talbTxn t;
     preAborted := preAborted t; preAbortedBool := preAbortedBool t;
     troTxn := troTxn t; outcomeClock := outcomeClock t; aborted := aborted t;
     talcTxn := talcTxn t; activeFramesCount := activeFramesCount t;
     trcTxn := trcTxn t; completed := completed t;
     currentState := currentState t; queue := queue t; trace := l |}.

(** [exe.EnqueueFuncAsync(f)]. *)
Definition EnqueueFuncAsync (f : Task) (t : Txn) : Txn :=
  setQueue (queue t ++ [f]) t.

Definition emit (e : Effect) (t : Txn) : Txn :=
  setTrace (trace t ++ [e]) t.

(* The setters compute on an explicit record only, so that nested
   updates of an unknown Txn stay as they are written. *)
#[global] Arguments setLocalActions _ !_ /.
#[global] Arguments setPendingVote _ !_ /.
#[global] Arguments setPreAborted _ !_ /.
#[global] Arguments setPreAbortedBool _ !_ /.
#[global] Arguments setOutcomeClock _ !_ /.
#[global] Arguments setAborted _ !_ /.
#[global] Arguments setActiveFramesCount _ !_ /.
#[global] Arguments setCompleted _ !_ /.
#[global] Arguments setCurrentState _ !_ /.
#[global] Arguments setQueue _ !_ /.
#[global] Arguments setTrace _ !_ /.
#[global] Arguments EnqueueFuncAsync _ !_ /.
#[global] Arguments emit _ !_ /.

(** [for idx := 0; idx < len(localActions); idx++ { vd.ApplyToVar(f, create, action.vUUId) }]. *)
Definition applyToEachVar (call : VarCall) (createIfMissing : bool) (t : Txn) : Txn :=
  foldl (λ t a, emit (ApplyToVar call createIfMissing (localAction.vUUId a)) t)
    t (localActions t).

(** [Start], up to the choice of the first state: the [init] of each
    component. *)
Definition initComponents (v : bool) (t : Txn) : Txn :=
  let n := wrap32 (Z.of_nat (length (localActions t))) in
  {| Id := Id t; writes := writes t; localActions := localActions t;
     voter := v; TxnReader := TxnReader t;
     tdbTxn := if v then true else tdbTxn t;
     pendingVote := if v then n else pendingVote t;
     talbTxn := if v then true else talbTxn t;
     preAborted := preAborted t; preAbortedBool := preAbortedBool t;
     troTxn := true; outcomeClock := outcomeClock t; aborted := aborted t;
     talcTxn := true; activeFramesCount := n;
     trcTxn := true; completed := completed t;
     currentState := currentState t; queue := queue t; trace := trace t |}.

(** [talc.locallyComplete], calling [next] for [nextState]. *)
Definition locallyCompleteWith (next : Txn → Res Txn) (t : Txn) : Res Txn :=
  if negb (talcTxn t) then Fault NilDereference
  else if bool_decide (currentState t = Some txnAwaitLocallyComplete) then
    t ← next t;
    Ok (emit TxnLocallyComplete t)
  else Ok t.

(** The [start] method of each component, calling [next] for
    [nextState]. *)
Definition startWith (next : Txn → Res Txn) (s : State) (t : Txn) : Res Txn :=
  match s with
  | txnDetermineLocalBallots =>
      if negb (tdbTxn t) then Fault NilDereference
      else
        t ← next t;
        Ok (applyToEachVar ReceiveTxn true t)
  | txnAwaitLocallyComplete =>
      if negb (talcTxn t) then Fault NilDereference
      else if aborted t || bool_decide (activeFramesCount t = 0)
      then locallyCompleteWith next t
      else Ok t
  | _ => Ok t
  end.

(** [txn.currentState = s; txn.currentState.start()]. *)
Definition enterWith (next : Txn → Res Txn) (s : State) (t : Txn) : Res Txn :=
  startWith next s (emit (Enter s) (setCurrentState (Some s) t)).

(** [nextState]; the nested calls ([start] of a component calling
    [nextState] again) are counted down by [fuel]. *)
Fixpoint nextStateFuel (fuel : nat) (t : Txn) : Res Txn :=
  match fuel with
  | O => Fault OutOfFuel
  | S fuel =>
      match currentState t with
      | Some txnDetermineLocalBallots =>
          enterWith (nextStateFuel fuel) txnAwaitLocalBallots t
      | Some txnAwaitLocalBallots =>
          enterWith (nextStateFuel fuel) txnReceiveOutcome t
      | Some txnReceiveOutcome =>
          enterWith (nextStateFuel fuel) txnAwaitLocallyComplete t
      | Some txnAwaitLocallyComplete =>
          enterWith (nextStateFuel fuel) txnReceiveCompletion t
      | Some txnReceiveCompletion => Ok (setCurrentState None t)
      | None => Fault (Panic NextStateInTerminalState)
      end
  end.

(** No chain of nested calls is longer than two: only
    [txnDetermineLocalBallots.start] and [locallyComplete] call back,
    and the component they lead to has an empty [start]. *)
Definition nextState (t : Txn) : Res Txn := nextStateFuel 2 t.

Definition Start (v : bool) (t : Txn) : Res Txn :=
  let t := initComponents v t in
  let s := if v then txnDetermineLocalBallots else txnReceiveOutcome in
  enterWith nextState s t.

Definition voteCast (b : Ballot) (abort : bool) (t : Txn) : Res (Txn * bool) :=
  t ← (if abort && bool_decide (preAborted t = 0) then
         let t := setPreAborted 1 t in
         if negb (talbTxn t) then Fault NilDereference
         else Ok (EnqueueFuncAsync preAbortTask t)
       else Ok t);
  let abort := abort || bool_decide (preAborted t = 1) in
  if negb (talbTxn t) then Fault NilDereference
  else
    let v := wrap32 (pendingVote t - 1) in
    let t := setPendingVote v t in
    let t := if bool_decide (v = 0)
             then EnqueueFuncAsync allTxnBallotsCompleteTask t else t in
    Ok (t, abort).

(** [action.ballot = b] for the action at [idx]. *)
Definition setActionBallot (idx : nat) (b : Ballot) (t : Txn) : Txn :=
  setLocalActions
    (alter (localAction.setBallot (Some b)) idx (localActions t)) t.

Definition VoteDeadlock (idx : nat) (clock : option ClockData) (t : Txn) : Res Txn :=
  match localActions t !! idx with
  | None => Fault IndexOutOfRange
  | Some action =>
      if bool_decide (localAction.ballot action = None) then
        let b := NewBallot (localAction.vUUId action) AbortDeadlock clock None in
        r ← voteCast b true (setActionBallot idx b t);
        Ok r.1
      else Ok t
  end.

Definition VoteBadRead (idx : nat) (clock : option ClockData) (txnId : TxnId)
    (actions : list Msgs.Action) (t : Txn) : Res Txn :=
  match localActions t !! idx with
  | None => Fault IndexOutOfRange
  | Some action =>
      if bool_decide (localAction.ballot action = None) then
        let b := CreateBadReadBallot (localAction.vUUId action) clock txnId actions in
        r ← voteCast b true (setActionBallot idx b t);
        Ok r.1
      else Ok t
  end.

Definition VoteCommit (idx : nat) (clock : option ClockData)
    (subscriptions : option (list TxnId)) (t : Txn) : Res (Txn * bool) :=
  match localActions t !! idx with
  | None => Fault IndexOutOfRange
  | Some action =>
      if bool_decide (localAction.ballot action = None) then
        let b := NewBallot (localAction.vUUId action) Commit clock subscriptions in
        r ← voteCast b false (setActionBallot idx b t);
        Ok (r.1, negb r.2)
      else Ok (t, false)
  end.

Definition preAbort (t : Txn) : Res Txn :=
  if negb (talbTxn t) then Fault NilDereference
  else if bool_decide (currentState t = Some txnAwaitLocalBallots)
          && negb (preAbortedBool t) then
    let t := setPreAbortedBool true t in
    Ok (applyToEachVar PreAbortNotify false t)
  else Fault (Panic PreAbortInWrongState).

Definition allTxnBallotsComplete (t : Txn) : Res Txn :=
  if negb (talbTxn t) then Fault NilDereference
  else if bool_decide (currentState t = Some txnAwaitLocalBallots) then
    t ← nextState t;
    let ballots := localAction.ballot <$> localActions t in
    Ok (emit (TxnBallotsComplete ballots) t)
  else Fault (Panic BallotsCompleteInWrongState).

(** [vc.VectorClockFromData(data, force)]: a clock, never nil. *)
Definition VectorClockFromData (data : ClockData) : option ClockData := Some data.

(** The last loop of [BallotOutcomeReceived]: for each index, stamp the
    outcome clock on the action and ask its variable to receive the
    outcome. *)
Definition stampOutcome (t : Txn) : Txn :=
  foldl (λ t idx,
           match localActions t !! idx with
           | None => t
           | Some action =>
               let action := localAction.setOutcomeClock (outcomeClock t) action in
               let t := setLocalActions (<[idx := action]> (localActions t)) t in
               emit (ApplyToVar ReceiveTxnOutcome (negb (voter t))
                       (localAction.vUUId action)) t
           end)
    t (seq 0 (length (localActions t))).

Definition BallotOutcomeReceived (outcome : Msgs.Outcome) (t : Txn) : Res Txn :=
  if bool_decide (outcomeClock t ≠ None) || aborted t then Ok t
  else if negb (troTxn t) then Fault NilDereference
  else if negb (bool_decide (currentState t = Some txnReceiveOutcome))
  then Fault (Panic OutcomeInWrongState)
  else
    let t := match outcome with
             | Msgs.OUTCOME_COMMIT data => setOutcomeClock (VectorClockFromData data) t
             | _ => setAborted true t
             end in
    t ← nextState t;
    if preAbortedBool t then
      if negb (aborted t) then Fault (Panic PreAbortedButCommit)
      else Ok t
    else Ok (stampOutcome t).

Definition LocallyComplete (t : Txn) : Res Txn :=
  let result := wrap32 (activeFramesCount t - 1) in
  let t := setActiveFramesCount result t in
  if negb (talcTxn t) then Fault NilDereference
  else if bool_decide (result = 0) then Ok (EnqueueFuncAsync locallyCompleteTask t)
  else if bool_decide (result < 0) then Fault (Panic ActiveFramesCountNegative)
  else Ok t.

Definition locallyComplete (t : Txn) : Res Txn := locallyCompleteWith nextState t.

Definition maybeFinish (t : Txn) : Res Txn :=
  if bool_decide (currentState t = Some txnReceiveCompletion) && completed t then
    t ← nextState t;
    Ok (emit TxnFinished t)
  else Ok t.

(** The last loop of [CompletionReceived]: actions without a frame are
    skipped. *)
Definition notifyGloballyComplete (t : Txn) : Txn :=
  foldl (λ t a,
           match localAction.frame a with
           | None => t
           | Some _ => emit (ApplyToVar TxnGloballyComplete false (localAction.vUUId a)) t
           end) t (localActions t).

Definition CompletionReceived (t : Txn) : Res Txn :=
  if negb (trcTxn t) then Fault NilDereference
  else if completed t then Ok t
  else if negb (bool_decide (currentState t = Some txnReceiveCompletion))
  then Fault (Panic CompletionInWrongState)
  else
    let t := setCompleted true t in
    t ← maybeFinish t;
    if aborted t then Ok t
    else Ok (notifyGloballyComplete t).

(** The local action [ImmigrationTxnFromCap] builds from one varCap. *)
Definition immigrantAction (varCap : Msgs.Var) : localAction.t :=
  {| localAction.Id := Some (MakeTxnId (Msgs.WriteTxnId varCap));
     localAction.vUUId := MakeVarUUId (Msgs.VarIdOf varCap);
     localAction.ballot := None;
     localAction.frame := None;
     localAction.create := Some (Msgs.Positions varCap);
     localAction.read := None;
     localAction.write := true;
     localAction.roll := false;
     localAction.addSub := false;
     localAction.delSub := None;
     localAction.outcomeClock := VectorClockFromData (Msgs.WriteTxnClock varCap);
     localAction.immigrantVar := Some varCap;
     localAction.writesClock := VectorClockFromData (Msgs.WritesClock varCap) |}.

(** The [&Txn{...}] literal of a constructor, before [Start]. *)
Definition newTxn (id : TxnId) (reader : txnreader.TxnReader)
    (actions : list localAction.t) (writes : list VarUUId) : Txn :=
  {| Id := id; writes := writes; localActions := actions; voter := false;
     TxnReader := Some reader; tdbTxn := false; pendingVote := 0;
     talbTxn := false; preAborted := 0; preAbortedBool := false;
     troTxn := false; outcomeClock := None; aborted := false;
     talcTxn := false; activeFramesCount := 0; trcTxn := false;
     completed := false; currentState := None; queue := []; trace := [] |}.

Definition ImmigrationTxnFromCap (reader : txnreader.TxnReader)
    (varCaps : list Msgs.Var) : Res Txn :=
  let actions := immigrantAction <$> varCaps in
  let txn := newTxn (txnreader.Id reader) reader actions
               (localAction.vUUId <$> actions) in
  txn ← Start false txn;
  txn ← nextState txn;
  Ok (applyToEachVar ReceiveTxnOutcome true txn).

(** ** [TxnFromReader] and [populate] *)

Inductive ActionValueExistingModify :=
| ACTIONVALUEEXISTINGMODIFY_NOT
| ACTIONVALUEEXISTINGMODIFY_ROLL
| ACTIONVALUEEXISTINGMODIFY_WRITE.

Inductive ActionValue :=
| ACTIONVALUE_CREATE (positions : list Z)
| ACTIONVALUE_EXISTING (read : list Z) (modify : ActionValueExistingModify)
| ACTIONVALUE_OTHER (which : Z).

(** An action of the transaction ([msgs.Action]) with all the fields
    [populate] reads: the variable, the value and the meta data. *)
Record ActionCap := {
  capVarId : list Z;
  capValue : ActionValue;
  capAddSub : bool;
  capDelSub : list Z
}.

(** The ways [populate] panics. *)
Inductive PopulatePanic :=
| ActionIsNil
| UnexpectedActionValue
| LocalActionsNotFound (expected found : nat).

#[global] Instance ActionValueExistingModify_eq_dec : EqDecision ActionValueExistingModify.
Proof. solve_decision. Defined.
#[global] Instance ActionValue_eq_dec : EqDecision ActionValue.
Proof. solve_decision. Defined.
#[global] Instance PopulatePanic_eq_dec : EqDecision PopulatePanic.
Proof. solve_decision. Defined.

(** [action.Id = txn.Id]. *)
Definition setId (id : option TxnId) (a : localAction.t) : localAction.t :=
  {| localAction.Id := id; localAction.vUUId := localAction.vUUId a;
     localAction.ballot := localAction.ballot a;
     localAction.frame := localAction.frame a;
     localAction.create := localAction.create a;
     localAction.read := localAction.read a;
     localAction.write := localAction.write a;
     localAction.roll := localAction.roll a;
     localAction.addSub := localAction.addSub a;
     localAction.delSub := localAction.delSub a;
     localAction.outcomeClock := localAction.outcomeClock a;
     localAction.immigrantVar := localAction.immigrantVar a;
     localAction.writesClock := localAction.writesClock a |}.

(** The assignments to [action] in the branch [idx == actionIndex],
    for a value that is a create or an existing. *)
Definition fillLocal (actionCap : ActionCap) (a : localAction.t) : localAction.t :=
  let actionValue := capValue actionCap in
  {| localAction.Id := localAction.Id a;
     localAction.vUUId := MakeVarUUId (capVarId actionCap);
     localAction.ballot := localAction.ballot a;
     localAction.frame := localAction.frame a;
     localAction.create :=
       match actionValue with
       | ACTIONVALUE_CREATE positions => Some positions
       | _ => localAction.create a
       end;
     localAction.read :=
       match actionValue with
       | ACTIONVALUE_EXISTING actionRead _ =>
           if decide (length actionRead ≠ 0%nat) then Some (MakeTxnId actionRead)
           else localAction.read a
       | _ => localAction.read a
       end;
     localAction.write :=
       match actionValue with
       | ACTIONVALUE_EXISTING _ ACTIONVALUEEXISTINGMODIFY_WRITE => true
       | _ => localAction.write a
       end;
     localAction.roll :=
       match actionValue with
       | ACTIONVALUE_EXISTING _ ACTIONVALUEEXISTINGMODIFY_ROLL => true
       | _ => localAction.roll a
       end;
     localAction.addSub := if capAddSub actionCap then true else localAction.addSub a;
     localAction.delSub :=
       if decide (length (capDelSub actionCap) ≠ 0%nat)
       then Some (MakeTxnId (capDelSub actionCap))
       else localAction.delSub a;
     localAction.outcomeClock := localAction.outcomeClock a;
     localAction.immigrantVar := localAction.immigrantVar a;
     localAction.writesClock := localAction.writesClock a |}.

(** The value of [isWrite] at the end of the branch
    [idx == actionIndex]. *)
Definition localIsWrite (actionCap : ActionCap) : bool :=
  match capValue actionCap with
  | ACTIONVALUE_CREATE _ => true
  | ACTIONVALUE_EXISTING _ ACTIONVALUEEXISTINGMODIFY_NOT => false
  | ACTIONVALUE_EXISTING _ _ => true
  | ACTIONVALUE_OTHER _ => false
  end
  || capAddSub actionCap
  || bool_decide (length (capDelSub actionCap) ≠ 0%nat).

(** The value of [isWrite] at the end of the [else] branch. *)
Definition remoteIsWrite (actionCap : ActionCap) : bool :=
  match capValue actionCap with
  | ACTIONVALUE_CREATE _ => true
  | ACTIONVALUE_EXISTING _ modify =>
      bool_decide (modify ≠ ACTIONVALUEEXISTINGMODIFY_NOT)
  | ACTIONVALUE_OTHER _ => false
  end.

(** The variables of [populate]: [pAction] is the index in
    [localActions] that [action] points to, if it is not nil. *)
Record populateVars := {
  pLocalActions : list localAction.t;
  pAction : option nat;
  pActionIndicesIdx : nat;
  pActionIndex : Z;
  pWrites : list VarUUId
}.

(** The loop of [populate] from [idx] on; [actionsList] is what is left
    of the actions. *)
Fixpoint populateLoop (txnId : TxnId) (actionIndices : list Z) (idx : nat)
    (actionsList : list ActionCap) (s : populateVars)
    : PopulatePanic + populateVars :=
  match actionsList with
  | [] => inr s
  | actionCap :: rest =>
      match pAction s with
      | None => inl ActionIsNil
      | Some k =>
          let localActions := alter (setId (Some txnId)) k (pLocalActions s) in
          let appendWrite (isWrite : bool) :=
            if isWrite then pWrites s ++ [MakeVarUUId (capVarId actionCap)]
            else pWrites s in
          if decide (Z.of_nat idx = pActionIndex s) then
            match capValue actionCap with
            | ACTIONVALUE_OTHER _ => inl UnexpectedActionValue
            | _ =>
                let localActions := alter (fillLocal actionCap) k localActions in
                let actionIndicesIdx := S (pActionIndicesIdx s) in
                populateLoop txnId actionIndices (S idx) rest
                  match actionIndices !! actionIndicesIdx with
                  | Some i =>
                      {| pLocalActions := localActions;
                         pAction := Some actionIndicesIdx;
                         pActionIndicesIdx := actionIndicesIdx;
                         pActionIndex := i;
                         pWrites := appendWrite (localIsWrite actionCap) |}
                  | None =>
                      {| pLocalActions := localActions;
                         pAction := Some k;
                         pActionIndicesIdx := actionIndicesIdx;
                         pActionIndex := pActionIndex s;
                         pWrites := appendWrite (localIsWrite actionCap) |}
                  end
            end
          else
            populateLoop txnId actionIndices (S idx) rest
              {| pLocalActions := localActions;
                 pAction := Some k;
                 pActionIndicesIdx := pActionIndicesIdx s;
                 pActionIndex := pActionIndex s;
                 pWrites := appendWrite (remoteIsWrite actionCap) |}
      end
  end.

Definition populate (actionIndices : list Z) (actionsList : list ActionCap)
    (txn : Txn) : PopulatePanic + Txn :=
  let localActions := replicate (length actionIndices) localAction.zero in
  let s := {| pLocalActions := localActions;
              pAction := match actionIndices with [] => None | _ :: _ => Some 0%nat end;
              pActionIndicesIdx := 0;
              pActionIndex := match actionIndices with [] => -1 | i :: _ => i end;
              pWrites := writes txn |} in
  match populateLoop (Id txn) actionIndices 0 actionsList s with
  | inl panic => inl panic
  | inr s =>
      if decide (pActionIndicesIdx s ≠ length actionIndices)
      then inl (LocalActionsNotFound (length actionIndices) (pActionIndicesIdx s))
      else inr {| Id := Id txn; writes := pWrites s;
                  localActions := pLocalActions s; voter := voter txn;
                  TxnReader := TxnReader txn; tdbTxn := tdbTxn txn;
                  pendingVote := pendingVote txn; talbTxn := talbTxn txn;
                  preAborted := preAborted txn;
                  preAbortedBool := preAbortedBool txn; troTxn := troTxn txn;
                  outcomeClock := outcomeClock txn; aborted := aborted txn;
                  talcTxn := talcTxn txn;
                  activeFramesCount := activeFramesCount txn;
                  trcTxn := trcTxn txn; completed := completed txn;
                  currentState := currentState txn; queue := queue txn;
                  trace := trace txn |}
  end.

(** The loop of [TxnFromReader] over the allocations. *)
Fixpoint populateFor (ourRMId : Z) (allocations : list Msgs.Allocation)
    (actionsList : list ActionCap) (txn : Txn) : PopulatePanic + Txn :=
  match allocations with
  | [] => inr txn
  | alloc :: rest =>
      if decide (ourRMId = Msgs.RmId alloc)
      then populate (Msgs.ActionIndices alloc) actionsList txn
      else populateFor ourRMId rest actionsList txn
  end.

(** [TxnFromReader]; [actionsList] is [reader.Actions(true).Actions()]
    with the fields of the actions that [populate] reads. *)
Definition TxnFromReader (ourRMId : Z) (reader : txnreader.TxnReader)
    (actionsList : list ActionCap) : PopulatePanic + Txn :=
  let txn := newTxn (txnreader.Id reader) reader [] [] in
  populateFor ourRMId (Msgs.Allocations (txnreader.Txn reader)) actionsList txn.

(** One event in the life of a Txn: a vote cast by a variable, the
    variable recording its frame on the action, the executor running the
    function at the head of its queue, or a callback from the network or
    from a frame. *)
Inductive Op :=
| OpVoteDeadlock (idx : nat) (clock : option ClockData)
| OpVoteBadRead (idx : nat) (clock : option ClockData) (txnId : TxnId)
    (actions : list Msgs.Action)
| OpVoteCommit (idx : nat) (clock : option ClockData)
    (subscriptions : option (list TxnId))
| OpSetFrame (idx : nat) (f : option nat)
| OpRunTask
| OpBallotOutcomeReceived (outcome : Msgs.Outcome)
| OpLocallyComplete
| OpCompletionReceived.

Definition runTask (f : Task) (t : Txn) : Res Txn :=
  match f with
  | preAbortTask => preAbort t
  | allTxnBallotsCompleteTask => allTxnBallotsComplete t
  | locallyCompleteTask => locallyComplete t
  end.

Definition step (op : Op) (t : Txn) : Res Txn :=
  match op with
  | OpVoteDeadlock idx clock => VoteDeadlock idx clock t
  | OpVoteBadRead idx clock txnId actions => VoteBadRead idx clock txnId actions t
  | OpVoteCommit idx clock subscriptions =>
      r ← VoteCommit idx clock subscriptions t; Ok r.1
  | OpSetFrame idx f =>
      Ok (setLocalActions (alter (localAction.setFrame f) idx (localActions t)) t)
  | OpRunTask =>
      match queue t with
      | [] => Ok t
      | f :: rest => runTask f (setQueue rest t)
      end
  | OpBallotOutcomeReceived outcome => BallotOutcomeReceived outcome t
  | OpLocallyComplete => LocallyComplete t
  | OpCompletionReceived => CompletionReceived t
  end.

Fixpoint run (ops : list Op) (t : Txn) : Res Txn :=
  match ops with
  | [] => Ok t
  | op :: rest => t' ← step op t; run rest t'
  end.

End TxnEngine.

(** * What the manager is expected to do *)

Module PaxosSpec.
Import Paxos.

(** The topology versions [TxnReceived] admits: the current one while
    no next topology is known, the next one once it is. *)
Definition versionAdmitted (topo : Topology) (v : Z) : Prop :=
  (Next topo = None ∧ Version topo = v)
  ∨ (∃ next, Next topo = Some next ∧ ConfVersion next = v).

(** "Equals either the current or the next version". *)
Definition versionCurrentOrNext (topo : Topology) (v : Z) : Prop :=
  Version topo = v ∨ (∃ next, Next topo = Some next ∧ ConfVersion next = v).

(** The admission rule of [TxnReceived], for a given reading of the
    version test. *)
Definition admissible (versionOk : Topology → Z → Prop) (sender : Z)
    (txn : txnreader.TxnReader) (pm : ProposerManager) : Prop :=
  topology pm = None
  ∨ ∃ topo, topology pm = Some topo
      ∧ versionOk topo (Msgs.TopologyVersion (txnreader.Txn txn))
      ∧ (sender ∉ RMsRemoved topo)
      ∧ ∃ alloc, AllocForRMId (txnreader.Txn txn) (RMId pm) = Some alloc
                 ∧ Msgs.Active alloc = BootCount pm.

(** The call accepted the transaction: it returned with an ActiveVoter
    Proposer stored for the TxnId. *)
Definition accepted (sender : Z) (txn : txnreader.TxnReader)
    (pm : ProposerManager) : Prop :=
  ∃ pm' p, TxnReceived sender txn pm = Ok pm'
    ∧ proposers pm' !! txnreader.Id txn = Some p
    ∧ proposerMode p = ProposerActiveVoter.

(** One AbortDeadlock ballot per action index of the allocation, in
    order, each for the variable of the action at that index. *)
Definition abortBallotsFor (txn : txnreader.TxnReader) (alloc : Msgs.Allocation)
    : list (option Ballot) :=
  (λ i, Some (NewBallot
                (MakeVarUUId (Msgs.VarId (Msgs.Action_At (txnreader.Actions txn) i)))
                AbortDeadlock None None))
  <$> Msgs.ActionIndices alloc.

(** The first 2·fInc − 1 RM ids of the allocations. *)
Definition quorumOf (txnCap : Msgs.Txn) : list Z :=
  take (Z.to_nat (2 * Msgs.FInc txnCap - 1)) (Msgs.RmId <$> Msgs.Allocations txnCap).

(** The abort proposal the manager opens for its own instance. *)
Definition isAbortProposal (txn : txnreader.TxnReader) (alloc : Msgs.Allocation)
    (rmId : Z) (skip : bool) (q : proposal) : Prop :=
  proposalTxn q = txn
  ∧ proposalFInc q = Msgs.FInc (txnreader.Txn txn)
  ∧ proposalBallots q = abortBallotsFor txn alloc
  ∧ instanceRMId q = rmId
  ∧ proposalAcceptors q = quorumOf (txnreader.Txn txn)
  ∧ skipPhase1 q = skip.

(** A Proposer made by [NewProposer] for [txn] in the given mode. *)
Definition isProposerFor (txn : txnreader.TxnReader) (mode : ProposerMode)
    (pm : ProposerManager) (p : Proposer) : Prop :=
  proposerTxn p = Some txn
  ∧ proposerTxnId p = txnreader.Id txn
  ∧ proposerMode p = mode
  ∧ proposerTopology p = topology pm.

(** The effects a call added to the log. *)
Definition newEffects (pm pm' : ProposerManager) : list Effect :=
  drop (length (effects pm)) (effects pm').

(** The call started a proposal for (txn, own RM id) with the given
    [skipPhase1], and that proposal is the one stored. *)
Definition startsProposal (skip : bool) (txn : txnreader.TxnReader)
    (pm pm' : ProposerManager) : Prop :=
  ∃ q, ProposalStart q ∈ newEffects pm pm'
       ∧ skipPhase1 q = skip
       ∧ proposals pm' !! instanceId (txnreader.Id txn) (RMId pm) = Some q.

(** The manager after a run of calls (unchanged should one of them
    panic). *)
Definition stateAfter (ops : list Op) (pm : ProposerManager) : ProposerManager :=
  match run ops pm with
  | Ok pm' => pm'
  | Fault _ => pm
  end.

(** [live] lists exactly the entries of the map [m], each once. *)
Definition tracks {V} (live : list (list Z * V)) (m : gmap (list Z) V) : Prop :=
  NoDup live.*1 ∧ ∀ k v, (k, v) ∈ live ↔ m !! k = Some v.

(** Every live proposal sits under the instance id of its own
    transaction and RM. *)
Definition keyedByInstance (live : list (list Z * proposal)) : Prop :=
  ∀ k q, (k, q) ∈ live →
    k = instanceId (txnreader.Id (proposalTxn q)) (instanceRMId q).

(** The running Proposers and proposals are the ones in the maps. *)
Definition coherent (pm : ProposerManager) : Prop :=
  tracks (liveProposers pm) (proposers pm)
  ∧ tracks (liveProposals pm) (proposals pm)
  ∧ keyedByInstance (liveProposals pm).

Definition atMostOneProposer (pm : ProposerManager) : Prop :=
  ∀ txnId,
    (length (filter (λ kp, kp.1 = txnId) (liveProposers pm)) ≤ 1)%nat.

Definition atMostOneProposal (pm : ProposerManager) : Prop :=
  ∀ txnId rmId,
    (length (filter (λ kq, txnreader.Id (proposalTxn kq.2) = txnId
                           ∧ instanceRMId kq.2 = rmId)
               (liveProposals pm)) ≤ 1)%nat.

(** What a call may do to the maps and the running objects while it
    adds: touch neither, or store and start one Proposer or one proposal
    under a key that was free. *)
Inductive grow : ProposerManager → ProposerManager → Prop :=
| grow_none pm pm' :
    proposers pm' = proposers pm → proposals pm' = proposals pm →
    liveProposers pm' = liveProposers pm → liveProposals pm' = liveProposals pm →
    grow pm pm'
| grow_proposer pm pm' k p :
    proposers pm !! k = None →
    proposers pm' = <[k := p]> (proposers pm) → proposals pm' = proposals pm →
    liveProposers pm' = (k, p) :: liveProposers pm →
    liveProposals pm' = liveProposals pm →
    grow pm pm'
| grow_proposal pm pm' k q :
    proposals pm !! k = None →
    k = instanceId (txnreader.Id (proposalTxn q)) (instanceRMId q) →
    proposers pm' = proposers pm → proposals pm' = <[k := q]> (proposals pm) →
    liveProposers pm' = liveProposers pm →
    liveProposals pm' = (k, q) :: liveProposals pm →
    grow pm pm'.

(** What a call may do while it removes: touch neither map, or drop
    what one key holds. *)
Inductive shrink : ProposerManager → ProposerManager → Prop :=
| shrink_none pm pm' :
    proposers pm' = proposers pm → proposals pm' = proposals pm →
    liveProposers pm' = liveProposers pm → liveProposals pm' = liveProposals pm →
    shrink pm pm'
| shrink_proposer pm pm' k :
    proposers pm' = delete k (proposers pm) → proposals pm' = proposals pm →
    liveProposers pm' = filter (λ kp, kp.1 ≠ k) (liveProposers pm) →
    liveProposals pm' = liveProposals pm →
    shrink pm pm'
| shrink_proposal pm pm' k :
    proposers pm' = proposers pm → proposals pm' = delete k (proposals pm) →
    liveProposers pm' = liveProposers pm →
    liveProposals pm' = filter (λ kq, kq.1 ≠ k) (liveProposals pm) →
    shrink pm pm'.

(** No entry of either map is replaced by another object. *)
Definition neverOverwrites (pm pm' : ProposerManager) : Prop :=
  (∀ k p, proposers pm !! k = Some p →
          proposers pm' !! k = Some p ∨ proposers pm' !! k = None)
  ∧ (∀ k q, proposals pm !! k = Some q →
            proposals pm' !! k = Some q ∨ proposals pm' !! k = None).

End PaxosSpec.

(** * Scenarios *)

Module Scenarios.
Import Paxos.

Definition exampleAllocs : list Msgs.Allocation :=
  [ {| Msgs.RmId := 1; Msgs.Active := 7; Msgs.ActionIndices := [0] |};
    {| Msgs.RmId := 2; Msgs.Active := 3; Msgs.ActionIndices := [1] |};
    {| Msgs.RmId := 3; Msgs.Active := 0; Msgs.ActionIndices := [] |};
    {| Msgs.RmId := 4; Msgs.Active := 0; Msgs.ActionIndices := [] |} ].

Definition V1 : list Z := [0; 0; 0; 1].
Definition V2 : list Z := [0; 0; 0; 2].
Definition T1 : TxnId := [0; 0; 0; 0; 0; 0; 0; 1].

(** This RM is RM 1 in its seventh boot. *)
Definition pm0 : ProposerManager := NewProposerManager 1 7.

Definition topologyV3 : Topology :=
  {| Version := 3; Next := None; RMsRemoved := ∅ |}.

Definition topologyV3Next4 : Topology :=
  {| Version := 3; Next := Some {| ConfVersion := 4 |}; RMsRemoved := ∅ |}.

(** A transaction at topology version 3 that allocates RM 1, with the
    given active boot count, to its two actions. *)
Definition txnFor (active : Z) : txnreader.TxnReader :=
  {| txnreader.Id := T1;
     txnreader.Txn :=
       {| Msgs.TopologyVersion := 3; Msgs.FInc := 1;
          Msgs.Allocations :=
            [ {| Msgs.RmId := 1; Msgs.Active := active;
                 Msgs.ActionIndices := [0; 1] |} ] |};
     txnreader.Actions := [ {| Msgs.VarId := V1 |}; {| Msgs.VarId := V2 |} ] |}.

(** The same transaction as seen by an RM it does not allocate. *)
Definition txnElsewhere : txnreader.TxnReader :=
  {| txnreader.Id := T1;
     txnreader.Txn :=
       {| Msgs.TopologyVersion := 3; Msgs.FInc := 1;
          Msgs.Allocations :=
            [ {| Msgs.RmId := 2; Msgs.Active := 5;
                 Msgs.ActionIndices := [0; 1] |} ] |};
     txnreader.Actions := [ {| Msgs.VarId := V1 |}; {| Msgs.VarId := V2 |} ] |}.

(** The manager once it has learnt a topology. *)
Definition pmV3 : ProposerManager := setTopology (Some topologyV3) pm0.
Definition pmV3Next4 : ProposerManager := setTopology (Some topologyV3Next4) pm0.

Definition commitOutcome : Msgs.Outcome := Msgs.OUTCOME_COMMIT [1; 1].

(** An outcome for T1 arrives first, the learner it creates finishes,
    and its Paxos instance has not been reaped yet. *)
Definition afterLateOutcome : list Op :=
  [ OpTwoBTxnVotesReceived 2 T1 (txnFor 5) (TWOBTXNVOTES_OUTCOME commitOutcome);
    OpTxnFinished T1 ].

(** The body of T1 is rejected (it was submitted for boot 5 of this
    RM), the learner it creates finishes, and its Paxos instance has
    not been reaped yet. *)
Definition afterRejectedBody : list Op :=
  [ OpTxnReceived 2 (txnFor 5);
    OpTxnFinished T1 ].

End Scenarios.

(** * What the state machine is expected to do *)

Module TxnSpec.
Import TxnEngine.

(** An outcome has been recorded. *)
Definition recorded (t : Txn) : Prop :=
  outcomeClock t ≠ None ∨ aborted t = true.

(** [Start] has run: the components every Txn uses have their back
    pointer. *)
Definition started (t : Txn) : Prop :=
  troTxn t = true ∧ talcTxn t = true ∧ trcTxn t = true.

Definition isPhase (e : Effect) : bool :=
  match e with
  | ApplyToVar _ _ _ => false
  | _ => true
  end.

(** The state entries and the callbacks on [stateChange] of a trace, in
    order. *)
Definition phases (tr : list Effect) : list Effect := filter (λ e, isPhase e) tr.

(** The ballots of the local actions, nil for those that have not
    voted. *)
Definition ballotsOf (t : Txn) : list (option Ballot) :=
  localAction.ballot <$> localActions t.

(** The number of nil ballots in a list. *)
Definition missing (bs : list (option Ballot)) : nat :=
  length (filter (λ b, b = None) bs).

(** The number of local actions that have not voted yet. *)
Definition unvoted (t : Txn) : nat := missing (ballotsOf t).

(** How often [f] waits in a queue. *)
Definition pendingIn (f : Task) (q : list Task) : nat :=
  length (filter (λ g, g = f) q).

Definition pendingTasks (f : Task) (t : Txn) : nat := pendingIn f (queue t).

(** The Txn after a run of events (unchanged should one of them
    panic). *)
Definition stateAfter (ops : list Op) (t : Txn) : Txn :=
  match run ops t with
  | Ok t' => t'
  | Fault _ => t
  end.

(** The state entries and callbacks that follow [txnReceiveOutcome]. *)
Definition tailPhases (st : option State) : list Effect :=
  match st with
  | Some txnAwaitLocallyComplete => [Enter txnAwaitLocallyComplete]
  | Some txnReceiveCompletion =>
      [Enter txnAwaitLocallyComplete; Enter txnReceiveCompletion;
       TxnLocallyComplete]
  | None =>
      [Enter txnAwaitLocallyComplete; Enter txnReceiveCompletion;
       TxnLocallyComplete; TxnFinished]
  | _ => []
  end.

(** The state entries and callbacks a Txn in state [st] has behind it:
    a voter went through the first two states and, once past them,
    advanced to [txnReceiveOutcome] and then handed up the ballots of
    its actions; a learner entered at [txnReceiveOutcome]; either one
    reports local completion after entering [txnReceiveCompletion] and
    reports that it is finished when it leaves it. *)
Definition expectedPhases (v : bool) (st : option State)
    (bs : list (option Ballot)) : list Effect :=
  (if v then
     [Enter txnDetermineLocalBallots; Enter txnAwaitLocalBallots]
     ++ (if decide (st = Some txnAwaitLocalBallots) then []
         else [Enter txnReceiveOutcome; TxnBallotsComplete bs])
   else [Enter txnReceiveOutcome])
  ++ tailPhases st.

(** The invariant of a started Txn, on the fields it relates: whether
    it votes, its state, the ballots of its [n] actions, the pending
    vote count, the queue and the trace. *)
Definition wellFormedOn (v : bool) (st : option State)
    (bs : list (option Ballot)) (n : nat) (pv : Z) (q : list Task)
    (tr : list Effect) : Prop :=
  Z.of_nat n < 2 ^ 31
  ∧ length bs = n
  ∧ st ≠ Some txnDetermineLocalBallots
  ∧ phases tr = expectedPhases v st bs
  ∧ if v then
      pv = Z.of_nat (missing bs)
      ∧ if decide (st = Some txnAwaitLocalBallots) then
          pendingIn allTxnBallotsCompleteTask q
          = (if decide (missing bs = 0 ∧ 0 < n)%nat then 1 else 0)%nat
        else missing bs = 0%nat ∧ pendingIn allTxnBallotsCompleteTask q = 0%nat
    else st ≠ Some txnAwaitLocalBallots.

(** The invariant of a started Txn: the components every Txn uses are
    initialised, the two a voter alone uses are initialised exactly for
    a voter, and the fields agree as [wellFormedOn] says. *)
Definition wellFormed (t : Txn) : Prop :=
  troTxn t = true ∧ talcTxn t = true ∧ trcTxn t = true
  ∧ tdbTxn t = voter t ∧ talbTxn t = voter t
  ∧ wellFormedOn (voter t) (currentState t)
      (localAction.ballot <$> localActions t) (length (localActions t))
      (pendingVote t) (queue t) (trace t).

(** What no event changes: whether the Txn votes, the variables of its
    actions, and a ballot once it is cast; a Txn whose
    [txnAwaitLocalBallots] was never initialised keeps all its ballots
    as they are. *)
Definition keeps (t t' : Txn) : Prop :=
  voter t' = voter t ∧ talbTxn t' = talbTxn t
  ∧ localAction.vUUId <$> localActions t' = localAction.vUUId <$> localActions t
  ∧ (talbTxn t = false → ballotsOf t' = ballotsOf t)
  ∧ ∀ idx b, ballotsOf t !! idx = Some (Some b) →
             ballotsOf t' !! idx = Some (Some b).

#[global] Instance ActionCap_inhabited : Inhabited ActionCap :=
  base.populate {| capVarId := []; capValue := ACTIONVALUE_OTHER 0;
              capAddSub := false; capDelSub := [] |}.

(** The local action [populate] makes of an action of the
    transaction. *)
Definition localOf (txnId : TxnId) (actionCap : ActionCap) : localAction.t :=
  fillLocal actionCap (setId (Some txnId) localAction.zero).

(** The local actions for the action indices of an allocation. *)
Definition localsOf (txnId : TxnId) (actions : list ActionCap) (indices : list Z)
    : list localAction.t :=
  (λ i, localOf txnId (actions !!! Z.to_nat i)) <$> indices.

(** The variables [populate] appends to [writes] for the actions from
    position [idx] on: an action of this RM counts as a write by its
    value or its meta data, an action of another RM by its value
    alone. *)
Fixpoint writesFrom (indices : list Z) (idx : nat) (actions : list ActionCap)
    : list VarUUId :=
  match actions with
  | [] => []
  | actionCap :: rest =>
      (if (if decide (Z.of_nat idx ∈ indices) then localIsWrite actionCap
           else remoteIsWrite actionCap)
       then [MakeVarUUId (capVarId actionCap)] else [])
      ++ writesFrom indices (S idx) rest
  end.

(** Every element is smaller than all that follow. *)
Fixpoint increasing (l : list Z) : Prop :=
  match l with
  | [] => True
  | i :: rest => Forall (λ j, i < j) rest ∧ increasing rest
  end.

(** What [populate] can work with: the action indices increase
    strictly, each is the position of an action, and that action is a
    create or an existing. *)
Definition populatable (indices : list Z) (actions : list ActionCap) : Prop :=
  increasing indices
  ∧ Forall (λ i, 0 ≤ i < Z.of_nat (length actions)
                 ∧ ∀ which, capValue (actions !!! Z.to_nat i) ≠ ACTIONVALUE_OTHER which)
      indices.

End TxnSpec.

Module TxnScenarios.
Import TxnEngine.

Definition T2 : TxnId := [0; 0; 0; 0; 0; 0; 0; 2].
Definition W1 : VarUUId := [0; 0; 0; 1].
Definition W2 : VarUUId := [0; 0; 0; 2].

Definition reader2 : txnreader.TxnReader :=
  {| txnreader.Id := T2;
     txnreader.Txn :=
       {| Msgs.TopologyVersion := 3; Msgs.FInc := 1;
          Msgs.Allocations :=
            [ {| Msgs.RmId := 1; Msgs.Active := 7; Msgs.ActionIndices := [0; 1] |} ] |};
     txnreader.Actions := [ {| Msgs.VarId := W1 |}; {| Msgs.VarId := W2 |} ] |}.

(** A write of the given variable, as [populate] leaves it. *)
Definition writeOf (v : VarUUId) : localAction.t :=
  {| localAction.Id := Some T2; localAction.vUUId := v;
     localAction.ballot := None; localAction.frame := None;
     localAction.create := None; localAction.read := None;
     localAction.write := true; localAction.roll := false;
     localAction.addSub := false; localAction.delSub := None;
     localAction.outcomeClock := None; localAction.immigrantVar := None;
     localAction.writesClock := None |}.

(** A Txn with two local writes, before [Start]. *)
Definition twoWrites : Txn := newTxn T2 reader2 [writeOf W1; writeOf W2] [W1; W2].

(** The same Txn started as a voter. *)
Definition twoWritesVoting : Txn :=
  match Start true twoWrites with
  | Ok t => t
  | Fault _ => twoWrites
  end.

(** The same Txn started as a learner. *)
Definition twoWritesLearning : Txn :=
  match Start false twoWrites with
  | Ok t => t
  | Fault _ => twoWrites
  end.

(** Both variables vote AbortDeadlock, then the executor runs
    [preAbort] and [allTxnBallotsComplete]. *)
Definition bothVoteDeadlock : list Op :=
  [ OpVoteDeadlock 0 None; OpVoteDeadlock 1 None; OpRunTask; OpRunTask ].

(** Both variables vote Commit, then the executor runs
    [allTxnBallotsComplete]. *)
Definition bothVoteCommit : list Op :=
  [ OpVoteCommit 0 (Some [1]) None; OpVoteCommit 1 (Some [2]) None; OpRunTask ].

(** A transaction of three actions: a create of [W1], a read of [W2]
    and a read and write of [W1]. *)
Definition threeActions : list ActionCap :=
  [ {| capVarId := W1; capValue := ACTIONVALUE_CREATE [0];
       capAddSub := false; capDelSub := [] |};
    {| capVarId := W2;
       capValue := ACTIONVALUE_EXISTING T2 ACTIONVALUEEXISTINGMODIFY_NOT;
       capAddSub := false; capDelSub := [] |};
    {| capVarId := W1;
       capValue := ACTIONVALUE_EXISTING T2 ACTIONVALUEEXISTINGMODIFY_WRITE;
       capAddSub := false; capDelSub := [] |} ].

Definition capOf (v : VarUUId) (clock : ClockData) : Msgs.Var :=
  {| Msgs.VarIdOf := v; Msgs.Positions := []; Msgs.WriteTxnId := T2;
     Msgs.WriteTxnClock := clock; Msgs.WritesClock := clock |}.

(** Three variables handed over with write clocks [[1]], [[2]], [[3]]. *)
Definition threeCaps : list Msgs.Var :=
  [ capOf [0; 0; 0; 1] [1]; capOf [0; 0; 0; 2] [2]; capOf [0; 0; 0; 3] [3] ].

End TxnScenarios.

(** * Properties of the Proposer Manager *)

Module PaxosFacts.
Import Paxos PaxosSpec Scenarios.

(** ** The acceptor list *)

Lemma fillAcceptors_take allocs : ∀ idx n acceptors,
  length acceptors = n →
  let r := fillAcceptors allocs idx n acceptors in
  take r.2 r.1 = take idx acceptors ++ take (n - idx) (Msgs.RmId <$> allocs)
  ∧ length r.1 = n.
Proof.
  induction allocs as [|alloc rest IH]; intros idx n acceptors Hlen; simpl.
  - rewrite take_nil, app_nil_r. done.
  - case_decide as Hlt; simpl.
    + specialize (IH (S idx) n (<[idx := Msgs.RmId alloc]> acceptors)).
      rewrite length_insert in IH. destruct (IH Hlen) as [IH1 IH2].
      split; [|done]. rewrite IH1.
      replace (n - idx)%nat with (S (n - S idx)) by lia. simpl.
      rewrite (take_S_r _ idx (Msgs.RmId alloc)).
      * rewrite take_insert_ge by lia. by rewrite <- app_assoc.
      * apply list_lookup_insert_eq. lia.
    + replace (n - idx)%nat with 0%nat by lia. rewrite take_0, app_nil_r. done.
Qed.

Lemma GetAcceptorsFromTxn_ok txnCap :
  1 ≤ Msgs.FInc txnCap →
  GetAcceptorsFromTxn txnCap
  = Ok (take (Z.to_nat (2 * Msgs.FInc txnCap - 1))
          (Msgs.RmId <$> Msgs.Allocations txnCap)).
Proof.
  intros HfInc. unfold GetAcceptorsFromTxn. case_decide; [lia|].
  pose proof (fillAcceptors_take (Msgs.Allocations txnCap) 0
                (Z.to_nat (Msgs.FInc txnCap + Msgs.FInc txnCap - 1))
                (replicate (Z.to_nat (Msgs.FInc txnCap + Msgs.FInc txnCap - 1)) 0)
                (length_replicate _ _)) as [Htake _].
  destruct (fillAcceptors _ _ _ _) as [acceptors idx]. simpl in Htake.
  rewrite Htake, Nat.sub_0_r. do 3 f_equal. lia.
Qed.

(** C7. For a transaction whose fInc is at least one (fInc is the
    failure tolerance plus one), [GetAcceptorsFromTxn] returns the RM
    ids of the allocations, in order, cut after the first 2·fInc − 1;
    with at least that many allocations the list has exactly 2·fInc − 1
    members; and the result depends on nothing but fInc and the
    allocations' RM ids, so every proposer computes the same list. *)
Theorem GetAcceptorsFromTxn_truncates txnCap :
  1 ≤ Msgs.FInc txnCap →
  let quorum := Z.to_nat (2 * Msgs.FInc txnCap - 1) in
  GetAcceptorsFromTxn txnCap
  = Ok (take quorum (Msgs.RmId <$> Msgs.Allocations txnCap))
  ∧ ((quorum ≤ length (Msgs.Allocations txnCap))%nat →
     ∃ acceptors, GetAcceptorsFromTxn txnCap = Ok acceptors
                  ∧ length acceptors = quorum)
  ∧ (∀ txnCap',
       Msgs.FInc txnCap' = Msgs.FInc txnCap →
       Msgs.RmId <$> Msgs.Allocations txnCap'
       = Msgs.RmId <$> Msgs.Allocations txnCap →
       GetAcceptorsFromTxn txnCap' = GetAcceptorsFromTxn txnCap).
Proof.
  intros HfInc quorum. split; [by apply GetAcceptorsFromTxn_ok|]. split.
  - intros Hlen. eexists. split; [by apply GetAcceptorsFromTxn_ok|].
    rewrite length_take, length_fmap. fold quorum. lia.
  - intros txnCap' HfInc' Hallocs.
    rewrite !GetAcceptorsFromTxn_ok by lia. by rewrite HfInc', Hallocs.
Qed.

Lemma GetAcceptorsFromTxn_truncates_witness :
  GetAcceptorsFromTxn
    {| Msgs.TopologyVersion := 3; Msgs.FInc := 2; Msgs.Allocations := exampleAllocs |}
  = Ok [1; 2; 3].
Proof.
  pose proof (GetAcceptorsFromTxn_truncates
    {| Msgs.TopologyVersion := 3; Msgs.FInc := 2; Msgs.Allocations := exampleAllocs |})
    as H.
  simpl in H. destruct H as [H _]; [lia|]. exact H.
Defined.

(** ** Admission of a transaction body *)

Lemma activeMatchesBootCount_AllocForRMId allocs pm :
  activeMatchesBootCount allocs pm = true
  ↔ ∃ alloc, AllocForRMId_from allocs (RMId pm) = Some alloc
             ∧ Msgs.Active alloc = BootCount pm.
Proof.
  induction allocs as [|a rest IH]; simpl.
  - split; [done|]. by intros (? & ? & _).
  - case_decide as Hrm; [|done].
    rewrite bool_decide_eq_true. split.
    + intros Hactive. by exists a.
    + intros (alloc & [= <-] & Hactive). done.
Qed.

Lemma acceptTxn_admissible sender txn pm :
  acceptTxn sender txn pm = true ↔ admissible versionAdmitted sender txn pm.
Proof.
  unfold acceptTxn, admissible, versionAdmitted, AllocForRMId.
  destruct (topology pm) as [topo|]; [|by split; [left|]].
  split.
  - intros Haccept. right. exists topo. split; [done|].
    destruct (Next topo) as [next|] eqn:Hnext; simpl in Haccept.
    + case_bool_decide as Hver; [|done].
      case_bool_decide as Hrem; [done|]. simpl in Haccept.
      split; [right; by exists next|]. split; [done|].
      by apply activeMatchesBootCount_AllocForRMId.
    + rewrite orb_false_r in Haccept.
      case_bool_decide as Hver; [|done].
      case_bool_decide as Hrem; [done|]. simpl in Haccept.
      split; [by left|]. split; [done|].
      by apply activeMatchesBootCount_AllocForRMId.
  - intros [?|(topo' & [= <-] & Hver & Hrem & Halloc)]; [done|].
    apply activeMatchesBootCount_AllocForRMId in Halloc.
    destruct Hver as [[Hnone Hver]|(next & Hnext & Hver)].
    + rewrite Hnone. simpl. rewrite orb_false_r.
      rewrite bool_decide_eq_true_2 by done.
      by rewrite bool_decide_eq_false_2 by done.
    + rewrite Hnext. simpl.
      rewrite bool_decide_eq_true_2 by done.
      by rewrite bool_decide_eq_false_2 by done.
Qed.

Lemma AllocForRMId_from_Some allocs rmId alloc :
  AllocForRMId_from allocs rmId = Some alloc →
  alloc ∈ allocs ∧ Msgs.RmId alloc = rmId.
Proof.
  induction allocs as [|a rest IH]; simpl; [done|].
  case_decide.
  - intros [= <-]. split; [left|done].
  - intros H'. destruct (IH H') as [? ?]. split; [by right|done].
Qed.

Lemma AllocForRMId_from_None allocs rmId :
  AllocForRMId_from allocs rmId = None
  ↔ ∀ alloc, alloc ∈ allocs → Msgs.RmId alloc ≠ rmId.
Proof.
  induction allocs as [|a rest IH]; simpl.
  - split; [|done]. intros _ alloc Hin. by apply elem_of_nil in Hin.
  - case_decide as Hrm.
    + split; [done|]. intros Hall. exfalso. apply (Hall a); [left|done].
    + rewrite IH. split.
      * intros Hall alloc [->|Hin]%elem_of_cons; [done|by apply Hall].
      * intros Hall alloc Hin. apply Hall. by right.
Qed.

Lemma fillAbortBallots_spec actions indices : ∀ idx ballots,
  length ballots = (idx + length indices)%nat →
  fillAbortBallots actions indices idx ballots
  = take idx ballots
    ++ ((λ i, Some (NewBallot (MakeVarUUId (Msgs.VarId (Msgs.Action_At actions i)))
                      AbortDeadlock None None)) <$> indices).
Proof.
  induction indices as [|i rest IH]; intros idx ballots Hlen; simpl in *.
  - rewrite app_nil_r, take_ge; [done|lia].
  - rewrite IH by (rewrite length_insert; lia).
    rewrite (take_S_r _ idx (Some (NewBallot (MakeVarUUId (Msgs.VarId (Msgs.Action_At actions i)))
                                     AbortDeadlock None None))).
    + rewrite take_insert_ge by lia. by rewrite <- app_assoc.
    + apply list_lookup_insert_eq. lia.
Qed.

Lemma MakeAbortBallots_Some txn alloc :
  MakeAbortBallots txn (Some alloc) = Ok (abortBallotsFor txn alloc).
Proof.
  unfold MakeAbortBallots, abortBallotsFor.
  rewrite fillAbortBallots_spec by (rewrite length_replicate; lia).
  by rewrite take_0.
Qed.

Lemma TxnReceived_accept sender txn pm :
  proposers pm !! txnreader.Id txn = None →
  acceptTxn sender txn pm = true →
  ∃ p, isProposerFor txn ProposerActiveVoter pm p
    ∧ TxnReceived sender txn pm
      = Ok (startProposer (txnreader.Id txn) p
              (setProposer (txnreader.Id txn) p (allocOid pm).2)).
Proof.
  intros Hnone Haccept. unfold TxnReceived. rewrite Hnone, Haccept. simpl.
  eexists. split; [|done]. done.
Qed.

Lemma TxnReceived_reject sender txn pm alloc :
  proposers pm !! txnreader.Id txn = None →
  acceptTxn sender txn pm = false →
  1 ≤ Msgs.FInc (txnreader.Txn txn) →
  AllocForRMId (txnreader.Txn txn) (RMId pm) = Some alloc →
  let pm1 := NewPaxosProposals txn (Msgs.FInc (txnreader.Txn txn))
               (abortBallotsFor txn alloc) (quorumOf (txnreader.Txn txn))
               (RMId pm) true pm in
  ∃ p, isProposerFor txn ProposerActiveLearner pm p
    ∧ proposerOid p = nextOid pm1
    ∧ TxnReceived sender txn pm
      = Ok (startProposer (txnreader.Id txn) p
              (setProposer (txnreader.Id txn) p (allocOid pm1).2)).
Proof.
  intros Hnone Hreject HfInc Halloc pm1. unfold TxnReceived.
  rewrite Hnone, Hreject, GetAcceptorsFromTxn_ok by done. simpl.
  rewrite Halloc, MakeAbortBallots_Some. simpl. fold (quorumOf (txnreader.Txn txn)).
  fold pm1.
  assert (topology pm1 = topology pm ∧ RMId pm1 = RMId pm) as [Htopo Hrm].
  { unfold pm1, NewPaxosProposals. by destruct (proposals pm !! _). }
  eexists. split; [|split; [|reflexivity]]; [|done].
  split_and!; simpl; done.
Qed.

Lemma TxnReceived_reject_mode sender txn pm pm' p :
  proposers pm !! txnreader.Id txn = None →
  acceptTxn sender txn pm = false →
  TxnReceived sender txn pm = Ok pm' →
  proposers pm' !! txnreader.Id txn = Some p →
  proposerMode p = ProposerActiveLearner.
Proof.
  intros Hnone Hreject. unfold TxnReceived. rewrite Hnone, Hreject.
  destruct (GetAcceptorsFromTxn _) as [acceptors|]; simpl; [|done].
  destruct (MakeAbortBallots _ _) as [ballots|]; simpl; [|done].
  intros [= <-]. simpl. rewrite lookup_insert_eq. by intros [= <-].
Qed.

Lemma accepted_acceptTxn sender txn pm :
  proposers pm !! txnreader.Id txn = None →
  accepted sender txn pm ↔ acceptTxn sender txn pm = true.
Proof.
  intros Hnone. split.
  - intros (pm' & p & Hrun & Hp & Hmode).
    destruct (acceptTxn sender txn pm) eqn:Haccept; [done|].
    by rewrite (TxnReceived_reject_mode _ _ _ _ _ Hnone Haccept Hrun Hp) in Hmode.
  - intros Haccept.
    destruct (TxnReceived_accept _ _ _ Hnone Haccept) as (p & Hp & Hrun).
    eexists _, p. split; [exact Hrun|]. simpl. rewrite lookup_insert_eq.
    split; [done|]. apply Hp.
Qed.

(** C1, as the code has it. With no Proposer stored for the TxnId,
    [TxnReceived] accepts the transaction (stores an ActiveVoter
    Proposer) exactly when the stored topology is nil, or the txn's
    topology version is the current version while the topology has no
    next one, or the version of the next topology once it has one, and
    the sender is not in RMsRemoved, and this RM's allocation has an
    active boot count equal to the manager's BootCount; in every other
    case a call that returns leaves an ActiveLearner. *)
Theorem TxnReceived_accepts_iff sender txn pm :
  proposers pm !! txnreader.Id txn = None →
  (accepted sender txn pm ↔ admissible versionAdmitted sender txn pm)
  ∧ (¬ admissible versionAdmitted sender txn pm →
     ∀ pm', TxnReceived sender txn pm = Ok pm' →
       ∃ p, proposers pm' !! txnreader.Id txn = Some p
            ∧ proposerMode p = ProposerActiveLearner).
Proof.
  intros Hnone. split.
  - rewrite accepted_acceptTxn by done. apply acceptTxn_admissible.
  - intros Hno pm' Hrun.
    assert (acceptTxn sender txn pm = false) as Hreject.
    { destruct (acceptTxn sender txn pm) eqn:Haccept; [|done].
      by apply acceptTxn_admissible in Haccept. }
    pose proof Hrun as Hrun'. unfold TxnReceived in Hrun'.
    rewrite Hnone, Hreject in Hrun'.
    destruct (GetAcceptorsFromTxn _) as [acceptors|]; simpl in Hrun'; [|done].
    destruct (MakeAbortBallots _ _) as [ballots|]; simpl in Hrun'; [|done].
    injection Hrun' as <-. eexists. simpl. rewrite lookup_insert_eq.
    split; [done|]. done.
Qed.

Lemma TxnReceived_accepts_iff_witness :
  proposers pmV3 !! txnreader.Id (txnFor 7) = None
  ∧ (accepted 2 (txnFor 7) pmV3 ↔ admissible versionAdmitted 2 (txnFor 7) pmV3).
Proof.
  split; [reflexivity|].
  apply (TxnReceived_accepts_iff 2 (txnFor 7) pmV3). reflexivity.
Defined.

(** C1 as stated fails: while a next topology (version 4) is known, a
    transaction at the current version 3, from a sender that was not
    removed and with a matching boot count, is not accepted. *)
Lemma TxnReceived_current_version_not_accepted :
  proposers pmV3Next4 !! txnreader.Id (txnFor 7) = None
  ∧ admissible versionCurrentOrNext 2 (txnFor 7) pmV3Next4
  ∧ ¬ accepted 2 (txnFor 7) pmV3Next4.
Proof.
  split; [reflexivity|]. split.
  - right. exists topologyV3Next4. split; [reflexivity|].
    split; [by left|]. split; [set_solver|].
    eexists. split; reflexivity.
  - rewrite accepted_acceptTxn by reflexivity. by vm_compute.
Qed.

(** ** Rejection and late outcomes *)

Lemma NewPaxosProposals_cases txn fInc ballots acceptors rmId skip pm :
  let key := instanceId (txnreader.Id txn) rmId in
  let pm1 := NewPaxosProposals txn fInc ballots acceptors rmId skip pm in
  RMId pm1 = RMId pm ∧ BootCount pm1 = BootCount pm
  ∧ topology pm1 = topology pm ∧ proposers pm1 = proposers pm
  ∧ liveProposers pm1 = liveProposers pm
  ∧ match proposals pm !! key with
    | None =>
        let q := {| proposalOid := nextOid pm; proposalTxn := txn;
                    proposalFInc := fInc; proposalBallots := ballots;
                    instanceRMId := rmId; proposalAcceptors := acceptors;
                    skipPhase1 := skip |} in
        proposals pm1 = <[key := q]> (proposals pm)
        ∧ liveProposals pm1 = (key, q) :: liveProposals pm
        ∧ effects pm1 = effects pm ++ [ProposalStart q]
        ∧ nextOid pm1 = S (nextOid pm)
    | Some _ => pm1 = pm
    end.
Proof.
  intros key pm1. unfold pm1, NewPaxosProposals. fold key.
  destruct (proposals pm !! key); simpl; done.
Qed.

(** X1. When [TxnReceived] rejects a transaction
    that has no Proposer yet, has fInc at least one and allocates this
    RM, it builds one AbortDeadlock ballot per action index of this RM's
    allocation (in order, each for the variable of that action), stores
    and starts an ActiveLearner Proposer for the TxnId, and, unless a
    proposal is already stored for (TxnId, own RM id), stores and starts
    a new proposal for that instance with skipPhase1 = true, those
    ballots and the acceptors of the txn; a proposal already stored is
    left as it is and no proposal is started. *)
Theorem TxnReceived_reject_aborts sender txn pm alloc :
  proposers pm !! txnreader.Id txn = None →
  ¬ admissible versionAdmitted sender txn pm →
  1 ≤ Msgs.FInc (txnreader.Txn txn) →
  AllocForRMId (txnreader.Txn txn) (RMId pm) = Some alloc →
  let key := instanceId (txnreader.Id txn) (RMId pm) in
  ∃ pm' p,
    TxnReceived sender txn pm = Ok pm'
    ∧ isProposerFor txn ProposerActiveLearner pm p
    ∧ proposers pm' = <[txnreader.Id txn := p]> (proposers pm)
    ∧ match proposals pm !! key with
      | None =>
          ∃ q, isAbortProposal txn alloc (RMId pm) true q
               ∧ proposals pm' = <[key := q]> (proposals pm)
               ∧ effects pm' = effects pm ++ [ProposalStart q; ProposerStart p]
      | Some _ =>
          proposals pm' = proposals pm
          ∧ effects pm' = effects pm ++ [ProposerStart p]
      end.
Proof.
  intros Hnone Hno HfInc Halloc key.
  assert (acceptTxn sender txn pm = false) as Hreject.
  { destruct (acceptTxn sender txn pm) eqn:Haccept; [|done].
    by apply acceptTxn_admissible in Haccept. }
  destruct (TxnReceived_reject _ _ _ _ Hnone Hreject HfInc Halloc)
    as (p & Hp & _ & Hrun).
  pose proof (NewPaxosProposals_cases txn (Msgs.FInc (txnreader.Txn txn))
                (abortBallotsFor txn alloc) (quorumOf (txnreader.Txn txn))
                (RMId pm) true pm) as Hcases.
  simpl in Hcases. fold key in Hcases.
  destruct Hcases as (_ & _ & _ & Hproposers & _ & Hproposals).
  eexists _, p. split; [exact Hrun|]. split; [exact Hp|]. simpl.
  split; [by rewrite Hproposers|].
  destruct (proposals pm !! key) as [q0|].
  - by rewrite Hproposals.
  - destruct Hproposals as (Hmap & _ & Heff & _).
    eexists. split; [|split; [exact Hmap|]].
    + by split_and!.
    + by rewrite Heff, <- app_assoc.
Qed.

Lemma TxnReceived_reject_aborts_witness :
  ∃ pm' p,
    TxnReceived 2 (txnFor 5) pmV3 = Ok pm'
    ∧ proposers pm' !! T1 = Some p
    ∧ proposerMode p = ProposerActiveLearner.
Proof.
  assert (¬ admissible versionAdmitted 2 (txnFor 5) pmV3) as Hno.
  { intros Hyes. apply acceptTxn_admissible in Hyes. by vm_compute in Hyes. }
  destruct (TxnReceived_reject_aborts 2 (txnFor 5) pmV3
              {| Msgs.RmId := 1; Msgs.Active := 5; Msgs.ActionIndices := [0; 1] |})
    as (pm' & p & Hrun & Hp & Hmap & _); [reflexivity|exact Hno|simpl; lia|reflexivity|].
  exists pm', p. split; [exact Hrun|]. rewrite Hmap.
  split; [apply lookup_insert_eq|apply Hp].
Defined.

(** The stored proposal wins: a rejected body for which this RM already runs
    a proposal (opened without skipping phase 1 when an outcome came in
    first) starts no proposal; the stored one stays, with
    skipPhase1 = false. *)
Lemma TxnReceived_reject_keeps_stored_proposal :
  let pm := stateAfter afterLateOutcome pmV3 in
  let pm' := stateAfter [OpTxnReceived 2 (txnFor 5)] pm in
  run afterLateOutcome pmV3 = Ok pm
  ∧ proposers pm !! T1 = None
  ∧ ¬ admissible versionAdmitted 2 (txnFor 5) pm
  ∧ TxnReceived 2 (txnFor 5) pm = Ok pm'
  ∧ ¬ startsProposal true (txnFor 5) pm pm'.
Proof.
  split; [by vm_compute|]. split; [by vm_compute|]. split.
  - intros Hyes. apply acceptTxn_admissible in Hyes. by vm_compute in Hyes.
  - split; [by vm_compute|].
    intros (q & Hin & _). vm_compute in Hin.
    by apply list_elem_of_singleton in Hin.
Qed.

(** X2. A 2B outcome for a TxnId without Proposer,
    for a transaction that allocates this RM: with Active > 0 (and fInc
    at least one) the manager stores and starts an ActiveLearner
    Proposer and hands it the outcome, after storing and starting a new
    abort proposal for (TxnId, own RM id) with skipPhase1 = false unless
    one is stored already, which is then left as it is; with
    Active = 0 and a Commit outcome it stores and starts a
    PassiveLearner Proposer and hands it the outcome; with Active = 0
    and an abort it leaves both maps alone and only sends one
    TxnLocallyComplete to the sender through a one-shot sender. *)
Theorem TwoBTxnVotesReceived_unknown_txn sender txnId txn outcome pm alloc :
  proposers pm !! txnId = None →
  AllocForRMId (txnreader.Txn txn) (RMId pm) = Some alloc →
  let key := instanceId (txnreader.Id txn) (RMId pm) in
  let received := TwoBTxnVotesReceived sender txnId txn (TWOBTXNVOTES_OUTCOME outcome) pm in
  (0 < Msgs.Active alloc → 1 ≤ Msgs.FInc (txnreader.Txn txn) →
   ∃ pm' p,
     received = Ok pm'
     ∧ isProposerFor txn ProposerActiveLearner pm p
     ∧ proposers pm' = <[txnId := p]> (proposers pm)
     ∧ match proposals pm !! key with
       | None =>
           ∃ q, isAbortProposal txn alloc (RMId pm) false q
                ∧ proposals pm' = <[key := q]> (proposals pm)
                ∧ effects pm' = effects pm
                    ++ [ProposalStart q; ProposerStart p;
                        ProposerBallotOutcomeReceived p sender outcome]
       | Some _ =>
           proposals pm' = proposals pm
           ∧ effects pm' = effects pm
               ++ [ProposerStart p; ProposerBallotOutcomeReceived p sender outcome]
       end)
  ∧ (Msgs.Active alloc = 0 → (∃ clock, outcome = Msgs.OUTCOME_COMMIT clock) →
     ∃ pm' p,
       received = Ok pm'
       ∧ isProposerFor txn ProposerPassiveLearner pm p
       ∧ proposers pm' = <[txnId := p]> (proposers pm)
       ∧ proposals pm' = proposals pm
       ∧ effects pm' = effects pm
           ++ [ProposerStart p; ProposerBallotOutcomeReceived p sender outcome])
  ∧ (Msgs.Active alloc = 0 → outcome = Msgs.OUTCOME_ABORT →
     ∃ pm',
       received = Ok pm'
       ∧ proposers pm' = proposers pm
       ∧ proposals pm' = proposals pm
       ∧ effects pm' = effects pm
           ++ [NewOneShotSender (TxnLocallyCompleteMsg txnId) sender]).
Proof.
  intros Hnone Halloc key received. unfold received, TwoBTxnVotesReceived.
  rewrite Hnone, Halloc. split; [|split].
  - intros Hactive HfInc. case_decide; [|lia].
    rewrite GetAcceptorsFromTxn_ok, MakeAbortBallots_Some by done. simpl.
    fold (quorumOf (txnreader.Txn txn)).
    pose proof (NewPaxosProposals_cases txn (Msgs.FInc (txnreader.Txn txn))
                  (abortBallotsFor txn alloc) (quorumOf (txnreader.Txn txn))
                  (RMId pm) false pm) as Hcases.
    simpl in Hcases. fold key in Hcases.
    set (pm1 := NewPaxosProposals _ _ _ _ _ _ _) in *.
    destruct Hcases as (_ & _ & Htopo & Hproposers & _ & Hproposals).
    eexists _, {| proposerOid := nextOid pm1; proposerTxnId := txnreader.Id txn;
                  proposerTxn := Some txn; proposerMode := ProposerActiveLearner;
                  proposerTopology := topology pm1 |}.
    split; [reflexivity|]. simpl.
    split; [by split_and!|]. split; [by rewrite Hproposers|].
    destruct (proposals pm !! key) as [q0|].
    + rewrite Hproposals. by rewrite <- app_assoc.
    + destruct Hproposals as (Hmap & _ & Heff & _).
      eexists. split; [|split; [exact Hmap|]].
      * by split_and!.
      * by rewrite Heff, <- !app_assoc.
  - intros Hactive [clock ->]. case_decide; [done|]. simpl.
    eexists _, {| proposerOid := nextOid pm; proposerTxnId := txnreader.Id txn;
                  proposerTxn := Some txn; proposerMode := ProposerPassiveLearner;
                  proposerTopology := topology pm |}.
    split; [reflexivity|]. simpl.
    split; [by split_and!|]. split_and!; [done..|by rewrite <- app_assoc].
  - intros Hactive ->. case_decide; [done|]. simpl.
    eexists. split; [reflexivity|]. done.
Qed.

Lemma TwoBTxnVotesReceived_unknown_txn_witness :
  ∃ pm' p,
    TwoBTxnVotesReceived 2 T1 (txnFor 5) (TWOBTXNVOTES_OUTCOME commitOutcome) pmV3
    = Ok pm'
    ∧ proposers pm' !! T1 = Some p
    ∧ proposerMode p = ProposerActiveLearner.
Proof.
  destruct (TwoBTxnVotesReceived_unknown_txn 2 T1 (txnFor 5) commitOutcome pmV3
              {| Msgs.RmId := 1; Msgs.Active := 5; Msgs.ActionIndices := [0; 1] |})
    as [Hactive _]; [reflexivity|reflexivity|].
  destruct Hactive as (pm' & p & Hrun & Hp & Hmap & _); [simpl; lia|simpl; lia|].
  exists pm', p. split; [exact Hrun|]. rewrite Hmap.
  split; [apply lookup_insert_eq|apply Hp].
Defined.

(** The stored proposal wins: an outcome for a TxnId without Proposer, while
    this RM still runs the proposal it opened (skipping phase 1) when it
    rejected the body, starts no proposal; the stored one stays. *)
Lemma TwoBTxnVotesReceived_keeps_stored_proposal :
  let pm := stateAfter afterRejectedBody pmV3 in
  let pm' := stateAfter
               [OpTwoBTxnVotesReceived 2 T1 (txnFor 5) (TWOBTXNVOTES_OUTCOME commitOutcome)]
               pm in
  run afterRejectedBody pmV3 = Ok pm
  ∧ proposers pm !! T1 = None
  ∧ (∃ alloc, AllocForRMId (txnreader.Txn (txnFor 5)) (RMId pm) = Some alloc
              ∧ 0 < Msgs.Active alloc)
  ∧ TwoBTxnVotesReceived 2 T1 (txnFor 5) (TWOBTXNVOTES_OUTCOME commitOutcome) pm
    = Ok pm'
  ∧ ¬ startsProposal false (txnFor 5) pm pm'.
Proof.
  split; [by vm_compute|]. split; [by vm_compute|]. split.
  - eexists. split; [by vm_compute|]. simpl. lia.
  - split; [by vm_compute|].
    intros (q & Hin & _). vm_compute in Hin.
    apply elem_of_cons in Hin as [Hin|Hin]; [done|].
    by apply list_elem_of_singleton in Hin.
Qed.

(** X3. In the Outcome branch with no Proposer stored, the call faults
    on a nil allocation exactly when no allocation of the transaction
    names this RM, which is exactly when [AllocForRMId] returns nil; so
    it is free of that fault only for outcomes of transactions that
    allocate this RM. *)
Theorem TwoBTxnVotesReceived_nil_allocation sender txnId txn outcome pm :
  proposers pm !! txnId = None →
  (TwoBTxnVotesReceived sender txnId txn (TWOBTXNVOTES_OUTCOME outcome) pm
   = Fault NilDereference
   ↔ AllocForRMId (txnreader.Txn txn) (RMId pm) = None)
  ∧ (AllocForRMId (txnreader.Txn txn) (RMId pm) = None
     ↔ ∀ alloc, alloc ∈ Msgs.Allocations (txnreader.Txn txn) →
                Msgs.RmId alloc ≠ RMId pm).
Proof.
  intros Hnone. split; [|apply AllocForRMId_from_None].
  unfold TwoBTxnVotesReceived. rewrite Hnone.
  destruct (AllocForRMId _ _) as [alloc|]; [|done].
  split; [|done]. case_decide.
  - unfold GetAcceptorsFromTxn. case_decide; [done|].
    destruct (fillAcceptors _ _ _ _). simpl. done.
  - by destruct outcome.
Qed.

Lemma TwoBTxnVotesReceived_nil_allocation_witness :
  proposers pmV3 !! T1 = None
  ∧ TwoBTxnVotesReceived 2 T1 txnElsewhere (TWOBTXNVOTES_OUTCOME commitOutcome) pmV3
    = Fault NilDereference.
Proof.
  split; [reflexivity|].
  apply (TwoBTxnVotesReceived_nil_allocation 2 T1 txnElsewhere commitOutcome pmV3);
    reflexivity.
Defined.

(** ** The two maps *)

Section Tracks.
Context {V : Type}.
Implicit Types (live : list (list Z * V)) (m : gmap (list Z) V).

Lemma tracks_insert live m k v :
  m !! k = None → tracks live m → tracks ((k, v) :: live) (<[k := v]> m).
Proof.
  intros Hnone [Hnodup Hin]. split.
  - simpl. apply NoDup_cons. split; [|done].
    intros ((k' & v') & Hk & Hlive)%list_elem_of_fmap. simpl in Hk. subst k'.
    apply Hin in Hlive. congruence.
  - intros k' v'. rewrite elem_of_cons, lookup_insert_Some, Hin. split.
    + intros [[= -> ->]|Hm]; [by left|]. right. split; [congruence|done].
    + intros [[-> ->]|[_ Hm]]; [by left|by right].
Qed.

Lemma tracks_delete live m k :
  tracks live m → tracks (filter (λ kv, kv.1 ≠ k) live) (delete k m).
Proof.
  intros [Hnodup Hin]. split.
  - eapply sublist_NoDup; [exact Hnodup|]. f_equiv. apply sublist_filter.
  - intros k' v'. rewrite list_elem_of_filter, lookup_delete_Some, Hin. simpl.
    split; intros [? ?]; done.
Qed.

Lemma filter_key_absent live k :
  k ∉ live.*1 → filter (λ kv, kv.1 = k) live = [].
Proof.
  induction live as [|[k' v'] live IH]; intros Hnotin; [done|].
  rewrite filter_cons. simpl in *. apply not_elem_of_cons in Hnotin as [Hne Hnotin].
  rewrite decide_False by done. by apply IH.
Qed.

Lemma tracks_at_most_one live m k :
  tracks live m → (length (filter (λ kv, kv.1 = k) live) ≤ 1)%nat.
Proof.
  intros [Hnodup _]. induction live as [|[k' v'] live IH]; simpl; [lia|].
  apply NoDup_cons in Hnodup as [Hnotin Hnodup].
  rewrite filter_cons. simpl. case_decide as Hk; [|by apply IH].
  subst k'. rewrite filter_key_absent by done. simpl. lia.
Qed.

End Tracks.

Lemma filter_length_mono {A} (P Q : A → Prop) `{!∀ x, Decision (P x)}
    `{!∀ x, Decision (Q x)} (l : list A) :
  (∀ x, x ∈ l → P x → Q x) →
  (length (filter P l) ≤ length (filter Q l))%nat.
Proof.
  induction l as [|x l IH]; intros Himp; [done|].
  rewrite !filter_cons.
  assert (length (filter P l) ≤ length (filter Q l))%nat as Hle.
  { apply IH. intros y Hy. apply Himp. by right. }
  destruct (decide (P x)) as [HP|HP].
  - rewrite decide_True by (apply Himp; [left|done]). simpl. lia.
  - destruct (decide (Q x)); simpl; lia.
Qed.

Lemma coherent_at_most_one pm :
  coherent pm → atMostOneProposer pm ∧ atMostOneProposal pm.
Proof.
  intros (Hproposers & Hproposals & Hkeyed). split.
  - intros txnId. by eapply tracks_at_most_one.
  - intros txnId rmId.
    etrans; [|apply (tracks_at_most_one _ _ (instanceId txnId rmId) Hproposals)].
    apply filter_length_mono. intros [k q] Hin [Hid Hrm]. simpl in *.
    rewrite (Hkeyed k q Hin). by rewrite Hid, Hrm.
Qed.

Lemma coherent_NewProposerManager rmId bootCount :
  coherent (NewProposerManager rmId bootCount).
Proof.
  split_and!; simpl.
  - split; [constructor|]. intros k v. rewrite lookup_empty. split; [|done].
    by intros ?%elem_of_nil.
  - split; [constructor|]. intros k v. rewrite lookup_empty. split; [|done].
    by intros ?%elem_of_nil.
  - intros k q ?%elem_of_nil. done.
Qed.

Lemma grow_coherent pm pm' : grow pm pm' → coherent pm → coherent pm'.
Proof.
  intros Hev (Hproposers & Hproposals & Hkeyed).
  destruct Hev as [pm pm' E1 E2 E3 E4|pm pm' k p Hnone E1 E2 E3 E4
                  |pm pm' k q Hnone Hkey E1 E2 E3 E4];
    unfold coherent; rewrite E1, E2, E3, E4.
  - done.
  - split_and!; [by apply tracks_insert|done..].
  - split_and!; [done|by apply tracks_insert|].
    intros k' q' [[= -> ->]|Hin]%elem_of_cons; [done|by apply Hkeyed].
Qed.

Lemma shrink_coherent pm pm' : shrink pm pm' → coherent pm → coherent pm'.
Proof.
  intros Hev (Hproposers & Hproposals & Hkeyed).
  destruct Hev as [pm pm' E1 E2 E3 E4|pm pm' k E1 E2 E3 E4|pm pm' k E1 E2 E3 E4];
    unfold coherent; rewrite E1, E2, E3, E4.
  - done.
  - split_and!; [by apply tracks_delete|done..].
  - split_and!; [done|by apply tracks_delete|].
    intros k' q' [_ Hin]%list_elem_of_filter. by apply Hkeyed.
Qed.

Lemma grows_coherent pm pm' : rtc grow pm pm' → coherent pm → coherent pm'.
Proof. induction 1; eauto using grow_coherent. Qed.

Lemma shrinks_coherent pm pm' : rtc shrink pm pm' → coherent pm → coherent pm'.
Proof. induction 1; eauto using shrink_coherent. Qed.

Lemma grows_subseteq pm pm' :
  rtc grow pm pm' →
  proposers pm ⊆ proposers pm' ∧ proposals pm ⊆ proposals pm'.
Proof.
  induction 1 as [pm|pm pm1 pm2 Hstep _ [IH1 IH2]]; [done|].
  destruct Hstep as [pm pm' E1 E2 E3 E4|pm pm' k p Hnone E1 E2 E3 E4
                    |pm pm' k q Hnone Hkey E1 E2 E3 E4];
    rewrite E1 in IH1; rewrite E2 in IH2.
  - done.
  - split; [|done]. etrans; [|exact IH1]. by apply insert_subseteq.
  - split; [done|]. etrans; [|exact IH2]. by apply insert_subseteq.
Qed.

Lemma shrinks_subseteq pm pm' :
  rtc shrink pm pm' →
  proposers pm' ⊆ proposers pm ∧ proposals pm' ⊆ proposals pm.
Proof.
  induction 1 as [pm|pm pm1 pm2 Hstep _ [IH1 IH2]]; [done|].
  destruct Hstep as [pm pm' E1 E2 E3 E4|pm pm' k E1 E2 E3 E4|pm pm' k E1 E2 E3 E4];
    rewrite E1 in IH1; rewrite E2 in IH2.
  - done.
  - split; [|done]. etrans; [exact IH1|]. apply delete_subseteq.
  - split; [done|]. etrans; [exact IH2|]. apply delete_subseteq.
Qed.

Lemma subseteq_never_overwrites {V} (m m' : gmap (list Z) V) k v :
  m ⊆ m' ∨ m' ⊆ m → m !! k = Some v → m' !! k = Some v ∨ m' !! k = None.
Proof.
  intros [Hsub|Hsub] Hm.
  - left. by eapply lookup_weaken.
  - destruct (m' !! k) as [v'|] eqn:Hm'; [|by right]. left.
    eapply lookup_weaken in Hm'; [|exact Hsub]. congruence.
Qed.

Lemma foldl_emit_fields {A} (f : A → Effect) (l : list A) : ∀ pm,
  let pm' := foldl (λ pm x, emit (f x) pm) pm l in
  proposers pm' = proposers pm ∧ proposals pm' = proposals pm
  ∧ liveProposers pm' = liveProposers pm ∧ liveProposals pm' = liveProposals pm.
Proof.
  induction l as [|x l IH]; intros pm; [done|]. simpl.
  destruct (IH (emit (f x) pm)) as (-> & -> & -> & ->). done.
Qed.

Lemma TopologyChangedTask_grow topo pm : grow pm (TopologyChangedTask topo pm).
Proof.
  unfold TopologyChangedTask.
  destruct (foldl_emit_fields (λ kp : list Z * Proposer, ProposerTopologyChange kp.2 topo)
              (map_to_list (proposers (setTopology topo pm))) (setTopology topo pm))
    as (? & ? & ? & ?).
  by apply grow_none.
Qed.

Lemma NewPaxosProposals_grows txn fInc ballots acceptors rmId skip pm :
  grow pm (NewPaxosProposals txn fInc ballots acceptors rmId skip pm).
Proof.
  pose proof (NewPaxosProposals_cases txn fInc ballots acceptors rmId skip pm)
    as Hcases. simpl in Hcases.
  destruct Hcases as (_ & _ & _ & Hproposers & Hlive & Hproposals).
  destruct (proposals pm !! instanceId (txnreader.Id txn) rmId) eqn:Hkey.
  - rewrite Hproposals. by apply grow_none.
  - destruct Hproposals as (Hmap & Hlive' & _ & _).
    eapply grow_proposal; [exact Hkey|..|exact Hlive']; done.
Qed.

Lemma install_proposer_grows k p pm pm1 :
  proposers pm !! k = None →
  grow pm pm1 → proposers pm1 = proposers pm →
  rtc grow pm (startProposer k p (setProposer k p (allocOid pm1).2)).
Proof.
  intros Hnone Hgrow Hsame. eapply rtc_l; [exact Hgrow|]. apply rtc_once.
  eapply grow_proposer; simpl; [|done..]. by rewrite Hsame.
Qed.

Lemma grow_emit e pm : grow pm (emit e pm).
Proof. by apply grow_none. Qed.

Lemma TxnReceived_grows sender txn pm pm' :
  TxnReceived sender txn pm = Ok pm' → rtc grow pm pm'.
Proof.
  unfold TxnReceived.
  destruct (proposers pm !! txnreader.Id txn) eqn:Hnone; [by intros [= <-]|].
  destruct (acceptTxn sender txn pm).
  - simpl. intros [= <-].
    apply (install_proposer_grows _ _ pm pm); [done|by apply grow_none|done].
  - destruct (GetAcceptorsFromTxn _) as [acceptors|]; simpl; [|done].
    destruct (MakeAbortBallots _ _) as [ballots|]; simpl; [|done].
    intros [= <-].
    apply (install_proposer_grows _ _ pm); [done|apply NewPaxosProposals_grows|].
    apply NewPaxosProposals_cases.
Qed.

Lemma TwoBTxnVotesReceived_grows sender txnId txn twoB pm pm' :
  TwoBTxnVotesReceived sender txnId txn twoB pm = Ok pm' → rtc grow pm pm'.
Proof.
  unfold TwoBTxnVotesReceived. destruct twoB as [rmId|outcome|which]; [| |done].
  - destruct (proposals pm !! _); intros [= <-]; [|done].
    apply rtc_once. by apply grow_none.
  - destruct (proposers pm !! txnId) eqn:Hnone.
    { intros [= <-]. apply rtc_once. by apply grow_none. }
    destruct (AllocForRMId _ _) as [alloc|]; [|done].
    case_decide.
    + destruct (GetAcceptorsFromTxn _) as [acceptors|]; simpl; [|done].
      intros [= <-].
      eapply rtc_r; [|apply grow_emit].
      apply (install_proposer_grows _ _ pm); [done|apply NewPaxosProposals_grows|].
      apply NewPaxosProposals_cases.
    + destruct outcome; intros [= <-].
      * eapply rtc_r; [|apply grow_emit].
        apply (install_proposer_grows _ _ pm pm); [done|by apply grow_none|done].
      * apply rtc_once. by apply grow_none.
Qed.

Lemma shrink_finishProposal k q pm : shrink pm (finishProposal k q pm).
Proof. by apply (shrink_proposal _ _ k). Qed.

Lemma FinishProposers_shrinks txnId abortInstances pm :
  rtc shrink pm (FinishProposers txnId abortInstances pm).
Proof.
  unfold FinishProposers. destruct (proposals pm !! _) as [prop|]; [|done].
  apply (rtc_l _ _ (finishProposal (instanceId txnId (RMId pm)) prop pm));
    [apply shrink_finishProposal|].
  generalize (finishProposal (instanceId txnId (RMId pm)) prop pm). clear pm prop.
  induction abortInstances as [|rmId rest IH]; intros pm; [done|]. simpl.
  destruct (proposals pm !! instanceId txnId rmId) as [prop|]; [|apply IH].
  apply (rtc_l _ _ (finishProposal (instanceId txnId rmId) prop pm));
    [apply shrink_finishProposal|apply IH].
Qed.

Lemma step_grows_or_shrinks op pm pm' :
  step op pm = Ok pm' → rtc grow pm pm' ∨ rtc shrink pm pm'.
Proof.
  destruct op; simpl.
  - unfold loadFromData. destruct (proposers pm !! txnId) eqn:Hnone.
    { intros [= <-]. by left. }
    destruct decoded as [mode|]; intros [= <-]; [|by left]. left.
    apply (install_proposer_grows _ _ pm pm); [done|by apply grow_none|done].
  - intros [= <-]. left. apply rtc_once, TopologyChangedTask_grow.
  - intros [= <-]. left. apply rtc_once. by apply grow_none.
  - intros Hrun. left. by eapply TxnReceived_grows.
  - intros [= <-]. left. apply rtc_once, NewPaxosProposals_grows.
  - intros [= <-]. left. apply rtc_once. unfold AddToPaxosProposals.
    destruct (proposals pm !! _); by apply grow_none.
  - intros [= <-]. left. unfold OneBTxnVotesReceived.
    destruct (proposals pm !! _); [|done]. apply rtc_once. by apply grow_none.
  - intros Hrun. left. by eapply TwoBTxnVotesReceived_grows.
  - intros [= <-]. left. unfold TxnGloballyCompleteReceived.
    destruct (proposers pm !! _); [|done]. apply rtc_once. by apply grow_none.
  - intros [= <-]. left. unfold TxnSubmissionAbortReceived.
    destruct (proposers pm !! _); [|done]. apply rtc_once. by apply grow_none.
  - intros [= <-]. right. apply rtc_once. by apply (shrink_proposer _ _ txnId).
  - intros [= <-]. right. apply FinishProposers_shrinks.
Qed.

Lemma step_coherent op pm pm' :
  coherent pm → step op pm = Ok pm' → coherent pm'.
Proof.
  intros Hcoh [Hgrow|Hshrink]%step_grows_or_shrinks.
  - by eapply grows_coherent.
  - by eapply shrinks_coherent.
Qed.

(** Every state the manager reaches from its creation is coherent. *)
Lemma run_coherent ops : ∀ pm pm',
  coherent pm → run ops pm = Ok pm' → coherent pm'.
Proof.
  induction ops as [|op rest IH]; intros pm pm' Hcoh; simpl.
  - by intros [= <-].
  - destruct (step op pm) as [pm1|] eqn:Hstep; simpl; [|done].
    apply IH. by eapply step_coherent.
Qed.

(** X4. Every operation of the manager, run in a state where the
    Proposers and proposals that are running are the ones the maps hold,
    leaves such a state, in which at most one Proposer runs per TxnId
    and at most one proposal per (TxnId, RM id); and no entry that was
    in a map is replaced: it is still there or it is gone. *)
Theorem step_preserves_map_invariants op pm pm' :
  coherent pm →
  step op pm = Ok pm' →
  coherent pm' ∧ atMostOneProposer pm' ∧ atMostOneProposal pm'
  ∧ neverOverwrites pm pm'.
Proof.
  intros Hcoh Hstep.
  assert (coherent pm') as Hcoh' by by eapply step_coherent.
  split; [done|]. destruct (coherent_at_most_one _ Hcoh') as [? ?].
  split; [done|]. split; [done|].
  assert ((proposers pm ⊆ proposers pm' ∨ proposers pm' ⊆ proposers pm)
          ∧ (proposals pm ⊆ proposals pm' ∨ proposals pm' ⊆ proposals pm))
    as [Hproposers Hproposals].
  { destruct (step_grows_or_shrinks _ _ _ Hstep) as [Hg|Hs].
    - destruct (grows_subseteq _ _ Hg). split; by left.
    - destruct (shrinks_subseteq _ _ Hs). split; by right. }
  split; intros k v; by apply subseteq_never_overwrites.
Qed.

Lemma step_preserves_map_invariants_witness :
  ∃ pm', step (OpTxnReceived 2 (txnFor 5)) pmV3 = Ok pm'
         ∧ atMostOneProposer pm' ∧ atMostOneProposal pm'.
Proof.
  destruct (TxnReceived 2 (txnFor 5) pmV3) as [pm'|] eqn:Hrun; [|by vm_compute in Hrun].
  exists pm'. split; [exact Hrun|].
  destruct (step_preserves_map_invariants (OpTxnReceived 2 (txnFor 5)) pmV3 pm')
    as (_ & ? & ? & _); [apply (coherent_NewProposerManager 1 7)|exact Hrun|done].
Defined.

(** ** Instance ids *)

Lemma byte_of v k : 0 ≤ k → Z.land (Z.shiftr v k) 255 = (v / 2 ^ k) mod 256.
Proof.
  intros Hk. change 255 with (Z.ones 8). rewrite Z.land_ones by lia.
  by rewrite Z.shiftr_div_pow2.
Qed.

(** The four bytes [binary.BigEndian.PutUint32] writes are the base-256
    digits of the value taken modulo 2^32, most significant first. *)
Lemma BigEndianPutUint32_value v :
  ∃ b3 b2 b1 b0, BigEndianPutUint32 v = [b3; b2; b1; b0]
    ∧ 0 ≤ b3 < 256 ∧ 0 ≤ b2 < 256 ∧ 0 ≤ b1 < 256 ∧ 0 ≤ b0 < 256
    ∧ v mod 2 ^ 32 = b3 * 2 ^ 24 + b2 * 2 ^ 16 + b1 * 2 ^ 8 + b0.
Proof.
  unfold BigEndianPutUint32. rewrite !byte_of by lia.
  replace (Z.land v 255) with ((v / 2 ^ 0) mod 256)
    by (rewrite <- byte_of by lia; by rewrite Z.shiftr_0_r).
  eexists _, _, _, _. split; [done|].
  change (2 ^ 0) with 1. change (2 ^ 8) with 256. change (2 ^ 16) with 65536.
  change (2 ^ 24) with 16777216. change (2 ^ 32) with 4294967296.
  Z.to_euclidean_division_equations. lia.
Qed.

(** X5. The key of the proposals map tells the transaction and the RM
    apart: for TxnIds of one length (they are arrays of [KeyLen] bytes)
    and RM ids that fit a uint32, two instance ids are equal only if
    both the TxnIds and the RM ids are; the id is the TxnId with four
    more bytes. *)
Theorem instanceId_inj t1 r1 t2 r2 :
  length t1 = length t2 → 0 ≤ r1 < 2 ^ 32 → 0 ≤ r2 < 2 ^ 32 →
  (instanceId t1 r1 = instanceId t2 r2 ↔ t1 = t2 ∧ r1 = r2)
  ∧ length (instanceId t1 r1) = (length t1 + 4)%nat.
Proof.
  intros Hlen H1 H2. split; [split|].
  - intros Heq. unfold instanceId in Heq.
    apply app_inj_1 in Heq as [-> Hb]; [|done]. split; [done|].
    destruct (BigEndianPutUint32_value r1)
      as (a3 & a2 & a1 & a0 & Ha & _ & _ & _ & _ & Hv1).
    destruct (BigEndianPutUint32_value r2)
      as (b3 & b2 & b1 & b0 & Hb' & _ & _ & _ & _ & Hv2).
    rewrite Ha, Hb' in Hb. injection Hb as -> -> -> ->.
    rewrite Z.mod_small in Hv1, Hv2 by lia. lia.
  - by intros [-> ->].
  - unfold instanceId. by rewrite length_app.
Qed.

Lemma instanceId_inj_witness :
  (instanceId T1 1 = instanceId T1 258 ↔ T1 = T1 ∧ 1 = 258)
  ∧ length (instanceId T1 1) = (length T1 + 4)%nat.
Proof. apply (instanceId_inj T1 1 T1 258); [done|lia|lia]. Defined.

(** ** Proposals *)

(** X6. [NewPaxosProposals] opens an instance once.  With no proposal
    stored under the instance id it stores one made of exactly its
    arguments, starts it, and touches no other entry; any later call
    for the same TxnId and RM changes nothing, whatever ballots,
    acceptors or [skipPhase1] it brings. *)
Theorem NewPaxosProposals_first_wins txn fInc ballots acceptors rmId skip
    txn' fInc' ballots' acceptors' skip' pm :
  txnreader.Id txn' = txnreader.Id txn →
  let key := instanceId (txnreader.Id txn) rmId in
  let pm1 := NewPaxosProposals txn fInc ballots acceptors rmId skip pm in
  NewPaxosProposals txn' fInc' ballots' acceptors' rmId skip' pm1 = pm1
  ∧ proposers pm1 = proposers pm
  ∧ (∀ k, k ≠ key → proposals pm1 !! k = proposals pm !! k)
  ∧ (∀ q, proposals pm !! key = Some q → pm1 = pm)
  ∧ (proposals pm !! key = None →
     ∃ q, proposals pm1 !! key = Some q
          ∧ proposalTxn q = txn ∧ proposalFInc q = fInc
          ∧ proposalBallots q = ballots ∧ instanceRMId q = rmId
          ∧ proposalAcceptors q = acceptors ∧ skipPhase1 q = skip
          ∧ effects pm1 = effects pm ++ [ProposalStart q]).
Proof.
  intros Hid key pm1.
  pose proof (NewPaxosProposals_cases txn fInc ballots acceptors rmId skip pm)
    as (_ & _ & _ & Hprs & _ & Hcase).
  fold key pm1 in Hprs, Hcase.
  assert (is_Some (proposals pm1 !! key)) as [q1 Hq1].
  { destruct (proposals pm !! key) as [q|] eqn:Hq.
    - rewrite Hcase. by eexists.
    - destruct Hcase as (-> & _). rewrite lookup_insert_eq. by eexists. }
  split_and!.
  - unfold NewPaxosProposals at 1. rewrite Hid. fold key. by rewrite Hq1.
  - done.
  - intros k Hk. destruct (proposals pm !! key) as [q|] eqn:Hq.
    + by rewrite Hcase.
    + destruct Hcase as (-> & _). by rewrite lookup_insert_ne.
  - intros q Hq. by rewrite Hq in Hcase.
  - intros Hq. rewrite Hq in Hcase. destruct Hcase as (Hps & _ & Heff & _).
    eexists. rewrite Hps, lookup_insert_eq. split; [done|]. by rewrite Heff.
Qed.

Lemma NewPaxosProposals_first_wins_witness :
  let pm1 := NewPaxosProposals (txnFor 7) 2 [] [1; 2; 3] 1 true pmV3 in
  NewPaxosProposals (txnFor 5) 1 [None] [1] 1 false pm1 = pm1.
Proof.
  intros pm1.
  apply (NewPaxosProposals_first_wins (txnFor 7) 2 [] [1; 2; 3] 1 true
           (txnFor 5) 1 [None] [1] false pmV3).
  done.
Defined.

(** ** Proposers *)

Lemma TxnReceived_stores sender txn pm pm' :
  TxnReceived sender txn pm = Ok pm' →
  is_Some (proposers pm' !! txnreader.Id txn).
Proof.
  unfold TxnReceived.
  destruct (proposers pm !! txnreader.Id txn) as [p|] eqn:Hp.
  { intros [= <-]. by eexists. }
  destruct (acceptTxn sender txn pm).
  - intros [= <-]. simpl. rewrite lookup_insert_eq. by eexists.
  - destruct (GetAcceptorsFromTxn _) as [acceptors|]; simpl; [|done].
    destruct (MakeAbortBallots _ _) as [ballots|]; simpl; [|done].
    intros [= <-]. simpl. rewrite lookup_insert_eq. by eexists.
Qed.

(** X7. Once [TxnReceived] has returned, a Proposer is stored for the
    TxnId, and from then on the manager ignores the transaction body
    whoever sends it again, ignores a copy loaded from disk, and hands
    every 2B outcome for it to that Proposer without opening a proposal
    and without looking at the allocations. *)
Theorem TxnReceived_then_ignored sender txn pm pm' :
  TxnReceived sender txn pm = Ok pm' →
  ∃ p, proposers pm' !! txnreader.Id txn = Some p
    ∧ (∀ sender' txn', txnreader.Id txn' = txnreader.Id txn →
         TxnReceived sender' txn' pm' = Ok pm')
    ∧ (∀ decoded, loadFromData (txnreader.Id txn) decoded pm' = (pm', false))
    ∧ (∀ sender' txn' outcome,
         TwoBTxnVotesReceived sender' (txnreader.Id txn) txn'
           (TWOBTXNVOTES_OUTCOME outcome) pm'
         = Ok (emit (ProposerBallotOutcomeReceived p sender' outcome) pm')).
Proof.
  intros [p Hp]%TxnReceived_stores. exists p. split_and!; [done|..].
  - intros sender' txn' Hid. unfold TxnReceived. by rewrite Hid, Hp.
  - intros decoded. unfold loadFromData. by rewrite Hp.
  - intros sender' txn' outcome. unfold TwoBTxnVotesReceived. by rewrite Hp.
Qed.

Lemma TxnReceived_then_ignored_witness :
  let pm' := stateAfter [OpTxnReceived 2 (txnFor 7)] pmV3 in
  ∃ p, proposers pm' !! T1 = Some p
    ∧ TxnReceived 3 (txnFor 5) pm' = Ok pm'.
Proof.
  intros pm'.
  destruct (TxnReceived_then_ignored 2 (txnFor 7) pmV3 pm') as (p & Hp & Hrecv & _).
  { by vm_compute. }
  exists p. split; [exact Hp|]. by apply Hrecv.
Defined.

(** X8. [TxnFinished] forgets the Proposer of the TxnId and nothing
    else, and forgetting twice is forgetting once.  After it the
    transaction is unknown again: receiving its body anew goes through
    admission as the first time, so a transaction received and then
    finished leaves the Proposer map as it was. *)
Theorem TxnFinished_forgets txnId pm :
  let pm' := TxnFinished txnId pm in
  proposers pm' !! txnId = None
  ∧ (∀ k, k ≠ txnId → proposers pm' !! k = proposers pm !! k)
  ∧ proposals pm' = proposals pm
  ∧ effects pm' = effects pm
  ∧ topology pm' = topology pm
  ∧ TxnFinished txnId pm' = pm'
  ∧ (∀ sender txn pm1,
       txnreader.Id txn = txnId → proposers pm !! txnId = None →
       TxnReceived sender txn pm = Ok pm1 →
       proposers (TxnFinished txnId pm1) = proposers pm).
Proof.
  unfold TxnFinished, deleteProposer. simpl. split_and!; try done.
  - apply lookup_delete_eq.
  - intros k Hk. by apply lookup_delete_ne.
  - f_equal.
    + apply delete_delete_eq.
    + rewrite list_filter_filter. apply list_filter_iff. tauto.
  - intros sender txn pm1 <- Hnone. unfold TxnReceived. rewrite Hnone.
    destruct (acceptTxn sender txn pm).
    + intros [= <-]. simpl. rewrite delete_insert_eq. by apply delete_id.
    + destruct (GetAcceptorsFromTxn _) as [acceptors|]; simpl; [|done].
      destruct (MakeAbortBallots _ _) as [ballots|]; simpl; [|done].
      intros [= <-]. simpl. rewrite delete_insert_eq.
      pose proof (NewPaxosProposals_cases txn (Msgs.FInc (txnreader.Txn txn))
                    ballots acceptors (RMId pm) true pm) as (_ & _ & _ & Hprs & _).
      simpl in Hprs. rewrite Hprs. by apply delete_id.
Qed.

(** ** Finishing proposals *)

Lemma finishProposal_fields k q pm :
  let pm' := finishProposal k q pm in
  proposers pm' = proposers pm ∧ RMId pm' = RMId pm
  ∧ topology pm' = topology pm
  ∧ proposals pm' = delete k (proposals pm)
  ∧ effects pm' = effects pm ++ [ProposalFinishProposing q].
Proof. done. Qed.

(** The loop of [FinishProposers] over the abort instances. *)
Lemma FinishProposers_loop txnId abortInstances : ∀ pm,
  let pm' := foldl (λ pm rmId,
                      let instId := instanceId txnId rmId in
                      match proposals pm !! instId with
                      | Some prop => finishProposal instId prop pm
                      | None => pm
                      end) pm abortInstances in
  let listed := instanceId txnId <$> abortInstances in
  proposers pm' = proposers pm ∧ RMId pm' = RMId pm ∧ topology pm' = topology pm
  ∧ (∀ k, proposals pm' !! k
          = if decide (k ∈ listed) then None else proposals pm !! k)
  ∧ ∃ removed,
      effects pm' = effects pm ++ (ProposalFinishProposing <$> removed.*2)
      ∧ NoDup removed.*1
      ∧ ∀ k q, (k, q) ∈ removed ↔ proposals pm !! k = Some q ∧ k ∈ listed.
Proof.
  induction abortInstances as [|rmId rest IH]; intros pm; simpl.
  - split_and!; try done. exists []. simpl. rewrite app_nil_r.
    split_and!; [done|constructor|].
    intros k q. split; [by intros ?%elem_of_nil|by intros [_ ?%elem_of_nil]].
  - set (key := instanceId txnId rmId).
    destruct (proposals pm !! key) as [prop|] eqn:Hkey.
    + destruct (IH (finishProposal key prop pm))
        as (Hprs & Hrm & Htopo & Hps & removed & Heff & Hnd & Hrem).
      simpl in Hprs, Hrm, Htopo, Hps, Heff, Hrem.
      split_and!; try done.
      * intros k. rewrite Hps. destruct (decide (k = key)) as [->|Hne].
        -- rewrite (decide_True (P := key ∈ key :: _)) by left.
           case_decide; [done|apply lookup_delete_eq].
        -- rewrite lookup_delete_ne by done.
           case_decide as Hin; case_decide as Hin'; try done.
           ++ destruct Hin'. by right.
           ++ apply elem_of_cons in Hin' as [?|?]; done.
      * exists ((key, prop) :: removed). simpl. split_and!.
        -- rewrite Heff, <- app_assoc. done.
        -- constructor; [|done]. intros Hin.
           apply list_elem_of_fmap in Hin as ([k q] & Hk & Hin). simpl in Hk. subst k.
           apply Hrem in Hin as [Hin _]. by rewrite lookup_delete_eq in Hin.
        -- intros k q. rewrite elem_of_cons, Hrem. split.
           ++ intros [[= -> ->]|[Hl Hin]]; [split; [done|left]|].
              apply lookup_delete_Some in Hl as [Hne Hl]. split; [done|by right].
           ++ intros [Hl Hin]. destruct (decide (k = key)) as [->|Hne].
              ** left. rewrite Hkey in Hl. by injection Hl as ->.
              ** right. split; [by rewrite lookup_delete_ne|].
                 apply elem_of_cons in Hin as [?|?]; done.
    + destruct (IH pm) as (Hprs & Hrm & Htopo & Hps & removed & Heff & Hnd & Hrem).
      simpl in Hprs, Hrm, Htopo, Hps, Heff, Hrem.
      split_and!; try done.
      * intros k. rewrite Hps. destruct (decide (k = key)) as [->|Hne].
        -- rewrite (decide_True (P := key ∈ key :: _)) by left. by case_decide.
        -- case_decide as Hin; case_decide as Hin'; try done.
           ++ destruct Hin'. by right.
           ++ apply elem_of_cons in Hin' as [?|?]; done.
      * exists removed. split_and!; try done.
        intros k q. rewrite Hrem. split; intros [Hl Hin]; (split; [done|]).
        -- by right.
        -- apply elem_of_cons in Hin as [->|?]; [|done]. by rewrite Hkey in Hl.
Qed.

(** X9. [FinishProposers] keys everything on this RM's own instance of
    the transaction.  With no proposal stored under it the call does
    nothing at all, whatever abort instances are still running.
    Otherwise it removes from the map exactly the proposals of the own
    instance and of the abort instances the own proposal names, calls
    [FinishProposing] once on each proposal it removed and on nothing
    else, and leaves the Proposers alone. *)
Theorem FinishProposers_removes txnId abortInstances pm :
  let own := instanceId txnId (RMId pm) in
  let listed := instanceId txnId <$> (RMId pm :: abortInstances) in
  let pm' := FinishProposers txnId abortInstances pm in
  proposers pm' = proposers pm
  ∧ (proposals pm !! own = None → pm' = pm)
  ∧ (is_Some (proposals pm !! own) →
     (∀ k, proposals pm' !! k
           = if decide (k ∈ listed) then None else proposals pm !! k)
     ∧ ∃ removed,
         effects pm' = effects pm ++ (ProposalFinishProposing <$> removed.*2)
         ∧ NoDup removed.*1
         ∧ ∀ k q, (k, q) ∈ removed ↔ proposals pm !! k = Some q ∧ k ∈ listed).
Proof.
  intros own listed pm'. subst pm'. unfold FinishProposers. fold own.
  destruct (proposals pm !! own) as [prop|] eqn:Hown.
  2: { split_and!; try done. }
  destruct (FinishProposers_loop txnId abortInstances (finishProposal own prop pm))
    as (Hprs & _ & _ & Hps & removed & Heff & Hnd & Hrem).
  simpl in Hprs, Hps, Heff, Hrem.
  split_and!; [done|done|]. intros _. split.
  - intros k. rewrite Hps. subst listed. rewrite fmap_cons. fold own.
    destruct (decide (k = own)) as [->|Hne].
    + rewrite (decide_True (P := own ∈ own :: _)) by left.
      case_decide; [done|apply lookup_delete_eq].
    + rewrite lookup_delete_ne by done.
      case_decide as Hin; case_decide as Hin'; try done.
      * destruct Hin'. by right.
      * apply elem_of_cons in Hin' as [?|?]; done.
  - exists ((own, prop) :: removed). simpl. split_and!.
    + rewrite Heff, <- app_assoc. done.
    + constructor; [|done]. intros Hin.
      apply list_elem_of_fmap in Hin as ([k q] & Hk & Hin). simpl in Hk. subst k.
      apply Hrem in Hin as [Hin _]. by rewrite lookup_delete_eq in Hin.
    + intros k q. subst listed. rewrite fmap_cons. fold own.
      rewrite elem_of_cons, Hrem. split.
      * intros [[= -> ->]|[Hl Hin]]; [split; [done|left]|].
        apply lookup_delete_Some in Hl as [Hne Hl]. split; [done|by right].
      * intros [Hl Hin]. destruct (decide (k = own)) as [->|Hne].
        -- left. rewrite Hown in Hl. by injection Hl as ->.
        -- right. split; [by rewrite lookup_delete_ne|].
           apply elem_of_cons in Hin as [?|?]; done.
Qed.

(** ** Recovery and topology changes *)

(** X10. [loadFromData] never replaces a Proposer.  It returns an error
    exactly when no Proposer is stored for the TxnId and the data does
    not decode, and then, as when a Proposer is stored already, the
    manager is left as it was.  Otherwise it stores and starts one
    Proposer, restored with the mode the data holds and the topology the
    manager has at that moment.  Whenever it returns without error the
    transaction body is ignored should it arrive afterwards. *)
Theorem loadFromData_restores txnId decoded pm :
  let r := loadFromData txnId decoded pm in
  (r.2 = true ↔ proposers pm !! txnId = None ∧ decoded = None)
  ∧ (is_Some (proposers pm !! txnId) ∨ decoded = None → r.1 = pm)
  ∧ (∀ mode, proposers pm !! txnId = None → decoded = Some mode →
       ∃ p, proposers r.1 = <[txnId := p]> (proposers pm)
            ∧ proposerTxnId p = txnId ∧ proposerMode p = mode
            ∧ proposerTopology p = topology pm
            ∧ proposals r.1 = proposals pm
            ∧ effects r.1 = effects pm ++ [ProposerStart p])
  ∧ (r.2 = false →
     ∀ sender txn, txnreader.Id txn = txnId → TxnReceived sender txn r.1 = Ok r.1).
Proof.
  unfold loadFromData.
  destruct (proposers pm !! txnId) as [p|] eqn:Hp; [|destruct decoded as [mode|]];
    simpl; split_and!;
    first [ done
          | by (split; [|intros [? ?]])
          | by intros [? ?]
          | by intros [[? ?]|?]
          | by (intros mode' _ [= <-]; eexists)
          | by (intros _ sender txn Hid; unfold TxnReceived; simpl;
                rewrite Hid, ?Hp, ?lookup_insert_eq) ].
Qed.

Lemma foldl_emit_effects {A} (f : A → Effect) (l : list A) : ∀ pm,
  effects (foldl (λ pm x, emit (f x) pm) pm l) = effects pm ++ (f <$> l).
Proof.
  induction l as [|x l IH]; intros pm; simpl; [by rewrite app_nil_r|].
  rewrite IH. simpl. by rewrite <- app_assoc.
Qed.

(** X11. The task [TopologyChanged] enqueues records the new topology,
    tells it to every stored Proposer exactly once (in the order the
    map yields them), then reports [done(true)]; it changes neither
    map.  A transaction received afterwards is admitted or rejected by
    the new topology. *)
Theorem TopologyChangedTask_notifies topo pm :
  let pm' := TopologyChangedTask topo pm in
  topology pm' = topo
  ∧ proposers pm' = proposers pm ∧ proposals pm' = proposals pm
  ∧ RMId pm' = RMId pm ∧ BootCount pm' = BootCount pm
  ∧ (∃ notified,
       effects pm' = effects pm
                     ++ ((λ p, ProposerTopologyChange p topo) <$> notified)
                     ++ [TopologyDone true]
       ∧ notified ≡ₚ (map_to_list (proposers pm)).*2)
  ∧ ∀ sender txn,
      acceptTxn sender txn pm' = acceptTxn sender txn (setTopology topo pm).
Proof.
  unfold TopologyChangedTask. simpl.
  set (notify := λ (pm : ProposerManager) (kp : list Z * Proposer),
                   emit (ProposerTopologyChange kp.2 topo) pm).
  assert (∀ l pm0,
    topology (foldl notify pm0 l) = topology pm0
    ∧ RMId (foldl notify pm0 l) = RMId pm0
    ∧ BootCount (foldl notify pm0 l) = BootCount pm0) as Hfields.
  { induction l as [|x l IH]; intros pm0; [done|]. simpl.
    destruct (IH (notify pm0 x)) as (-> & -> & ->). done. }
  destruct (Hfields (map_to_list (proposers pm)) (setTopology topo pm))
    as (Htopo & Hrm & Hbc).
  destruct (foldl_emit_fields (λ kp : list Z * Proposer, ProposerTopologyChange kp.2 topo)
              (map_to_list (proposers pm)) (setTopology topo pm))
    as (Hprs & Hps & _).
  simpl in Hprs, Hps.
  split_and!; try done.
  - exists (map_to_list (proposers pm)).*2. split; [|done].
    unfold notify.
    rewrite (foldl_emit_effects (λ kp : list Z * Proposer, ProposerTopologyChange kp.2 topo)).
    simpl. rewrite <- app_assoc. do 2 f_equal. by rewrite <- list_fmap_compose.
  - intros sender txn. unfold acceptTxn. simpl. rewrite Htopo. simpl.
    assert (∀ allocs, activeMatchesBootCount allocs
              (foldl notify (setTopology topo pm) (map_to_list (proposers pm)))
            = activeMatchesBootCount allocs (setTopology topo pm)) as Hact.
    { induction allocs as [|a allocs IH]; [done|]. simpl. by rewrite Hrm, Hbc, IH. }
    destruct topo as [t|]; [|done]. simpl.
    assert (∀ allocs e, activeMatchesBootCount allocs (emit e
              (foldl notify (setTopology (Some t) pm) (map_to_list (proposers pm))))
            = activeMatchesBootCount allocs (setTopology (Some t) pm)) as Hact'.
    { intros allocs e. rewrite <- Hact.
      induction allocs as [|a allocs IH]; [done|]. simpl. by rewrite IH. }
    by rewrite Hact'.
Qed.

(** ** Panics of the manager *)

(** X12. [GetAcceptorsFromTxn] panics exactly when fInc is not positive
    (the slice it makes would have negative length).  Otherwise the
    list it returns is a prefix of the RM ids of the allocations, of
    length 2·fInc − 1 or, for a transaction with fewer allocations, the
    number of allocations. *)
Theorem GetAcceptorsFromTxn_length txnCap :
  (GetAcceptorsFromTxn txnCap = Fault MakeSliceLenOutOfRange
   ↔ Msgs.FInc txnCap ≤ 0)
  ∧ (1 ≤ Msgs.FInc txnCap →
     ∃ acceptors,
       GetAcceptorsFromTxn txnCap = Ok acceptors
       ∧ acceptors `prefix_of` (Msgs.RmId <$> Msgs.Allocations txnCap)
       ∧ length acceptors
         = (Z.to_nat (2 * Msgs.FInc txnCap - 1)
            `min` length (Msgs.Allocations txnCap))%nat).
Proof.
  split.
  - split.
    + intros Hfault. destruct (decide (1 ≤ Msgs.FInc txnCap)) as [Hf|Hf]; [|lia].
      by rewrite GetAcceptorsFromTxn_ok in Hfault.
    + intros Hf. unfold GetAcceptorsFromTxn. by rewrite decide_True by lia.
  - intros Hf. rewrite GetAcceptorsFromTxn_ok by done. eexists. split; [done|].
    split; [apply prefix_take|]. by rewrite length_take, length_fmap.
Qed.

(** X13. When [TxnReceived] panics.  With a Proposer stored for the
    TxnId it never does.  Otherwise it panics exactly when it rejects
    the transaction and either fInc is not positive or no allocation of
    the transaction names this RM: the abort ballots are then built
    from a nil allocation.  In particular, once a topology is known, a
    transaction that does not allocate this RM is never accepted, so
    that receiving one panics. *)
Theorem TxnReceived_faults_iff sender txn pm :
  let txnCap := txnreader.Txn txn in
  ((∃ f, TxnReceived sender txn pm = Fault f)
   ↔ proposers pm !! txnreader.Id txn = None
     ∧ ¬ admissible versionAdmitted sender txn pm
     ∧ (Msgs.FInc txnCap ≤ 0 ∨ AllocForRMId txnCap (RMId pm) = None))
  ∧ (proposers pm !! txnreader.Id txn = None →
     topology pm ≠ None →
     AllocForRMId txnCap (RMId pm) = None →
     TxnReceived sender txn pm
     = Fault (if decide (Msgs.FInc txnCap ≤ 0) then MakeSliceLenOutOfRange
              else NilDereference)).
Proof.
  simpl.
  assert (proposers pm !! txnreader.Id txn = None →
          acceptTxn sender txn pm = false →
          TxnReceived sender txn pm
          = if decide (Msgs.FInc (txnreader.Txn txn) ≤ 0) then Fault MakeSliceLenOutOfRange
            else match AllocForRMId (txnreader.Txn txn) (RMId pm) with
                 | None => Fault NilDereference
                 | Some alloc =>
                     TxnReceived sender txn pm
                 end) as Hrej.
  { intros Hp Hacc. unfold TxnReceived at 1. rewrite Hp, Hacc.
    case_decide as Hf.
    - unfold GetAcceptorsFromTxn. by rewrite decide_True by lia.
    - rewrite GetAcceptorsFromTxn_ok by lia. simpl.
      destruct (AllocForRMId (txnreader.Txn txn) (RMId pm)) as [alloc|] eqn:Halloc; simpl; [|done].
      unfold TxnReceived. rewrite Hp, Hacc.
      rewrite GetAcceptorsFromTxn_ok by lia. simpl. by rewrite Halloc. }
  split.
  - rewrite <- acceptTxn_admissible. split.
    + intros [f Hfault].
      destruct (proposers pm !! txnreader.Id txn) as [p|] eqn:Hp.
      { unfold TxnReceived in Hfault. by rewrite Hp in Hfault. }
      destruct (acceptTxn sender txn pm) eqn:Hacc.
      { destruct (TxnReceived_accept sender txn pm Hp Hacc) as (p & _ & Hok).
        by rewrite Hok in Hfault. }
      split; [done|]. split; [done|].
      destruct (decide (Msgs.FInc (txnreader.Txn txn) ≤ 0)) as [Hf|Hf]; [by left|right].
      destruct (AllocForRMId (txnreader.Txn txn) (RMId pm)) as [alloc|] eqn:Halloc; [|done].
      destruct (TxnReceived_reject sender txn pm alloc Hp Hacc) as (p & _ & _ & Hok);
        [lia|done|]. by rewrite Hok in Hfault.
    + intros (Hp & Hacc & Hwhy). apply not_true_is_false in Hacc.
      rewrite (Hrej Hp Hacc). case_decide as Hf; [by eexists|].
      destruct Hwhy as [?|Hnil]; [lia|]. rewrite Hnil. by eexists.
  - intros Hp Htopo Halloc.
    assert (acceptTxn sender txn pm = false) as Hacc.
    { apply not_true_iff_false. rewrite acceptTxn_admissible.
      intros [?|(topo & _ & _ & _ & alloc & Ha & _)]; [done|].
      by rewrite Halloc in Ha. }
    rewrite (Hrej Hp Hacc), Halloc. by case_decide.
Qed.

(** ** Every state the manager reaches *)

(** X14. From its creation on, whatever calls the manager serves, as
    long as none of them panics: the Proposers running are exactly the
    ones in the Proposer map and the proposals running are exactly the
    ones in the proposal map, each under the instance id of its own
    transaction and RM; so at most one Proposer runs per TxnId and at
    most one proposal per TxnId and RM. *)
Theorem reachable_coherent rmId bootCount ops pm :
  run ops (NewProposerManager rmId bootCount) = Ok pm →
  coherent pm ∧ atMostOneProposer pm ∧ atMostOneProposal pm.
Proof.
  intros Hrun.
  assert (coherent pm) as Hcoh
    by (eapply run_coherent; [apply coherent_NewProposerManager|done]).
  split; [done|]. by apply coherent_at_most_one.
Qed.

Lemma reachable_coherent_witness :
  let pm := stateAfter
              [OpTopologyChanged (Some topologyV3); OpTxnReceived 2 (txnFor 5);
               OpTxnFinished T1; OpTxnReceived 2 (txnFor 7);
               OpFinishProposers T1 []]
              (NewProposerManager 1 7) in
  coherent pm ∧ atMostOneProposer pm ∧ atMostOneProposal pm.
Proof.
  intros pm.
  apply (reachable_coherent 1 7
           [OpTopologyChanged (Some topologyV3); OpTxnReceived 2 (txnFor 5);
            OpTxnFinished T1; OpTxnReceived 2 (txnFor 7);
            OpFinishProposers T1 []]).
  by vm_compute.
Defined.

(** ** Routing of messages *)

(** X15. Messages for a Paxos instance reach the proposal of that
    instance and no other.  Once [NewPaxosProposals] has opened the
    instance of a transaction and an RM, a 1B, a 2B failure and added
    ballots for that TxnId and RM are handed to the proposal stored for
    it; the same messages for another TxnId or another RM, for which no
    proposal is stored, are dropped ([AddToPaxosProposals] logs), and
    none of them changes a map. *)
Theorem proposal_messages_routed txn fInc ballots acceptors rmId skip pm :
  proposals pm !! instanceId (txnreader.Id txn) rmId = None →
  0 ≤ rmId < 2 ^ 32 →
  let txnId := txnreader.Id txn in
  let pm1 := NewPaxosProposals txn fInc ballots acceptors rmId skip pm in
  ∃ q, proposals pm1 !! instanceId txnId rmId = Some q
    ∧ proposalTxn q = txn ∧ instanceRMId q = rmId
    ∧ (∀ sender, OneBTxnVotesReceived sender txnId rmId pm1
                 = emit (ProposalOneBTxnVotesReceived q sender) pm1)
    ∧ (∀ sender txn',
         TwoBTxnVotesReceived sender txnId txn' (TWOBTXNVOTES_FAILURES rmId) pm1
         = Ok (emit (ProposalTwoBFailuresReceived q sender) pm1))
    ∧ (∀ more, AddToPaxosProposals txnId more rmId pm1
               = emit (ProposalAddBallots q more) pm1)
    ∧ ∀ txnId' rmId',
        length txnId' = length txnId → 0 ≤ rmId' < 2 ^ 32 →
        (txnId', rmId') ≠ (txnId, rmId) →
        proposals pm !! instanceId txnId' rmId' = None →
        (∀ sender, OneBTxnVotesReceived sender txnId' rmId' pm1 = pm1)
        ∧ (∀ sender txn',
             TwoBTxnVotesReceived sender txnId' txn' (TWOBTXNVOTES_FAILURES rmId') pm1
             = Ok pm1)
        ∧ (∀ more, AddToPaxosProposals txnId' more rmId' pm1
                   = emit (LogAddBallotNotFound txnId' rmId') pm1).
Proof.
  intros Hnone Hrm txnId pm1.
  pose proof (NewPaxosProposals_cases txn fInc ballots acceptors rmId skip pm)
    as (_ & _ & _ & _ & _ & Hcase).
  simpl in Hcase. fold txnId pm1 in Hcase. fold txnId in Hnone.
  rewrite Hnone in Hcase. destruct Hcase as (Hps & _).
  eexists. rewrite Hps, lookup_insert_eq. split; [done|]. simpl.
  split; [done|]. split; [done|].
  assert (proposals pm1 !! instanceId txnId rmId = Some
            {| proposalOid := nextOid pm; proposalTxn := txn; proposalFInc := fInc;
               proposalBallots := ballots; instanceRMId := rmId;
               proposalAcceptors := acceptors; skipPhase1 := skip |}) as Hq
    by (by rewrite Hps, lookup_insert_eq).
  split_and!.
  - intros sender. unfold OneBTxnVotesReceived. by rewrite Hq.
  - intros sender txn'. unfold TwoBTxnVotesReceived. by rewrite Hq.
  - intros more. unfold AddToPaxosProposals. by rewrite Hq.
  - intros txnId' rmId' Hlen Hrm' Hne Hnone'.
    assert (proposals pm1 !! instanceId txnId' rmId' = None) as Hq'.
    { rewrite Hps, lookup_insert_ne; [done|]. intros Heq.
      apply Hne. symmetry in Hlen.
      destruct (BigEndianPutUint32_value rmId)
        as (a3 & a2 & a1 & a0 & Ha & _ & _ & _ & _ & Hv1).
      destruct (BigEndianPutUint32_value rmId')
        as (b3 & b2 & b1 & b0 & Hb & _ & _ & _ & _ & Hv2).
      unfold instanceId in Heq. apply app_inj_1 in Heq as [-> Hbytes]; [|done].
      rewrite Ha, Hb in Hbytes. injection Hbytes as -> -> -> ->.
      rewrite Z.mod_small in Hv1, Hv2 by lia. f_equal. lia. }
    split_and!.
    + intros sender. unfold OneBTxnVotesReceived. by rewrite Hq'.
    + intros sender txn'. unfold TwoBTxnVotesReceived. by rewrite Hq'.
    + intros more. unfold AddToPaxosProposals. by rewrite Hq'.
Qed.

Lemma proposal_messages_routed_witness :
  let pm1 := NewPaxosProposals (txnFor 7) 1 [] [1] 1 true pmV3 in
  ∃ q, proposals pm1 !! instanceId T1 1 = Some q
    ∧ OneBTxnVotesReceived 2 T1 1 pm1 = emit (ProposalOneBTxnVotesReceived q 2) pm1
    ∧ OneBTxnVotesReceived 2 T1 2 pm1 = pm1.
Proof.
  intros pm1.
  destruct (proposal_messages_routed (txnFor 7) 1 [] [1] 1 true pmV3)
    as (q & Hq & _ & _ & H1B & _ & _ & Hother).
  { by vm_compute. }
  { lia. }
  exists q. split; [exact Hq|]. split; [apply H1B|].
  apply (Hother T1 2); [done|lia|done|by vm_compute].
Defined.

(** X16. Messages for a transaction reach its Proposer while it is
    stored and nobody afterwards.  Once [TxnReceived] has returned, a
    TxnGloballyComplete and a TxnSubmissionAbort for the TxnId are
    handed to the Proposer stored for it; once that Proposer has
    reported [TxnFinished] both are ignored without a trace. *)
Theorem Proposer_messages_routed sender txn pm pm' :
  TxnReceived sender txn pm = Ok pm' →
  let txnId := txnreader.Id txn in
  ∃ p, proposers pm' !! txnId = Some p
    ∧ (∀ from, TxnGloballyCompleteReceived from txnId pm'
               = emit (ProposerTxnGloballyCompleteReceived p from) pm')
    ∧ (∀ from, TxnSubmissionAbortReceived from txnId pm'
               = emit (ProposerAbort p) pm')
    ∧ (∀ from, TxnGloballyCompleteReceived from txnId (TxnFinished txnId pm')
               = TxnFinished txnId pm')
    ∧ (∀ from, TxnSubmissionAbortReceived from txnId (TxnFinished txnId pm')
               = TxnFinished txnId pm').
Proof.
  intros [p Hp]%TxnReceived_stores txnId. exists p. fold txnId in Hp.
  assert (proposers (TxnFinished txnId pm') !! txnId = None) as Hgone
    by apply lookup_delete_eq.
  split_and!; [done|..]; intros from;
    unfold TxnGloballyCompleteReceived, TxnSubmissionAbortReceived;
    by rewrite ?Hp, ?Hgone.
Qed.

Lemma Proposer_messages_routed_witness :
  let pm' := stateAfter [OpTxnReceived 2 (txnFor 7)] pmV3 in
  ∃ p, proposers pm' !! T1 = Some p
    ∧ TxnSubmissionAbortReceived 3 T1 pm' = emit (ProposerAbort p) pm'
    ∧ TxnSubmissionAbortReceived 3 T1 (TxnFinished T1 pm') = TxnFinished T1 pm'.
Proof.
  intros pm'.
  destruct (Proposer_messages_routed 2 (txnFor 7) pmV3 pm')
    as (p & Hp & _ & Habort & _ & Hgone).
  { by vm_compute. }
  exists p. split; [exact Hp|]. split; [apply Habort|apply Hgone].
Defined.

End PaxosFacts.

(** * Properties of the transaction state machine *)

Module TxnFacts.
Import TxnEngine TxnSpec TxnScenarios.

(** ** [nextState], state by state *)

Lemma nextState_from_DetermineLocalBallots t :
  currentState t = Some txnDetermineLocalBallots →
  nextState t = Ok (emit (Enter txnAwaitLocalBallots)
                      (setCurrentState (Some txnAwaitLocalBallots) t)).
Proof. intros H. unfold nextState. simpl. by rewrite H. Qed.

Lemma nextState_from_AwaitLocalBallots t :
  currentState t = Some txnAwaitLocalBallots →
  nextState t = Ok (emit (Enter txnReceiveOutcome)
                      (setCurrentState (Some txnReceiveOutcome) t)).
Proof. intros H. unfold nextState. simpl. by rewrite H. Qed.

Lemma nextState_from_AwaitLocallyComplete t :
  currentState t = Some txnAwaitLocallyComplete →
  nextState t = Ok (emit (Enter txnReceiveCompletion)
                      (setCurrentState (Some txnReceiveCompletion) t)).
Proof. intros H. unfold nextState. simpl. by rewrite H. Qed.

Lemma nextState_from_ReceiveCompletion t :
  currentState t = Some txnReceiveCompletion →
  nextState t = Ok (setCurrentState None t).
Proof. intros H. unfold nextState. simpl. by rewrite H. Qed.

Lemma nextState_from_ReceiveOutcome t :
  currentState t = Some txnReceiveOutcome →
  talcTxn t = true →
  nextState t
  = Ok (let t1 := emit (Enter txnAwaitLocallyComplete)
                    (setCurrentState (Some txnAwaitLocallyComplete) t) in
        if aborted t || bool_decide (activeFramesCount t = 0)
        then emit TxnLocallyComplete
               (emit (Enter txnReceiveCompletion)
                  (setCurrentState (Some txnReceiveCompletion) t1))
        else t1).
Proof.
  intros H Htalc. destruct t. simpl in *. subst. unfold nextState. simpl.
  by destruct (_ || _).
Qed.

(** More fuel changes nothing, and two units never run out. *)
Lemma nextStateFuel_enough n t :
  nextStateFuel (S (S n)) t = nextState t ∧ nextState t ≠ Fault OutOfFuel.
Proof.
  destruct t as [? ? ? ? ? ? ? ? ? ? ? ? ? talc ? ? ? [[]|] ? ?];
    unfold nextState; simpl; try done.
  destruct talc; simpl; [|done]. by destruct (_ || _).
Qed.

(** ** The loops over the local actions *)

Lemma applyToEachVar_spec call create t :
  applyToEachVar call create t
  = setTrace (trace t ++ ((λ a, ApplyToVar call create (localAction.vUUId a))
                            <$> localActions t)) t.
Proof.
  unfold applyToEachVar.
  assert (∀ l t0,
    foldl (λ t a, emit (ApplyToVar call create (localAction.vUUId a)) t) t0 l
    = setTrace (trace t0 ++ ((λ a, ApplyToVar call create (localAction.vUUId a)) <$> l)) t0)
    as Hloop.
  { induction l as [|a l IH]; intros t0; simpl.
    - rewrite app_nil_r. by destruct t0.
    - rewrite IH. unfold setTrace, emit. simpl. by rewrite <- app_assoc. }
  apply Hloop.
Qed.

Lemma stampOutcome_loop m : ∀ k t,
  (k + m ≤ length (localActions t))%nat →
  foldl (λ t idx,
           match localActions t !! idx with
           | None => t
           | Some action =>
               let action := localAction.setOutcomeClock (outcomeClock t) action in
               let t := setLocalActions (<[idx := action]> (localActions t)) t in
               emit (ApplyToVar ReceiveTxnOutcome (negb (voter t))
                       (localAction.vUUId action)) t
           end) t (seq k m)
  = setTrace
      (trace t ++ ((λ a, ApplyToVar ReceiveTxnOutcome (negb (voter t)) (localAction.vUUId a))
                     <$> take m (drop k (localActions t))))
      (setLocalActions
         (take k (localActions t)
          ++ (localAction.setOutcomeClock (outcomeClock t) <$> take m (drop k (localActions t)))
          ++ drop (k + m) (localActions t)) t).
Proof.
  induction m as [|m IH]; intros k t Hlen; simpl.
  - rewrite app_nil_r, Nat.add_0_r, take_drop. by destruct t.
  - destruct (lookup_lt_is_Some_2 (localActions t) k) as [a Ha]; [lia|].
    rewrite Ha. rewrite IH by (simpl; rewrite length_insert; lia). simpl.
    rewrite (drop_S _ _ _ Ha). simpl.
    rewrite (take_S_r _ k (localAction.setOutcomeClock (outcomeClock t) a))
      by (apply list_lookup_insert_eq; lia).
    rewrite take_insert_ge by lia.
    rewrite !drop_insert_lt by lia.
    replace (k + S m)%nat with (S (k + m)) by lia.
    unfold setTrace, setLocalActions, emit. simpl.
    by rewrite <- !app_assoc.
Qed.

Lemma stampOutcome_spec t :
  stampOutcome t
  = setTrace
      (trace t ++ ((λ a, ApplyToVar ReceiveTxnOutcome (negb (voter t)) (localAction.vUUId a))
                     <$> localActions t))
      (setLocalActions
         (localAction.setOutcomeClock (outcomeClock t) <$> localActions t) t).
Proof.
  unfold stampOutcome. rewrite stampOutcome_loop by lia. simpl.
  rewrite drop_0, firstn_all, drop_all, app_nil_r. done.
Qed.

(** ** Receiving the outcome *)

(** [nextState] touches the current state and the trace only. *)
Lemma nextState_fields t t' :
  nextState t = Ok t' →
  outcomeClock t' = outcomeClock t ∧ aborted t' = aborted t
  ∧ preAbortedBool t' = preAbortedBool t ∧ localActions t' = localActions t
  ∧ voter t' = voter t ∧ queue t' = queue t ∧ pendingVote t' = pendingVote t
  ∧ preAborted t' = preAborted t ∧ completed t' = completed t
  ∧ activeFramesCount t' = activeFramesCount t
  ∧ tdbTxn t' = tdbTxn t ∧ talbTxn t' = talbTxn t ∧ troTxn t' = troTxn t
  ∧ talcTxn t' = talcTxn t ∧ trcTxn t' = trcTxn t.
Proof.
  destruct t as [? ? ? ? ? ? ? ? ? ? ? ? ? talc ? ? ? [[]|] ? ?];
    unfold nextState; simpl; try (by intros [= <-]).
  destruct talc; simpl; [|done].
  destruct (_ || _); by intros [= <-].
Qed.

Lemma BallotOutcomeReceived_recorded outcome t :
  recorded t → BallotOutcomeReceived outcome t = Ok t.
Proof.
  intros [Hclock|Haborted]; unfold BallotOutcomeReceived.
  - by rewrite bool_decide_eq_true_2.
  - by rewrite Haborted, orb_true_r.
Qed.

Lemma BallotOutcomeReceived_records outcome t t' :
  BallotOutcomeReceived outcome t = Ok t' → recorded t'.
Proof.
  unfold BallotOutcomeReceived.
  destruct (bool_decide (outcomeClock t ≠ None) || aborted t) eqn:Hrec.
  { intros [= <-]. apply orb_true_iff in Hrec as [Hc%bool_decide_eq_true|Ha];
      [by left|by right]. }
  destruct (troTxn t); simpl; [|done].
  destruct (bool_decide (currentState t = Some txnReceiveOutcome)); simpl; [|done].
  destruct (nextState _) as [t1|] eqn:Hnext; simpl; [|done].
  apply nextState_fields in Hnext as (Hclock & Haborted & _).
  assert (recorded t1) as Hrecorded.
  { unfold recorded. rewrite Hclock, Haborted.
    destruct outcome; simpl; [by left|by right]. }
  destruct (preAbortedBool t1).
  - destruct (aborted t1); simpl; [|done]. by intros [= <-].
  - intros [= <-]. rewrite stampOutcome_spec. exact Hrecorded.
Qed.

Lemma run_BallotOutcomeReceived_recorded outcome n t :
  recorded t → run (replicate n (OpBallotOutcomeReceived outcome)) t = Ok t.
Proof.
  intros Hrec. induction n as [|n IH]; [done|]. simpl.
  by rewrite BallotOutcomeReceived_recorded.
Qed.

(** X17. Once an outcome is recorded (the outcome clock is set or the
    aborted flag is), every call of [BallotOutcomeReceived] returns the
    Txn as it was, so the recorded clock stays; every call that returns
    leaves an outcome recorded; and feeding the same Commit outcome
    [n + 1] times does what feeding it once does. *)
Theorem BallotOutcomeReceived_at_most_once t :
  (recorded t → ∀ outcome, BallotOutcomeReceived outcome t = Ok t)
  ∧ (∀ outcome t', BallotOutcomeReceived outcome t = Ok t' →
       recorded t'
       ∧ ∀ outcome', BallotOutcomeReceived outcome' t' = Ok t')
  ∧ (∀ data n,
       run (replicate (S n) (OpBallotOutcomeReceived (Msgs.OUTCOME_COMMIT data))) t
       = BallotOutcomeReceived (Msgs.OUTCOME_COMMIT data) t).
Proof.
  split; [|split].
  - intros Hrec outcome. by apply BallotOutcomeReceived_recorded.
  - intros outcome t' Hrun.
    assert (recorded t') as Hrec by by eapply BallotOutcomeReceived_records.
    split; [done|]. intros outcome'. by apply BallotOutcomeReceived_recorded.
  - intros data n. simpl.
    destruct (BallotOutcomeReceived _ t) as [t'|] eqn:Hrun; simpl; [|done].
    apply run_BallotOutcomeReceived_recorded.
    by eapply BallotOutcomeReceived_records.
Qed.

(** X18. For a started Txn waiting in
    [txnReceiveOutcome] with no outcome recorded and [preAbortedBool]
    set, a Commit outcome panics; an abort outcome takes the machine
    through [txnAwaitLocallyComplete], which fires [TxnLocallyComplete]
    at once because the Txn is aborted, and leaves it in
    [txnReceiveCompletion], without stamping a clock on any action and
    without asking anything of a variable. *)
Theorem BallotOutcomeReceived_preAborted t :
  started t →
  currentState t = Some txnReceiveOutcome →
  ¬ recorded t →
  preAbortedBool t = true →
  (∀ data, BallotOutcomeReceived (Msgs.OUTCOME_COMMIT data) t
           = Fault (Panic PreAbortedButCommit))
  ∧ ∃ t', BallotOutcomeReceived Msgs.OUTCOME_ABORT t = Ok t'
          ∧ currentState t' = Some txnReceiveCompletion
          ∧ aborted t' = true
          ∧ outcomeClock t' = None
          ∧ localActions t' = localActions t
          ∧ queue t' = queue t
          ∧ trace t' = trace t ++ [Enter txnAwaitLocallyComplete;
                                   Enter txnReceiveCompletion;
                                   TxnLocallyComplete].
Proof.
  intros (Htro & Htalc & _) Hstate Hnot HpreAborted.
  assert (outcomeClock t = None ∧ aborted t = false) as [Hclock Haborted].
  { unfold recorded in Hnot. destruct (outcomeClock t), (aborted t); naive_solver. }
  clear Hnot. destruct t. simpl in *. subst.
  unfold BallotOutcomeReceived, nextState. simpl. split.
  - intros data. by case_bool_decide.
  - eexists. split; [reflexivity|]. simpl. by rewrite <- !app_assoc.
Qed.

Lemma BallotOutcomeReceived_at_most_once_witness :
  let t := stateAfter bothVoteCommit twoWritesVoting in
  let t' := stateAfter [OpBallotOutcomeReceived (Msgs.OUTCOME_COMMIT [5])] t in
  BallotOutcomeReceived (Msgs.OUTCOME_COMMIT [5]) t = Ok t'
  ∧ recorded t'
  ∧ BallotOutcomeReceived Msgs.OUTCOME_ABORT t' = Ok t'.
Proof.
  assert (BallotOutcomeReceived (Msgs.OUTCOME_COMMIT [5])
            (stateAfter bothVoteCommit twoWritesVoting)
          = Ok (stateAfter [OpBallotOutcomeReceived (Msgs.OUTCOME_COMMIT [5])]
                  (stateAfter bothVoteCommit twoWritesVoting))) as Hrun
    by by vm_compute.
  split; [exact Hrun|].
  destruct (BallotOutcomeReceived_at_most_once
              (stateAfter bothVoteCommit twoWritesVoting)) as (_ & Hafter & _).
  destruct (Hafter _ _ Hrun) as [Hrec Hsame].
  split; [exact Hrec|apply Hsame].
Defined.

Lemma BallotOutcomeReceived_preAborted_witness :
  let t := stateAfter bothVoteDeadlock twoWritesVoting in
  BallotOutcomeReceived (Msgs.OUTCOME_COMMIT [5]) t = Fault (Panic PreAbortedButCommit).
Proof.
  apply (BallotOutcomeReceived_preAborted (stateAfter bothVoteDeadlock twoWritesVoting)).
  - by vm_compute.
  - by vm_compute.
  - intros [Hclock|Haborted]; [by vm_compute in Hclock|by vm_compute in Haborted].
  - by vm_compute.
Defined.

(** An aborted Txn is locally complete at once: after two AbortDeadlock
    votes and [preAbort],
    an abort outcome does not leave the Txn in
    [txnAwaitLocallyComplete]; it is already in [txnReceiveCompletion]
    when the call returns. *)
Lemma BallotOutcomeReceived_abort_passes_AwaitLocallyComplete :
  let t := stateAfter bothVoteDeadlock twoWritesVoting in
  let t' := stateAfter [OpBallotOutcomeReceived Msgs.OUTCOME_ABORT] t in
  Start true twoWrites = Ok twoWritesVoting
  ∧ run bothVoteDeadlock twoWritesVoting = Ok t
  ∧ preAbortedBool t = true
  ∧ currentState t = Some txnReceiveOutcome
  ∧ BallotOutcomeReceived Msgs.OUTCOME_ABORT t = Ok t'
  ∧ currentState t' ≠ Some txnAwaitLocallyComplete
  ∧ currentState t' = Some txnReceiveCompletion.
Proof.
  split; [by vm_compute|]. split; [by vm_compute|]. split; [by vm_compute|].
  split; [by vm_compute|]. split; [by vm_compute|]. split; by vm_compute.
Qed.

(** ** The invariant of a started Txn *)

Lemma phases_app tr tr' : phases (tr ++ tr') = phases tr ++ phases tr'.
Proof. apply filter_app. Qed.

Lemma phases_ApplyToVar {A} (f : A → VarUUId) call create (l : list A) :
  phases ((λ a, ApplyToVar call create (f a)) <$> l) = [].
Proof. induction l as [|a l IH]; [done|]. simpl. exact IH. Qed.

Lemma ballot_setOutcomeClock c (l : list localAction.t) :
  localAction.ballot <$> (localAction.setOutcomeClock c <$> l)
  = localAction.ballot <$> l.
Proof. rewrite <- list_fmap_compose. by apply list_fmap_ext. Qed.

Lemma ballot_setFrame f idx (l : list localAction.t) :
  localAction.ballot <$> alter (localAction.setFrame f) idx l
  = localAction.ballot <$> l.
Proof.
  revert idx. induction l as [|a l IH]; intros [|idx]; simpl; [done..|].
  f_equal. apply IH.
Qed.

Lemma ballot_setBallot b idx (l : list localAction.t) :
  localAction.ballot <$> alter (localAction.setBallot (Some b)) idx l
  = alter (λ _, Some b) idx (localAction.ballot <$> l).
Proof.
  revert idx. induction l as [|a l IH]; intros [|idx]; simpl; [done..|].
  f_equal. apply IH.
Qed.

(** Casting the vote of an action that had none leaves one unvoted
    action less. *)
Lemma unvoted_alter b idx (bs : list (option Ballot)) :
  bs !! idx = Some None →
  S (missing (alter (λ _, Some b) idx bs)) = missing bs.
Proof.
  unfold missing. revert idx. induction bs as [|b0 bs IH]; intros [|idx] Hidx; try done.
  - simpl in Hidx. injection Hidx as ->.
    change (alter (λ _, Some b) 0%nat (None :: bs)) with (Some b :: bs).
    rewrite !filter_cons. rewrite decide_False, decide_True by done. done.
  - simpl in Hidx.
    change (alter (λ _, Some b) (S idx) (b0 :: bs))
      with (b0 :: alter (λ _, Some b) idx bs).
    rewrite !filter_cons.
    destruct (decide (b0 = None)); simpl; by rewrite (IH idx Hidx).
Qed.

Lemma unvoted_zero_Forall (bs : list (option Ballot)) :
  missing bs = 0%nat → Forall is_Some bs.
Proof.
  unfold missing. induction bs as [|b bs IH]; [constructor|]. rewrite filter_cons.
  destruct b as [b|].
  - rewrite decide_False by done. constructor; [by eexists|by apply IH].
  - rewrite decide_True by done. done.
Qed.

Lemma unvoted_all_None (l : list localAction.t) :
  Forall (λ a, localAction.ballot a = None) l →
  missing (localAction.ballot <$> l) = length l.
Proof.
  unfold missing. induction 1 as [|a l Ha _ IH]; [done|].
  rewrite fmap_cons, filter_cons, Ha, decide_True by done. simpl. by rewrite IH.
Qed.

Lemma lookup_ballot_None idx (l : list localAction.t) a :
  l !! idx = Some a → localAction.ballot a = None →
  (localAction.ballot <$> l) !! idx = Some None.
Proof. intros Hl Ha. by rewrite list_lookup_fmap, Hl, <- Ha. Qed.

Lemma wrap32_small z : - 2 ^ 31 ≤ z < 2 ^ 31 → wrap32 z = z.
Proof.
  intros Hz. unfold wrap32.
  rewrite Z.mod_small by lia. lia.
Qed.

Lemma pendingIn_app f q q' : pendingIn f (q ++ q') = (pendingIn f q + pendingIn f q')%nat.
Proof. unfold pendingIn. by rewrite filter_app, length_app. Qed.

Lemma pendingIn_cons f g q :
  pendingIn f (g :: q) = ((if decide (g = f) then 1 else 0) + pendingIn f q)%nat.
Proof. unfold pendingIn. rewrite filter_cons. by destruct (decide (g = f)). Qed.

(** Events that are neither a state entry nor the ballot callback do
    not touch the invariant. *)
Lemma wellFormedOn_quiet v st bs n pv q tr new :
  phases new = [] →
  wellFormedOn v st bs n pv q tr → wellFormedOn v st bs n pv q (tr ++ new).
Proof.
  intros Hnew (? & ? & ? & Hph & ?). split_and!; try done.
  by rewrite phases_app, Hnew, app_nil_r.
Qed.

(** Tasks other than [allTxnBallotsComplete] may come and go. *)
Lemma wellFormedOn_queue v st bs n pv q q' tr :
  pendingIn allTxnBallotsCompleteTask q' = pendingIn allTxnBallotsCompleteTask q →
  wellFormedOn v st bs n pv q tr → wellFormedOn v st bs n pv q' tr.
Proof.
  intros Hq (? & ? & ? & ? & Hrest). split_and!; try done.
  destruct v; [|done]. destruct Hrest as [? Hrest]. split; [done|].
  case_decide; by rewrite Hq.
Qed.

Lemma wellFormedOn_ReceiveOutcome v bs n pv q tr :
  wellFormedOn v (Some txnReceiveOutcome) bs n pv q tr →
  wellFormedOn v (Some txnAwaitLocallyComplete) bs n pv q
    (tr ++ [Enter txnAwaitLocallyComplete]).
Proof.
  intros (? & ? & ? & Hph & Hrest). split_and!; try done.
  - rewrite phases_app, Hph. unfold expectedPhases. simpl.
    destruct v; simpl; by rewrite ?app_nil_r, <- ?app_assoc.
  - by destruct v.
Qed.

Lemma wellFormedOn_AwaitLocallyComplete v bs n pv q tr :
  wellFormedOn v (Some txnAwaitLocallyComplete) bs n pv q tr →
  wellFormedOn v (Some txnReceiveCompletion) bs n pv q
    ((tr ++ [Enter txnReceiveCompletion]) ++ [TxnLocallyComplete]).
Proof.
  intros (? & ? & ? & Hph & Hrest). split_and!; try done.
  - rewrite !phases_app, Hph. unfold expectedPhases. simpl.
    destruct v; simpl; by rewrite <- ?app_assoc.
  - by destruct v.
Qed.

Lemma wellFormedOn_ReceiveCompletion v bs n pv q tr :
  wellFormedOn v (Some txnReceiveCompletion) bs n pv q tr →
  wellFormedOn v None bs n pv q (tr ++ [TxnFinished]).
Proof.
  intros (? & ? & ? & Hph & Hrest). split_and!; try done.
  - rewrite phases_app, Hph. unfold expectedPhases. simpl.
    destruct v; simpl; by rewrite <- ?app_assoc.
  - by destruct v.
Qed.

(** The only way out of [txnAwaitLocalBallots]: every action has
    voted, the state is advanced, and then the ballots are handed up. *)
Lemma wellFormedOn_AwaitLocalBallots bs n pv q tr :
  wellFormedOn true (Some txnAwaitLocalBallots) bs n pv
    (allTxnBallotsCompleteTask :: q) tr →
  wellFormedOn true (Some txnReceiveOutcome) bs n pv q
    (tr ++ [Enter txnReceiveOutcome; TxnBallotsComplete bs])
  ∧ missing bs = 0%nat.
Proof.
  intros (? & ? & ? & Hph & Hpv & Hq). simpl in Hq.
  rewrite pendingIn_cons in Hq. rewrite decide_True in Hq by done.
  destruct (decide (missing bs = 0 ∧ 0 < n)%nat) as [[Hmiss Hn]|]; [|lia].
  split; [|done]. split_and!; simpl; try done; try lia.
  rewrite phases_app, Hph. done.
Qed.

Lemma notifyGloballyComplete_quiet t :
  ∃ new, notifyGloballyComplete t = setTrace (trace t ++ new) t ∧ phases new = [].
Proof.
  unfold notifyGloballyComplete.
  assert (∀ l t0, ∃ new,
    foldl (λ t a,
             match localAction.frame a with
             | None => t
             | Some _ => emit (ApplyToVar TxnGloballyComplete false (localAction.vUUId a)) t
             end) t0 l = setTrace (trace t0 ++ new) t0 ∧ phases new = []) as Hloop.
  { induction l as [|a l IH]; intros t0; simpl.
    - exists []. rewrite app_nil_r. by destruct t0.
    - destruct (localAction.frame a).
      + destruct (IH (emit (ApplyToVar TxnGloballyComplete false (localAction.vUUId a)) t0))
          as (new & -> & Hnew).
        exists (ApplyToVar TxnGloballyComplete false (localAction.vUUId a) :: new).
        split; [|done]. destruct t0. simpl. by rewrite <- app_assoc.
      + apply IH. }
  apply Hloop.
Qed.

Ltac wf_open t Hwf :=
  destruct t as [i w acts v rd tdb pv talb pa pab tro oc ab talc afc trc comp st q tr];
  unfold wellFormed in Hwf; simpl in Hwf;
  destruct Hwf as (-> & -> & -> & -> & -> & Hon).

Lemma BallotOutcomeReceived_wellFormed outcome t t' :
  wellFormed t → BallotOutcomeReceived outcome t = Ok t' → wellFormed t'.
Proof.
  intros Hwf. wf_open t Hwf. unfold BallotOutcomeReceived. simpl.
  destruct oc; simpl; [by intros [= <-]|].
  destruct ab; simpl; [by intros [= <-]|].
  destruct st as [[]|]; simpl; try done.
  apply wellFormedOn_ReceiveOutcome in Hon.
  pose proof (wellFormedOn_AwaitLocallyComplete _ _ _ _ _ _ Hon) as Hon'.
  unfold nextState.
  destruct outcome as [data|]; simpl.
  - case_bool_decide as Hafc; simpl; (destruct pab; [done|]); intros [= <-];
      rewrite stampOutcome_spec; unfold wellFormed; simpl;
      rewrite length_fmap, ballot_setOutcomeClock;
      (split_and!; try done); apply wellFormedOn_quiet;
      try apply phases_ApplyToVar; done.
  - destruct pab; intros [= <-]; rewrite ?stampOutcome_spec; unfold wellFormed; simpl;
      rewrite ?length_fmap, ?ballot_setOutcomeClock;
      (split_and!; try done); try apply wellFormedOn_quiet;
      try apply phases_ApplyToVar; done.
Qed.

Lemma LocallyComplete_wellFormed t t' :
  wellFormed t → LocallyComplete t = Ok t' → wellFormed t'.
Proof.
  intros Hwf. wf_open t Hwf. unfold LocallyComplete. simpl.
  case_bool_decide; simpl.
  - intros [= <-]. unfold wellFormed. simpl. split_and!; try done.
    eapply wellFormedOn_queue; [|exact Hon].
    rewrite pendingIn_app. unfold pendingIn at 2. simpl. lia.
  - case_bool_decide; [done|]. intros [= <-]. by unfold wellFormed.
Qed.

Lemma CompletionReceived_wellFormed t t' :
  wellFormed t → CompletionReceived t = Ok t' → wellFormed t'.
Proof.
  intros Hwf. wf_open t Hwf. unfold CompletionReceived. simpl.
  destruct comp; simpl; [by intros [= <-]|].
  destruct st as [[]|]; simpl; try done.
  unfold maybeFinish, nextState. simpl.
  apply wellFormedOn_ReceiveCompletion in Hon.
  destruct ab; intros [= <-]; [by unfold wellFormed|].
  match goal with |- wellFormed (notifyGloballyComplete ?x) =>
    destruct (notifyGloballyComplete_quiet x) as (new & -> & Hnew) end.
  unfold wellFormed. simpl. split_and!; try done.
  by apply wellFormedOn_quiet.
Qed.

Lemma SetFrame_wellFormed idx f t :
  wellFormed t →
  wellFormed (setLocalActions (alter (localAction.setFrame f) idx (localActions t)) t).
Proof.
  intros Hwf. wf_open t Hwf. unfold wellFormed. simpl.
  rewrite ballot_setFrame, length_alter. done.
Qed.

Lemma locallyComplete_wellFormed t t' :
  wellFormed t → locallyComplete t = Ok t' → wellFormed t'.
Proof.
  intros Hwf. wf_open t Hwf. unfold locallyComplete, locallyCompleteWith. simpl.
  case_bool_decide as Hst; [|by intros [= <-]].
  subst st. unfold nextState. simpl. intros [= <-].
  unfold wellFormed. simpl. split_and!; try done.
  by apply wellFormedOn_AwaitLocallyComplete.
Qed.

Lemma preAbort_wellFormed t t' :
  wellFormed t → preAbort t = Ok t' → wellFormed t'.
Proof.
  intros Hwf. wf_open t Hwf. unfold preAbort. simpl.
  destruct v; simpl; [|done].
  destruct (bool_decide (st = Some txnAwaitLocalBallots) && negb pab); [|done].
  intros [= <-]. rewrite applyToEachVar_spec. unfold wellFormed. simpl.
  split_and!; try done. apply wellFormedOn_quiet; [|done]. apply phases_ApplyToVar.
Qed.

Lemma allTxnBallotsComplete_wellFormed t rest t' :
  wellFormed t → queue t = allTxnBallotsCompleteTask :: rest →
  allTxnBallotsComplete (setQueue rest t) = Ok t' → wellFormed t'.
Proof.
  intros Hwf Hq. wf_open t Hwf. simpl in Hq. subst q.
  unfold allTxnBallotsComplete. simpl.
  destruct v; simpl; [|done].
  case_bool_decide as Hst; [|done]. subst st.
  unfold nextState. simpl. intros [= <-].
  apply wellFormedOn_AwaitLocalBallots in Hon as [Hon _].
  unfold wellFormed. simpl. split_and!; try done.
  by rewrite <- app_assoc.
Qed.

Lemma dequeue_wellFormed f rest t :
  wellFormed t → queue t = f :: rest → f ≠ allTxnBallotsCompleteTask →
  wellFormed (setQueue rest t).
Proof.
  intros Hwf Hq Hf. wf_open t Hwf. simpl in Hq. subst q.
  unfold wellFormed. simpl. split_and!; try done.
  eapply wellFormedOn_queue; [|exact Hon].
  rewrite pendingIn_cons. by rewrite decide_False.
Qed.

Lemma missing_le_length (bs : list (option Ballot)) : (missing bs ≤ length bs)%nat.
Proof. apply length_filter. Qed.

(** The vote of an action that had none: only a voter in
    [txnAwaitLocalBallots] gets through it. *)
Lemma vote_wellFormed idx b abort t a r :
  wellFormed t →
  localActions t !! idx = Some a → localAction.ballot a = None →
  voteCast b abort (setActionBallot idx b t) = Ok r →
  wellFormed r.1.
Proof.
  intros Hwf Ha Hnone. wf_open t Hwf. simpl in Ha.
  unfold voteCast, setActionBallot. simpl.
  destruct v; simpl; [|by destruct (abort && bool_decide (pa = 0))].
  pose proof (lookup_ballot_None _ _ _ Ha Hnone) as Hidx.
  pose proof (unvoted_alter b _ _ Hidx) as Hless.
  pose proof (missing_le_length (localAction.ballot <$> acts)) as Hle.
  pose proof (lookup_lt_Some _ _ _ Ha) as Hlt.
  destruct Hon as (Hn & Hlen & Hs1 & Hph & Hpv & Hq).
  destruct (decide (st = Some txnAwaitLocalBallots)) as [->|Hst]; [|lia].
  rewrite decide_False in Hq by lia.
  assert (wrap32 (pv - 1)
          = Z.of_nat (missing (alter (λ _, Some b) idx (localAction.ballot <$> acts))))
    as Hwrap.
  { rewrite wrap32_small by lia. lia. }
  assert (∀ q', pendingIn allTxnBallotsCompleteTask q' = 0%nat →
    wellFormedOn true (Some txnAwaitLocalBallots)
      (localAction.ballot <$> alter (localAction.setBallot (Some b)) idx acts)
      (length (alter (localAction.setBallot (Some b)) idx acts))
      (wrap32 (pv - 1))
      (if bool_decide (wrap32 (pv - 1) = 0)
       then q' ++ [allTxnBallotsCompleteTask] else q') tr) as Hgoal.
  { intros q' Hq'. rewrite ballot_setBallot, !length_alter.
    split_and!; simpl; try done.
    - by rewrite length_alter.
    - case_bool_decide as Hzero.
      + rewrite pendingIn_app, Hq'. rewrite decide_True by lia. done.
      + rewrite Hq'. rewrite decide_False by lia. done. }
  destruct (abort && bool_decide (pa = 0)); simpl; intros [= <-];
    [specialize (Hgoal (q ++ [preAbortTask])) | specialize (Hgoal q)];
    destruct (bool_decide (wrap32 (pv - 1) = 0)); simpl;
    unfold wellFormed; simpl; (do 5 (split; [done|])); apply Hgoal;
    rewrite ?pendingIn_app, Hq; done.
Qed.

Lemma step_wellFormed op t t' :
  wellFormed t → step op t = Ok t' → wellFormed t'.
Proof.
  intros Hwf. destruct op as [idx c|idx c id acts|idx c subs|idx f| |o| |];
    unfold step.
  - unfold VoteDeadlock. destruct (localActions t !! idx) as [a|] eqn:Ha; [|done].
    case_bool_decide as Hb; [|by intros [= <-]].
    destruct (voteCast _ _ _) as [r|] eqn:Hv; [|done].
    intros [= <-]. by eapply vote_wellFormed.
  - unfold VoteBadRead. destruct (localActions t !! idx) as [a|] eqn:Ha; [|done].
    case_bool_decide as Hb; [|by intros [= <-]].
    destruct (voteCast _ _ _) as [r|] eqn:Hv; [|done].
    intros [= <-]. by eapply vote_wellFormed.
  - unfold VoteCommit. destruct (localActions t !! idx) as [a|] eqn:Ha; [|done].
    case_bool_decide as Hb; [|by intros [= <-]].
    destruct (voteCast _ _ _) as [r|] eqn:Hv; [|done].
    intros [= <-]. by eapply vote_wellFormed.
  - intros [= <-]. by apply SetFrame_wellFormed.
  - destruct (queue t) as [|f rest] eqn:Hq; [by intros [= <-]|].
    destruct f; unfold runTask.
    + apply preAbort_wellFormed. by eapply dequeue_wellFormed.
    + by apply allTxnBallotsComplete_wellFormed.
    + apply locallyComplete_wellFormed. by eapply dequeue_wellFormed.
  - by apply BallotOutcomeReceived_wellFormed.
  - by apply LocallyComplete_wellFormed.
  - by apply CompletionReceived_wellFormed.
Qed.

Lemma run_wellFormed ops : ∀ t t',
  wellFormed t → run ops t = Ok t' → wellFormed t'.
Proof.
  induction ops as [|op ops IH]; intros t t' Hwf; simpl.
  - by intros [= <-].
  - destruct (step op t) as [t1|] eqn:Hstep; [|done]. simpl.
    apply IH. by eapply step_wellFormed.
Qed.

Lemma Start_newTxn v id reader actions ws :
  Forall (λ a, localAction.ballot a = None) actions →
  Z.of_nat (length actions) < 2 ^ 31 →
  ∃ t, Start v (newTxn id reader actions ws) = Ok t
       ∧ wellFormed t
       ∧ voter t = v
       ∧ localActions t = actions
       ∧ queue t = []
       ∧ activeFramesCount t = Z.of_nat (length actions)
       ∧ currentState t
         = Some (if v then txnAwaitLocalBallots else txnReceiveOutcome)
       ∧ trace t
         = if v then
             [Enter txnDetermineLocalBallots; Enter txnAwaitLocalBallots]
             ++ ((λ a, ApplyToVar ReceiveTxn true (localAction.vUUId a)) <$> actions)
           else [Enter txnReceiveOutcome].
Proof.
  intros Hnone Hlen.
  assert (wrap32 (Z.of_nat (length actions)) = Z.of_nat (length actions)) as Hw
    by (apply wrap32_small; lia).
  destruct v; unfold Start, newTxn, initComponents, enterWith, startWith; simpl.
  - unfold nextState. simpl. rewrite applyToEachVar_spec. simpl.
    eexists. split; [done|]. rewrite Hw.
    unfold wellFormed. simpl. split_and!; try done.
    unfold wellFormedOn. split_and!; try done.
    + by rewrite length_fmap.
    + change (Enter txnDetermineLocalBallots :: Enter txnAwaitLocalBallots :: ?l)
        with ([Enter txnDetermineLocalBallots; Enter txnAwaitLocalBallots] ++ l).
      by rewrite phases_app, phases_ApplyToVar.
    + by rewrite unvoted_all_None.
    + rewrite decide_True by done. rewrite unvoted_all_None by done.
      by rewrite decide_False by lia.
  - eexists. split; [done|]. rewrite Hw.
    unfold wellFormed. simpl. split_and!; try done.
    unfold wellFormedOn. split_and!; try done.
    by rewrite length_fmap.
Qed.

(** ** What no event changes *)

Lemma vUUId_alter (f : localAction.t → localAction.t) idx (l : list localAction.t) :
  (∀ a, localAction.vUUId (f a) = localAction.vUUId a) →
  localAction.vUUId <$> alter f idx l = localAction.vUUId <$> l.
Proof.
  intros Hf. revert idx. induction l as [|a l IH]; intros [|idx]; simpl; [done..| |].
  - by rewrite Hf.
  - f_equal. apply IH.
Qed.

Lemma keeps_same t t' :
  voter t' = voter t → talbTxn t' = talbTxn t →
  localAction.vUUId <$> localActions t' = localAction.vUUId <$> localActions t →
  ballotsOf t' = ballotsOf t →
  keeps t t'.
Proof. intros ? ? ? Hb. unfold keeps. rewrite Hb. by split_and!. Qed.

Lemma keeps_refl t : keeps t t.
Proof. by apply keeps_same. Qed.

Lemma keeps_trans t1 t2 t3 : keeps t1 t2 → keeps t2 t3 → keeps t1 t3.
Proof.
  intros (Hv & Ht & Hu & Hl & Hb) (Hv' & Ht' & Hu' & Hl' & Hb').
  unfold keeps. split_and!; try congruence.
  - intros Hf. rewrite Hl' by congruence. by apply Hl.
  - intros idx b Hidx. by apply Hb', Hb.
Qed.

Lemma voteCast_fields b abort t r :
  voteCast b abort t = Ok r →
  talbTxn t = true ∧ voter r.1 = voter t ∧ talbTxn r.1 = talbTxn t
  ∧ localActions r.1 = localActions t.
Proof.
  destruct t as [i w acts v rd tdb pv talb pa pab tro oc ab talc afc trc comp st q tr].
  unfold voteCast. simpl.
  destruct talb; simpl; [|by destruct (abort && bool_decide (pa = 0))].
  destruct (abort && bool_decide (pa = 0)); simpl; case_bool_decide;
    by intros [= <-].
Qed.

Lemma vote_keeps idx b abort t a r :
  localActions t !! idx = Some a → localAction.ballot a = None →
  voteCast b abort (setActionBallot idx b t) = Ok r →
  keeps t r.1.
Proof.
  intros Ha Hnone Hvote.
  apply voteCast_fields in Hvote as (Htalb & Hv & Htalb' & Hacts).
  destruct t as [i w acts v rd tdb pv talb pa pab tro oc ab talc afc trc comp st q tr].
  simpl in *. unfold keeps, ballotsOf. rewrite Hacts, Hv, Htalb'. simpl.
  split_and!; try done.
  - by apply vUUId_alter.
  - by rewrite Htalb.
  - intros idx' b' Hidx'. rewrite ballot_setBallot.
    destruct (decide (idx = idx')) as [<-|Hne].
    + rewrite (lookup_ballot_None _ _ _ Ha Hnone) in Hidx'. done.
    + by rewrite list_lookup_alter_ne.
Qed.

Lemma nextState_keeps t t' : nextState t = Ok t' → keeps t t'.
Proof.
  intros Hn. apply nextState_fields in Hn.
  destruct Hn as (_ & _ & _ & Hacts & Hv & _ & _ & _ & _ & _ & _ & Htalb & _).
  apply keeps_same; unfold ballotsOf; congruence.
Qed.

Lemma setTrace_keeps tr t : keeps t (setTrace tr t).
Proof. destruct t. by apply keeps_same. Qed.

Lemma step_keeps op t t' : step op t = Ok t' → keeps t t'.
Proof.
  destruct op as [idx c|idx c id acts|idx c subs|idx f| |o| |]; unfold step.
  - unfold VoteDeadlock. destruct (localActions t !! idx) as [a|] eqn:Ha; [|done].
    case_bool_decide as Hb; [|intros [= <-]; apply keeps_refl].
    destruct (voteCast _ _ _) as [r|] eqn:Hv; [|done].
    intros [= <-]. by eapply vote_keeps.
  - unfold VoteBadRead. destruct (localActions t !! idx) as [a|] eqn:Ha; [|done].
    case_bool_decide as Hb; [|intros [= <-]; apply keeps_refl].
    destruct (voteCast _ _ _) as [r|] eqn:Hv; [|done].
    intros [= <-]. by eapply vote_keeps.
  - unfold VoteCommit. destruct (localActions t !! idx) as [a|] eqn:Ha; [|done].
    case_bool_decide as Hb; [|intros [= <-]; apply keeps_refl].
    destruct (voteCast _ _ _) as [r|] eqn:Hv; [|done].
    intros [= <-]. by eapply vote_keeps.
  - intros [= <-]. destruct t. apply keeps_same; simpl; try done.
    + by apply vUUId_alter.
    + unfold ballotsOf. simpl. apply ballot_setFrame.
  - destruct (queue t) as [|f rest] eqn:Hq; [intros [= <-]; apply keeps_refl|].
    assert (keeps t (setQueue rest t)) as Hdq by (destruct t; by apply keeps_same).
    intros Hrun. apply (keeps_trans _ _ _ Hdq). revert Hrun.
    generalize (setQueue rest t). clear. intros t.
    destruct f; unfold runTask.
    + unfold preAbort. destruct (negb (talbTxn t)); [done|].
      destruct (_ && _); [|done]. intros [= <-]. rewrite applyToEachVar_spec.
      eapply keeps_trans; [|apply setTrace_keeps].
      destruct t. by apply keeps_same.
    + unfold allTxnBallotsComplete. destruct (negb (talbTxn t)); [done|].
      case_bool_decide; [|done].
      destruct (nextState t) as [t1|] eqn:Hn; [|done]. simpl. intros [= <-].
      apply nextState_keeps in Hn. eapply keeps_trans; [exact Hn|].
      unfold emit. apply setTrace_keeps.
    + unfold locallyComplete, locallyCompleteWith. destruct (negb (talcTxn t)); [done|].
      case_bool_decide; [|intros [= <-]; apply keeps_refl].
      destruct (nextState t) as [t1|] eqn:Hn; [|done]. simpl. intros [= <-].
      apply nextState_keeps in Hn. eapply keeps_trans; [exact Hn|].
      unfold emit. apply setTrace_keeps.
  - unfold BallotOutcomeReceived.
    destruct (_ || _); [intros [= <-]; apply keeps_refl|].
    destruct (negb (troTxn t)); [done|]. destruct (negb _); [done|].
    match goal with |- context [nextState ?x] =>
      assert (keeps t x) as Hset by (destruct o, t; by apply keeps_same);
      destruct (nextState x) as [t1|] eqn:Hn; [|done] end.
    simpl. apply nextState_keeps in Hn.
    pose proof (keeps_trans _ _ _ Hset Hn) as H1.
    destruct (preAbortedBool t1); [destruct (negb (aborted t1)); [done|]; by intros [= <-]|].
    intros [= <-]. apply (keeps_trans _ _ _ H1). rewrite stampOutcome_spec.
    eapply keeps_trans; [|apply setTrace_keeps].
    destruct t1. apply keeps_same; simpl; try done.
    + rewrite <- list_fmap_compose. by apply list_fmap_ext.
    + unfold ballotsOf. simpl. apply ballot_setOutcomeClock.
  - unfold LocallyComplete.
    destruct t as [i w acts v rd tdb pv talb pa pab tro oc ab talc afc trc comp st q tr].
    simpl. destruct talc; simpl; [|done].
    case_bool_decide; [intros [= <-]; by apply keeps_same|].
    case_bool_decide; [done|]. intros [= <-]; by apply keeps_same.
  - unfold CompletionReceived. destruct (negb (trcTxn t)); [done|].
    destruct (completed t); [intros [= <-]; apply keeps_refl|].
    destruct (negb _); [done|].
    assert (keeps t (setCompleted true t)) as Hset by (destruct t; by apply keeps_same).
    revert Hset. generalize (setCompleted true t). intros t0 Hset.
    assert (∀ t1, maybeFinish t0 = Ok t1 → keeps t0 t1) as Hfin.
    { intros t1. unfold maybeFinish. destruct (_ && _); [|intros [= <-]; apply keeps_refl].
      destruct (nextState t0) as [t2|] eqn:Hn; [|done]. simpl. intros [= <-].
      apply nextState_keeps in Hn. eapply keeps_trans; [exact Hn|].
      unfold emit. apply setTrace_keeps. }
    destruct (maybeFinish t0) as [t1|]; [|done]. simpl.
    specialize (Hfin t1 eq_refl). pose proof (keeps_trans _ _ _ Hset Hfin) as H1.
    destruct (aborted t1); intros [= <-]; [done|].
    destruct (notifyGloballyComplete_quiet t1) as (new & -> & _).
    eapply keeps_trans; [exact H1|apply setTrace_keeps].
Qed.

Lemma run_keeps ops : ∀ t t', run ops t = Ok t' → keeps t t'.
Proof.
  induction ops as [|op ops IH]; intros t t'; simpl.
  - intros [= <-]. apply keeps_refl.
  - destruct (step op t) as [t1|] eqn:Hstep; [|done]. simpl. intros Hrun.
    eapply keeps_trans; [by eapply step_keeps|by apply IH].
Qed.

(** ** The life of a voter and of a learner *)

Lemma keeps_length t t' :
  keeps t t' → length (localActions t') = length (localActions t).
Proof.
  intros (_ & _ & Hu & _). apply (f_equal length) in Hu.
  by rewrite !length_fmap in Hu.
Qed.

Lemma voteCast_without_init b abort t :
  talbTxn t = false → voteCast b abort t = Fault NilDereference.
Proof.
  destruct t as [i w acts v rd tdb pv talb pa pab tro oc ab talc afc trc comp st q tr].
  unfold voteCast. simpl. intros ->. by destruct (abort && bool_decide (pa = 0)).
Qed.

(** X19. A started voter.  Whatever events arrive, as long as none of them
    panics: [pendingVote] counts the actions that have not voted;
    [allTxnBallotsComplete] waits in the queue exactly from the last vote
    until it runs; and the state entries and callbacks of the trace are
    those of [expectedPhases], so the ballots are handed up once, after
    the state has been advanced to [txnReceiveOutcome], with no nil
    ballot among them, and local completion and the end are reported
    once each, in this order. *)
Theorem voter_lifecycle id reader actions ws ops t :
  Forall (λ a, localAction.ballot a = None) actions →
  Z.of_nat (length actions) < 2 ^ 31 →
  (t0 ← Start true (newTxn id reader actions ws); run ops t0) = Ok t →
  phases (trace t) = expectedPhases true (currentState t) (ballotsOf t)
  ∧ length (ballotsOf t) = length actions
  ∧ pendingVote t = Z.of_nat (unvoted t)
  ∧ (currentState t ≠ Some txnAwaitLocalBallots → Forall is_Some (ballotsOf t))
  ∧ pendingTasks allTxnBallotsCompleteTask t
    = if decide (currentState t = Some txnAwaitLocalBallots
                 ∧ unvoted t = 0 ∧ 0 < length actions)%nat
      then 1%nat else 0%nat.
Proof.
  intros Hnone Hlen.
  destruct (Start_newTxn true id reader actions ws Hnone Hlen)
    as (t0 & -> & Hwf0 & Hv0 & Hacts0 & _).
  simpl. intros Hrun.
  pose proof (run_wellFormed _ _ _ Hwf0 Hrun) as Hwf.
  pose proof (run_keeps _ _ _ Hrun) as Hk.
  pose proof (keeps_length _ _ Hk) as Hl. rewrite Hacts0 in Hl.
  destruct Hk as (Hv & _). rewrite Hv0 in Hv.
  destruct Hwf as (_ & _ & _ & _ & _ & Hon). rewrite Hv in Hon.
  destruct Hon as (_ & Hlb & _ & Hph & Hpv & Hq).
  unfold ballotsOf, unvoted, pendingTasks. rewrite Hl in Hq.
  split_and!; try done.
  - by rewrite Hlb.
  - intros Hst. rewrite decide_False in Hq by done.
    apply unvoted_zero_Forall, Hq.
  - destruct (decide (currentState t = Some txnAwaitLocalBallots)) as [Hst|Hst].
    + rewrite Hq. case_decide as H1; case_decide as H2; try done.
      * destruct H2. by destruct H1.
      * destruct H1. by destruct H2 as (_ & ? & ?).
    + destruct Hq as [_ ->]. rewrite decide_False; [done|]. by intros [? _].
Qed.

(** X20. A learner (a Txn started with [voter] false).  Whatever events
    arrive, as long as none of them panics: it enters at
    [txnReceiveOutcome] and never hands up ballots; its actions never get
    a ballot; and a vote for any of its actions panics on the nil back
    pointer of the component that was not initialised. *)
Theorem learner_lifecycle id reader actions ws ops t :
  Forall (λ a, localAction.ballot a = None) actions →
  Z.of_nat (length actions) < 2 ^ 31 →
  (t0 ← Start false (newTxn id reader actions ws); run ops t0) = Ok t →
  phases (trace t) = Enter txnReceiveOutcome :: tailPhases (currentState t)
  ∧ currentState t ≠ Some txnDetermineLocalBallots
  ∧ currentState t ≠ Some txnAwaitLocalBallots
  ∧ ballotsOf t = replicate (length actions) None
  ∧ ∀ idx, (idx < length actions)%nat →
      (∀ clock, VoteDeadlock idx clock t = Fault NilDereference)
      ∧ (∀ clock txnId acts, VoteBadRead idx clock txnId acts t = Fault NilDereference)
      ∧ (∀ clock subs, VoteCommit idx clock subs t = Fault NilDereference).
Proof.
  intros Hnone Hlen.
  destruct (Start_newTxn false id reader actions ws Hnone Hlen)
    as (t0 & -> & Hwf0 & Hv0 & Hacts0 & _).
  simpl. intros Hrun.
  pose proof (run_wellFormed _ _ _ Hwf0 Hrun) as Hwf.
  pose proof (run_keeps _ _ _ Hrun) as Hk.
  pose proof (keeps_length _ _ Hk) as Hl. rewrite Hacts0 in Hl.
  destruct Hk as (Hv & Htalb & _ & Hb & _). rewrite Hv0 in Hv.
  destruct Hwf0 as (_ & _ & _ & _ & Htalb0 & _). rewrite Hv0 in Htalb0.
  rewrite Htalb0 in Htalb. specialize (Hb Htalb0).
  destruct Hwf as (_ & _ & _ & _ & _ & Hon). rewrite Hv in Hon.
  destruct Hon as (_ & _ & Hs1 & Hph & Hs2).
  assert (ballotsOf t = replicate (length actions) None) as Hballots.
  { rewrite Hb. unfold ballotsOf. rewrite Hacts0. clear -Hnone.
    induction Hnone as [|a l Ha _ IH]; [done|].
    rewrite fmap_cons, Ha. simpl. by f_equal. }
  split_and!; try done.
  intros idx Hidx.
  destruct (lookup_lt_is_Some_2 (localActions t) idx) as [a Ha]; [lia|].
  assert (localAction.ballot a = None) as Hnil.
  { assert (ballotsOf t !! idx = Some (localAction.ballot a)) as H1
      by (unfold ballotsOf; by rewrite list_lookup_fmap, Ha).
    rewrite Hballots in H1. apply lookup_replicate in H1 as [H1 _]. done. }
  assert (∀ b abort, voteCast b abort (setActionBallot idx b t) = Fault NilDereference)
    as Hvote.
  { intros b abort. apply voteCast_without_init. by destruct t. }
  unfold VoteDeadlock, VoteBadRead, VoteCommit. rewrite Ha, Hnil, bool_decide_eq_true_2 by done.
  split_and!; intros; by rewrite Hvote.
Qed.

Lemma voter_lifecycle_witness :
  let t := stateAfter bothVoteCommit twoWritesVoting in
  phases (trace t) = expectedPhases true (currentState t) (ballotsOf t)
  ∧ length (ballotsOf t) = 2%nat
  ∧ pendingVote t = Z.of_nat (unvoted t)
  ∧ (currentState t ≠ Some txnAwaitLocalBallots → Forall is_Some (ballotsOf t))
  ∧ pendingTasks allTxnBallotsCompleteTask t
    = if decide (currentState t = Some txnAwaitLocalBallots
                 ∧ unvoted t = 0 ∧ 0 < 2)%nat
      then 1%nat else 0%nat.
Proof.
  intros t.
  apply (voter_lifecycle T2 reader2 [writeOf W1; writeOf W2] [W1; W2] bothVoteCommit).
  - by repeat constructor.
  - by vm_compute.
  - by vm_compute.
Defined.

Lemma learner_lifecycle_witness :
  let t := stateAfter [OpBallotOutcomeReceived (Msgs.OUTCOME_COMMIT [5])]
             twoWritesLearning in
  phases (trace t) = Enter txnReceiveOutcome :: tailPhases (currentState t)
  ∧ currentState t ≠ Some txnDetermineLocalBallots
  ∧ currentState t ≠ Some txnAwaitLocalBallots
  ∧ ballotsOf t = replicate 2 None
  ∧ ∀ idx, (idx < 2)%nat →
      (∀ clock, VoteDeadlock idx clock t = Fault NilDereference)
      ∧ (∀ clock txnId acts, VoteBadRead idx clock txnId acts t = Fault NilDereference)
      ∧ (∀ clock subs, VoteCommit idx clock subs t = Fault NilDereference).
Proof.
  intros t.
  apply (learner_lifecycle T2 reader2 [writeOf W1; writeOf W2] [W1; W2]
           [OpBallotOutcomeReceived (Msgs.OUTCOME_COMMIT [5])]).
  - by repeat constructor.
  - by vm_compute.
  - by vm_compute.
Defined.

(** ** Immigration *)

(** X21. [ImmigrationTxnFromCap] never panics.  It builds a learner with one
    write action per varCap, each carrying the varCap's write clock as
    its outcome clock, enters [txnReceiveOutcome] and at once
    [txnAwaitLocallyComplete], and only then asks every variable to
    receive the outcome, creating the variable if it is missing.  The
    Txn itself records no outcome, so that an outcome delivered to it
    later panics.  With no varCap at all the Txn is locally complete
    on the spot. *)
Theorem ImmigrationTxnFromCap_learner reader varCaps :
  Z.of_nat (length varCaps) < 2 ^ 31 →
  ∃ t, ImmigrationTxnFromCap reader varCaps = Ok t
    ∧ voter t = false
    ∧ Id t = txnreader.Id reader
    ∧ localActions t = immigrantAction <$> varCaps
    ∧ writes t = (λ c, MakeVarUUId (Msgs.VarIdOf c)) <$> varCaps
    ∧ (∀ idx c, varCaps !! idx = Some c →
         ∃ a, localActions t !! idx = Some a
              ∧ localAction.vUUId a = MakeVarUUId (Msgs.VarIdOf c)
              ∧ localAction.outcomeClock a = Some (Msgs.WriteTxnClock c)
              ∧ localAction.ballot a = None
              ∧ localAction.IsImmigrant a = true)
    ∧ currentState t
      = Some (if decide (varCaps = []) then txnReceiveCompletion
              else txnAwaitLocallyComplete)
    ∧ trace t
      = [Enter txnReceiveOutcome; Enter txnAwaitLocallyComplete]
        ++ (if decide (varCaps = [])
            then [Enter txnReceiveCompletion; TxnLocallyComplete] else [])
        ++ ((λ c, ApplyToVar ReceiveTxnOutcome true (MakeVarUUId (Msgs.VarIdOf c)))
              <$> varCaps)
    ∧ queue t = []
    ∧ ¬ recorded t
    ∧ ∀ outcome, BallotOutcomeReceived outcome t = Fault (Panic OutcomeInWrongState).
Proof.
  intros Hlen.
  assert (wrap32 (Z.of_nat (length (immigrantAction <$> varCaps)))
          = Z.of_nat (length varCaps)) as Hw
    by (rewrite length_fmap; apply wrap32_small; lia).
  unfold ImmigrationTxnFromCap, Start, newTxn, initComponents, enterWith, startWith.
  simpl. unfold nextState. simpl. rewrite Hw.
  assert (∀ idx c, varCaps !! idx = Some c →
    ∃ a, (immigrantAction <$> varCaps) !! idx = Some a
         ∧ localAction.vUUId a = MakeVarUUId (Msgs.VarIdOf c)
         ∧ localAction.outcomeClock a = Some (Msgs.WriteTxnClock c)
         ∧ localAction.ballot a = None
         ∧ localAction.IsImmigrant a = true) as Hacts.
  { intros idx c Hc. exists (immigrantAction c).
    by rewrite list_lookup_fmap, Hc. }
  destruct varCaps as [|c0 caps].
  - simpl. eexists. split; [done|]. simpl. split_and!; try done. by intros [|].
  - rewrite bool_decide_eq_false_2 by (simpl; lia).
    simpl. rewrite applyToEachVar_spec. simpl.
    eexists. split; [done|]. simpl. split_and!; try done.
    + f_equal. rewrite <- list_fmap_compose. done.
    + do 3 f_equal. rewrite <- list_fmap_compose. done.
    + by intros [|].
Qed.

Lemma ImmigrationTxnFromCap_learner_witness :
  ∃ t, ImmigrationTxnFromCap reader2 threeCaps = Ok t
    ∧ voter t = false
    ∧ Id t = T2
    ∧ localActions t = immigrantAction <$> threeCaps
    ∧ writes t = (λ c, MakeVarUUId (Msgs.VarIdOf c)) <$> threeCaps
    ∧ (∀ idx c, threeCaps !! idx = Some c →
         ∃ a, localActions t !! idx = Some a
              ∧ localAction.vUUId a = MakeVarUUId (Msgs.VarIdOf c)
              ∧ localAction.outcomeClock a = Some (Msgs.WriteTxnClock c)
              ∧ localAction.ballot a = None
              ∧ localAction.IsImmigrant a = true)
    ∧ currentState t
      = Some (if decide (threeCaps = []) then txnReceiveCompletion
              else txnAwaitLocallyComplete)
    ∧ trace t
      = [Enter txnReceiveOutcome; Enter txnAwaitLocallyComplete]
        ++ (if decide (threeCaps = [])
            then [Enter txnReceiveCompletion; TxnLocallyComplete] else [])
        ++ ((λ c, ApplyToVar ReceiveTxnOutcome true (MakeVarUUId (Msgs.VarIdOf c)))
              <$> threeCaps)
    ∧ queue t = []
    ∧ ¬ recorded t
    ∧ ∀ outcome, BallotOutcomeReceived outcome t = Fault (Panic OutcomeInWrongState).
Proof.
  apply (ImmigrationTxnFromCap_learner reader2 threeCaps). by vm_compute.
Defined.

(** ** Local completion *)

Lemma run_app ops1 ops2 t :
  run (ops1 ++ ops2) t = (t' ← run ops1 t; run ops2 t').
Proof.
  revert t. induction ops1 as [|op ops1 IH]; intros t; simpl; [done|].
  destruct (step op t) as [t1|]; simpl; [apply IH|done].
Qed.

Lemma LocallyComplete_decrements k : ∀ n t,
  talcTxn t = true → activeFramesCount t = Z.of_nat (k + S n) →
  Z.of_nat (k + S n) < 2 ^ 31 →
  run (replicate k OpLocallyComplete) t
  = Ok (setActiveFramesCount (Z.of_nat (S n)) t).
Proof.
  induction k as [|k IH]; intros n t Htalc Hafc Hlt.
  - simpl in *. destruct t. simpl in *. by subst.
  - change (replicate (S k) OpLocallyComplete)
      with ([OpLocallyComplete] ++ replicate k OpLocallyComplete).
    rewrite run_app.
    assert (run [OpLocallyComplete] t
            = Ok (setActiveFramesCount (Z.of_nat (k + S n)) t)) as ->.
    { destruct t as [i w acts v rd tdb pv talb pa pab tro oc ab talc afc trc comp st q tr].
      simpl in *. subst. unfold LocallyComplete. simpl.
      rewrite wrap32_small by lia.
      rewrite !bool_decide_eq_false_2 by lia. simpl.
      do 2 f_equal. lia. }
    simpl. rewrite (IH n) by (destruct t; simpl in *; first [done|lia]).
    by destruct t.
Qed.

(** X22. [LocallyComplete] counts the frames down.  A Txn waiting for [n+1]
    frames ignores the first [n] reports but for the count; the last
    one enqueues [locallyComplete], exactly once; one report too many
    panics. *)
Theorem LocallyComplete_countdown n t :
  talcTxn t = true → activeFramesCount t = Z.of_nat (S n) →
  Z.of_nat (S n) < 2 ^ 31 →
  (∀ k, (k ≤ n)%nat →
     run (replicate k OpLocallyComplete) t
     = Ok (setActiveFramesCount (Z.of_nat (S n - k)) t))
  ∧ run (replicate (S n) OpLocallyComplete) t
    = Ok (EnqueueFuncAsync locallyCompleteTask (setActiveFramesCount 0 t))
  ∧ run (replicate (S (S n)) OpLocallyComplete) t
    = Fault (Panic ActiveFramesCountNegative).
Proof.
  intros Htalc Hafc Hlt.
  assert (run (replicate n OpLocallyComplete) t
          = Ok (setActiveFramesCount 1 t)) as Hn.
  { apply (LocallyComplete_decrements n 0); [done|rewrite Hafc|]; lia. }
  assert (run (replicate (S n) OpLocallyComplete) t
          = Ok (EnqueueFuncAsync locallyCompleteTask (setActiveFramesCount 0 t))) as HSn.
  { rewrite <- Nat.add_1_r, replicate_add, run_app, Hn.
    destruct t as [i w acts v rd tdb pv talb pa pab tro oc ab talc afc trc comp st q tr].
    simpl in *. by subst. }
  split_and!; [|done|].
  - intros k Hk.
    replace (S n - k)%nat with (S (n - k)) by lia.
    apply LocallyComplete_decrements; [done|rewrite Hafc|]; lia.
  - rewrite <- (Nat.add_1_r (S n)), replicate_add, run_app, HSn.
    destruct t as [i w acts v rd tdb pv talb pa pab tro oc ab talc afc trc comp st q tr].
    simpl in *. by subst.
Qed.

Lemma LocallyComplete_countdown_witness :
  let t := stateAfter [OpBallotOutcomeReceived (Msgs.OUTCOME_COMMIT [5])]
             (stateAfter bothVoteCommit twoWritesVoting) in
  (∀ k, (k ≤ 1)%nat →
     run (replicate k OpLocallyComplete) t
     = Ok (setActiveFramesCount (Z.of_nat (2 - k)) t))
  ∧ run (replicate 2 OpLocallyComplete) t
    = Ok (EnqueueFuncAsync locallyCompleteTask (setActiveFramesCount 0 t))
  ∧ run (replicate 3 OpLocallyComplete) t
    = Fault (Panic ActiveFramesCountNegative).
Proof.
  intros t. apply (LocallyComplete_countdown 1 t); by vm_compute.
Defined.

(** ** The ballots of a voter and the outcome *)

Lemma pendingIn_zero f q : pendingIn f q = 0%nat → f ∉ q.
Proof.
  unfold pendingIn. intros Hz Hin.
  assert (f ∈ filter (λ g, g = f) q) as Hf by (by apply list_elem_of_filter).
  destruct (filter (λ g, g = f) q); [by apply elem_of_nil in Hf|done].
Qed.

(** X23. When [allTxnBallotsComplete] comes up in the queue of a voter it
    never panics: the Txn is still in [txnAwaitLocalBallots], every
    action has voted, the state is advanced first and then all the
    ballots, one per action, are handed up; the function is not queued
    a second time. *)
Theorem allTxnBallotsComplete_hands_up_all id reader actions ws ops t rest :
  Forall (λ a, localAction.ballot a = None) actions →
  Z.of_nat (length actions) < 2 ^ 31 →
  (t0 ← Start true (newTxn id reader actions ws); run ops t0) = Ok t →
  queue t = allTxnBallotsCompleteTask :: rest →
  ∃ t', step OpRunTask t = Ok t'
    ∧ currentState t = Some txnAwaitLocalBallots
    ∧ currentState t' = Some txnReceiveOutcome
    ∧ trace t' = trace t ++ [Enter txnReceiveOutcome; TxnBallotsComplete (ballotsOf t)]
    ∧ length (ballotsOf t) = length actions
    ∧ Forall is_Some (ballotsOf t)
    ∧ localActions t' = localActions t
    ∧ queue t' = rest
    ∧ allTxnBallotsCompleteTask ∉ rest.
Proof.
  intros Hnone Hlen.
  destruct (Start_newTxn true id reader actions ws Hnone Hlen)
    as (t0 & -> & Hwf0 & Hv0 & Hacts0 & _).
  simpl. intros Hrun Hq.
  pose proof (run_wellFormed _ _ _ Hwf0 Hrun) as Hwf.
  pose proof (run_keeps _ _ _ Hrun) as Hk.
  pose proof (keeps_length _ _ Hk) as Hl. rewrite Hacts0 in Hl.
  destruct Hk as (Hv & _). rewrite Hv0 in Hv. clear Hrun Hwf0 Hv0 Hacts0 t0.
  wf_open t Hwf. simpl in *. subst v q.
  destruct Hon as (_ & Hlb & _ & _ & _ & Hq).
  rewrite pendingIn_cons in Hq.
  destruct (decide (allTxnBallotsCompleteTask = allTxnBallotsCompleteTask)); [|done].
  destruct (decide (st = Some txnAwaitLocalBallots)) as [->|Hst]; [|lia].
  destruct (decide (_ ∧ _)) as [[Hmiss Hn]|]; [|lia].
  unfold allTxnBallotsComplete, nextState. simpl.
  eexists. split; [done|]. simpl. unfold ballotsOf. simpl.
  split_and!; try done.
  - by rewrite <- app_assoc.
  - by rewrite Hlb.
  - by apply unvoted_zero_Forall.
  - apply pendingIn_zero. lia.
Qed.

Lemma allTxnBallotsComplete_hands_up_all_witness :
  let t := stateAfter [OpVoteCommit 0 (Some [1]) None; OpVoteCommit 1 (Some [2]) None]
             twoWritesVoting in
  ∃ t', step OpRunTask t = Ok t'
    ∧ currentState t = Some txnAwaitLocalBallots
    ∧ currentState t' = Some txnReceiveOutcome
    ∧ trace t' = trace t ++ [Enter txnReceiveOutcome; TxnBallotsComplete (ballotsOf t)]
    ∧ length (ballotsOf t) = 2%nat
    ∧ Forall is_Some (ballotsOf t)
    ∧ localActions t' = localActions t
    ∧ queue t' = []
    ∧ allTxnBallotsCompleteTask ∉ ([] : list Task).
Proof.
  intros t.
  apply (allTxnBallotsComplete_hands_up_all T2 reader2 [writeOf W1; writeOf W2] [W1; W2]
           [OpVoteCommit 0 (Some [1]) None; OpVoteCommit 1 (Some [2]) None]).
  - by repeat constructor.
  - by vm_compute.
  - by vm_compute.
  - by vm_compute.
Defined.

(** X24. The first outcome of a started Txn that was not pre-aborted.  Too
    early (the Txn is not in [txnReceiveOutcome]) it panics.  Otherwise
    the outcome is recorded, the state is advanced first (an abort, or a
    Txn that waits for no frame, is locally complete at once), and then
    every action gets the outcome clock and its variable is asked to
    receive the outcome, to be created if missing only for a learner. *)
Theorem BallotOutcomeReceived_first outcome t :
  started t → ¬ recorded t → preAbortedBool t = false →
  (currentState t ≠ Some txnReceiveOutcome →
   BallotOutcomeReceived outcome t = Fault (Panic OutcomeInWrongState))
  ∧ (currentState t = Some txnReceiveOutcome →
     let clock := match outcome with
                  | Msgs.OUTCOME_COMMIT data => Some data
                  | Msgs.OUTCOME_ABORT => None
                  end in
     let done := bool_decide (clock = None) || bool_decide (activeFramesCount t = 0) in
     ∃ t', BallotOutcomeReceived outcome t = Ok t'
       ∧ outcomeClock t' = clock
       ∧ aborted t' = bool_decide (clock = None)
       ∧ localActions t' = localAction.setOutcomeClock clock <$> localActions t
       ∧ currentState t'
         = Some (if done then txnReceiveCompletion else txnAwaitLocallyComplete)
       ∧ queue t' = queue t
       ∧ trace t'
         = trace t ++ [Enter txnAwaitLocallyComplete]
           ++ (if done then [Enter txnReceiveCompletion; TxnLocallyComplete] else [])
           ++ ((λ a, ApplyToVar ReceiveTxnOutcome (negb (voter t)) (localAction.vUUId a))
                 <$> localActions t)).
Proof.
  intros (Htro & Htalc & Htrc) Hrec Hpab.
  destruct t as [i w acts v rd tdb pv talb pa pab tro oc ab talc afc trc comp st q tr].
  unfold recorded in Hrec. simpl in *. subst.
  destruct oc; [exfalso; apply Hrec; by left|].
  destruct ab; [exfalso; apply Hrec; by right|].
  unfold BallotOutcomeReceived. simpl. split.
  - intros Hst. by rewrite bool_decide_eq_false_2.
  - intros ->. simpl. unfold nextState.
    destruct outcome as [data|]; simpl.
    + case_bool_decide; simpl; rewrite stampOutcome_spec; simpl;
        (eexists; split; [done|]); simpl; split_and!; try done;
        by rewrite <- !app_assoc.
    + rewrite stampOutcome_spec; simpl.
      eexists; split; [done|]. simpl. split_and!; try done.
      by rewrite <- !app_assoc.
Qed.

Lemma BallotOutcomeReceived_first_witness :
  let t := stateAfter bothVoteCommit twoWritesVoting in
  ∃ t', BallotOutcomeReceived (Msgs.OUTCOME_COMMIT [5]) t = Ok t'
    ∧ outcomeClock t' = Some [5]
    ∧ localActions t' = localAction.setOutcomeClock (Some [5]) <$> localActions t
    ∧ currentState t' = Some txnAwaitLocallyComplete.
Proof.
  intros t.
  assert (started t ∧ ¬ recorded t ∧ preAbortedBool t = false
          ∧ currentState t = Some txnReceiveOutcome
          ∧ activeFramesCount t = 2) as (Hs & Hr & Hp & Hst & Hafc).
  { split_and!; try by vm_compute. by intros [|]. }
  clearbody t.
  destruct (BallotOutcomeReceived_first (Msgs.OUTCOME_COMMIT [5]) t Hs Hr Hp)
    as [_ Hfirst].
  destruct (Hfirst Hst) as (t' & H1 & H2 & _ & H3 & H4 & _).
  rewrite Hafc in H4. exists t'. split_and!; done.
Defined.

(** ** Completion *)

Lemma notifyGloballyComplete_spec t :
  notifyGloballyComplete t
  = setTrace
      (trace t ++ ((λ a, ApplyToVar TxnGloballyComplete false (localAction.vUUId a))
                     <$> filter (λ a, is_Some (localAction.frame a)) (localActions t)))
      t.
Proof.
  unfold notifyGloballyComplete.
  generalize (localActions t) as l. intros l. revert t.
  induction l as [|a l IH]; intros t.
  - simpl. rewrite app_nil_r. by destruct t.
  - rewrite filter_cons. simpl. destruct (localAction.frame a) as [f|] eqn:Hf.
    + rewrite decide_True by (by eexists). rewrite IH. destruct t. simpl.
      by rewrite <- app_assoc.
    + rewrite decide_False by (by intros [? ?]). apply IH.
Qed.

(** X25. [CompletionReceived] on a started Txn that is not yet completed.
    Too early (the Txn is not in [txnReceiveCompletion]) it panics.
    Otherwise the Txn is marked completed and leaves its last state,
    [TxnFinished] is reported, and unless the Txn aborted the variable
    of every action that has a frame is told, in the order of the
    actions.  Every later call changes nothing, and the state machine
    cannot be advanced again. *)
Theorem CompletionReceived_first t :
  trcTxn t = true → completed t = false →
  (currentState t ≠ Some txnReceiveCompletion →
   CompletionReceived t = Fault (Panic CompletionInWrongState))
  ∧ (currentState t = Some txnReceiveCompletion →
     ∃ t', CompletionReceived t = Ok t'
       ∧ completed t' = true
       ∧ currentState t' = None
       ∧ localActions t' = localActions t
       ∧ queue t' = queue t
       ∧ trace t'
         = trace t ++ [TxnFinished]
           ++ (if aborted t then []
               else (λ a, ApplyToVar TxnGloballyComplete false (localAction.vUUId a))
                      <$> filter (λ a, is_Some (localAction.frame a)) (localActions t))
       ∧ CompletionReceived t' = Ok t'
       ∧ nextState t' = Fault (Panic NextStateInTerminalState)).
Proof.
  intros Htrc Hcomp.
  destruct t as [i w acts v rd tdb pv talb pa pab tro oc ab talc afc trc comp st q tr].
  simpl in *. subst. unfold CompletionReceived. simpl. split.
  - intros Hst. by rewrite bool_decide_eq_false_2.
  - intros ->. simpl. unfold maybeFinish, nextState. simpl.
    destruct ab; simpl.
    + eexists. split; [done|]. simpl. split_and!; done.
    + rewrite notifyGloballyComplete_spec. simpl.
      eexists. split; [done|]. simpl. split_and!; try done.
      by rewrite <- app_assoc.
Qed.

Lemma CompletionReceived_first_witness :
  let t := stateAfter [OpBallotOutcomeReceived Msgs.OUTCOME_ABORT]
             (stateAfter bothVoteDeadlock twoWritesVoting) in
  ∃ t', CompletionReceived t = Ok t'
    ∧ completed t' = true
    ∧ currentState t' = None
    ∧ trace t' = trace t ++ [TxnFinished]
    ∧ CompletionReceived t' = Ok t'.
Proof.
  intros t.
  assert (trcTxn t = true ∧ completed t = false
          ∧ currentState t = Some txnReceiveCompletion ∧ aborted t = true)
    as (Htrc & Hcomp & Hst & Hab) by (split_and!; by vm_compute).
  clearbody t.
  destruct (CompletionReceived_first t Htrc Hcomp) as [_ Hfirst].
  destruct (Hfirst Hst) as (t' & H1 & H2 & H3 & _ & _ & H4 & H5 & _).
  exists t'. rewrite Hab in H4. simpl in H4. split_and!; done.
Defined.

(** ** Building a Txn from the transaction *)

Lemma setId_fixed id a : localAction.Id a = id → setId id a = a.
Proof. intros <-. by destruct a. Qed.

Lemma alter_fixed {A} (f : A → A) k (l : list A) :
  Forall (λ x, f x = x) l → alter f k l = l.
Proof.
  intros Hl. revert k. induction Hl as [|x l Hx _ IH]; intros [|k]; simpl; [done..| |].
  - by rewrite Hx.
  - f_equal. apply IH.
Qed.

(** The loop once every action index has been met: only [writes]
    grows. *)
Lemma populateLoop_exhausted txnId indices post : ∀ idx L k n ai W,
  Forall (λ a, localAction.Id a = Some txnId) L →
  ai < Z.of_nat idx →
  Forall (λ j, j < Z.of_nat idx) indices →
  ∃ s, populateLoop txnId indices idx post
         {| pLocalActions := L; pAction := Some k; pActionIndicesIdx := n;
            pActionIndex := ai; pWrites := W |} = inr s
       ∧ pLocalActions s = L ∧ pActionIndicesIdx s = n
       ∧ pWrites s = W ++ writesFrom indices idx post.
Proof.
  induction post as [|cap post IH]; intros idx L k n ai W HL Hai Hidx; simpl.
  - eexists. split; [done|]. simpl. by rewrite app_nil_r.
  - rewrite decide_False by lia.
    rewrite alter_fixed
      by (eapply Forall_impl; [exact HL|]; intros a Ha; by apply setId_fixed).
    rewrite (decide_False (P := Z.of_nat idx ∈ indices)).
    2: { intros Hin. rewrite Forall_forall in Hidx. apply Hidx in Hin. lia. }
    destruct (IH (S idx) L k n ai
                (if remoteIsWrite cap then W ++ [MakeVarUUId (capVarId cap)] else W))
      as (s & -> & HsL & Hsn & HsW); [done|lia| |].
    { eapply Forall_impl; [exact Hidx|]. simpl. intros; lia. }
    exists s. split; [done|]. split; [done|]. split; [done|].
    rewrite HsW. destruct (remoteIsWrite cap); by rewrite <- ?app_assoc.
Qed.

Lemma localsOf_Id txnId actions indices :
  Forall (λ a, localAction.Id a = Some txnId) (localsOf txnId actions indices).
Proof. unfold localsOf. apply Forall_fmap, Forall_forall. done. Qed.

Lemma localsOf_snoc txnId actions done i :
  localsOf txnId actions (done ++ [i])
  = localsOf txnId actions done ++ [localOf txnId (actions !!! Z.to_nat i)].
Proof. unfold localsOf. by rewrite fmap_app. Qed.

Lemma alter_at_end {A} (f : A → A) (l1 : list A) x l2 k :
  k = length l1 → alter f k (l1 ++ x :: l2) = l1 ++ f x :: l2.
Proof.
  intros ->. rewrite <- (Nat.add_0_r (length l1)). by rewrite alter_app_r.
Qed.

Lemma lookup_total_middle (pre post : list ActionCap) cap :
  (pre ++ cap :: post) !!! length pre = cap.
Proof. apply list_lookup_total_correct, list_lookup_middle. done. Qed.

(** The loop while action indices are still to be met. *)
Lemma populateLoop_main txnId indices actions post : ∀ pre done i todo x W,
  actions = pre ++ post →
  indices = done ++ i :: todo →
  Forall (λ j, j < Z.of_nat (length pre)) done →
  Z.of_nat (length pre) ≤ i →
  increasing (i :: todo) →
  Forall (λ j, j < Z.of_nat (length actions)
               ∧ ∀ which, capValue (actions !!! Z.to_nat j) ≠ ACTIONVALUE_OTHER which)
    (i :: todo) →
  x = localAction.zero ∨ x = setId (Some txnId) localAction.zero →
  ∃ s, populateLoop txnId indices (length pre) post
         {| pLocalActions := localsOf txnId actions done
                             ++ x :: replicate (length todo) localAction.zero;
            pAction := Some (length done); pActionIndicesIdx := length done;
            pActionIndex := i; pWrites := W |} = inr s
       ∧ pLocalActions s = localsOf txnId actions indices
       ∧ pActionIndicesIdx s = length indices
       ∧ pWrites s = W ++ writesFrom indices (length pre) post.
Proof.
  induction post as [|cap post IH];
    intros pre done i todo x W Hacts Hinds Hdone Hi Hinc Hok Hx.
  - apply Forall_cons in Hok as [[Hlt _] _].
    rewrite Hacts, app_nil_r in Hlt. lia.
  - assert (setId (Some txnId) x = setId (Some txnId) localAction.zero) as Hx'
      by (by destruct Hx as [->| ->]).
    assert (length (localsOf txnId actions done) = length done) as Hlen
      by (unfold localsOf; by rewrite length_fmap).
    assert (actions = (pre ++ [cap]) ++ post) as Hacts'
      by (by rewrite <- app_assoc).
    assert (length (pre ++ [cap]) = S (length pre)) as Hpre
      by (rewrite length_app; simpl; lia).
    simpl. rewrite alter_at_end, Hx' by done.
    destruct Hinc as [Hgt Hinc].
    case_decide as Hhit.
    + assert (actions !!! Z.to_nat i = cap) as Hcap.
      { rewrite <- Hhit, Nat2Z.id, Hacts. apply lookup_total_middle. }
      assert (Z.of_nat (length pre) ∈ indices) as Hin.
      { rewrite Hinds, Hhit. apply elem_of_app. right. left. }
      rewrite (decide_True (P := Z.of_nat (length pre) ∈ indices)) by done.
      apply Forall_cons in Hok as [[_ Hval] Hok]. rewrite Hcap in Hval.
      assert (∀ s0,
        (∃ s, populateLoop txnId indices (S (length pre)) post s0 = inr s
              ∧ pLocalActions s = localsOf txnId actions indices
              ∧ pActionIndicesIdx s = length indices
              ∧ pWrites s
                = pWrites s0 ++ writesFrom indices (S (length pre)) post) →
        pWrites s0 = (if localIsWrite cap
                      then W ++ [MakeVarUUId (capVarId cap)] else W) →
        ∃ s, populateLoop txnId indices (S (length pre)) post s0 = inr s
             ∧ pLocalActions s = localsOf txnId actions indices
             ∧ pActionIndicesIdx s = length indices
             ∧ pWrites s
               = W ++ (if localIsWrite cap then [MakeVarUUId (capVarId cap)] else [])
                   ++ writesFrom indices (S (length pre)) post) as Hwrap.
      { intros s0 (s & Hs & HL & Hn & HW) HW0. exists s.
        split; [done|]. split; [done|]. split; [done|].
        rewrite HW, HW0. destruct (localIsWrite cap); by rewrite <- ?app_assoc. }
      assert (∃ s, populateLoop txnId indices (S (length pre)) post
                match indices !! S (length done) with
                | Some i0 =>
                    {| pLocalActions :=
                         alter (fillLocal cap) (length done)
                           (localsOf txnId actions done
                            ++ setId (Some txnId) localAction.zero
                               :: replicate (length todo) localAction.zero);
                       pAction := Some (S (length done));
                       pActionIndicesIdx := S (length done);
                       pActionIndex := i0;
                       pWrites := if localIsWrite cap
                                  then W ++ [MakeVarUUId (capVarId cap)] else W |}
                | None =>
                    {| pLocalActions :=
                         alter (fillLocal cap) (length done)
                           (localsOf txnId actions done
                            ++ setId (Some txnId) localAction.zero
                               :: replicate (length todo) localAction.zero);
                       pAction := Some (length done);
                       pActionIndicesIdx := S (length done);
                       pActionIndex := i;
                       pWrites := if localIsWrite cap
                                  then W ++ [MakeVarUUId (capVarId cap)] else W |}
                end = inr s
              ∧ pLocalActions s = localsOf txnId actions indices
              ∧ pActionIndicesIdx s = length indices
              ∧ pWrites s
                = W ++ (if localIsWrite cap then [MakeVarUUId (capVarId cap)] else [])
                    ++ writesFrom indices (S (length pre)) post) as Hgoal.
      { rewrite alter_at_end by done.
        change (fillLocal cap (setId (Some txnId) localAction.zero))
          with (localOf txnId cap).
        assert (indices !! S (length done) = todo !! 0%nat) as ->.
        { rewrite Hinds. rewrite lookup_app_r by lia.
          by replace (S (length done) - length done)%nat with 1%nat by lia. }
        destruct todo as [|i' todo']; simpl.
        - apply Hwrap; [|done].
          destruct (populateLoop_exhausted txnId indices post (S (length pre))
                      (localsOf txnId actions done ++ [localOf txnId cap])
                      (length done) (S (length done)) i
                      (if localIsWrite cap
                       then W ++ [MakeVarUUId (capVarId cap)] else W))
            as (s & Hs & HL & Hn & HW).
          { apply Forall_app. split; [apply localsOf_Id|]. by constructor. }
          { lia. }
          { rewrite Hinds. apply Forall_app. split.
            - eapply Forall_impl; [exact Hdone|]. simpl. intros; lia.
            - constructor; [lia|constructor]. }
          exists s. split; [done|]. rewrite HL, Hn, HW.
          rewrite Hinds, localsOf_snoc, Hcap, length_app. simpl.
          split_and!; [done|lia|done].
        - apply Hwrap; [|done].
          apply Forall_cons in Hgt as [Hi' Hgt].
          destruct (IH (pre ++ [cap]) (done ++ [i]) i' todo' localAction.zero
                      (if localIsWrite cap
                       then W ++ [MakeVarUUId (capVarId cap)] else W))
            as (s & Hs & HL & Hn & HW); try done.
          { by rewrite Hinds, <- app_assoc. }
          { rewrite Hpre. apply Forall_app. split.
            - eapply Forall_impl; [exact Hdone|]. simpl. intros; lia.
            - constructor; [lia|constructor]. }
          { rewrite Hpre. lia. }
          { by left. }
          rewrite Hpre, localsOf_snoc, Hcap, length_app, <- app_assoc in Hs.
          simpl in Hs. rewrite Nat.add_1_r in Hs.
          exists s. split; [exact Hs|]. rewrite Hpre in HW. done. }
      destruct (capValue cap) as [positions|actionRead modify|which] eqn:Hvalue;
        [exact Hgoal|exact Hgoal|by destruct (Hval which)].
    + assert (Z.of_nat (length pre) ∉ indices) as Hnotin.
      { rewrite Hinds. intros [Hin|Hin]%elem_of_app.
        - rewrite Forall_forall in Hdone. apply Hdone in Hin. lia.
        - apply elem_of_cons in Hin as [?|Hin]; [done|].
          rewrite Forall_forall in Hgt. apply Hgt in Hin. lia. }
      rewrite (decide_False (P := Z.of_nat (length pre) ∈ indices)) by done.
      destruct (IH (pre ++ [cap]) done i todo (setId (Some txnId) localAction.zero)
                  (if remoteIsWrite cap
                   then W ++ [MakeVarUUId (capVarId cap)] else W))
        as (s & Hs & HL & Hn & HW); try done.
      { rewrite Hpre. eapply Forall_impl; [exact Hdone|]. simpl. intros; lia. }
      { rewrite Hpre. lia. }
      { by right. }
      rewrite Hpre in Hs, HW. exists s. split; [exact Hs|].
      split; [done|]. split; [done|].
      rewrite HW. destruct (remoteIsWrite cap); by rewrite <- ?app_assoc.
Qed.

Lemma populate_ok indices actions txn :
  populatable indices actions →
  indices ≠ [] →
  ∃ txn', populate indices actions txn = inr txn'
    ∧ localActions txn' = localsOf (Id txn) actions indices
    ∧ writes txn' = writes txn ++ writesFrom indices 0 actions
    ∧ Id txn' = Id txn ∧ TxnReader txn' = TxnReader txn
    ∧ currentState txn' = currentState txn
    ∧ queue txn' = queue txn ∧ trace txn' = trace txn.
Proof.
  intros [Hinc Hok] Hne. destruct indices as [|i todo]; [done|]. clear Hne.
  unfold populate.
  destruct (populateLoop_main (Id txn) (i :: todo) actions actions [] [] i todo
              localAction.zero (writes txn))
    as (s & Hs & HL & Hn & HW); try done.
  { apply Forall_cons in Hok as [[[? _] _] _]. simpl. lia. }
  { eapply Forall_impl; [exact Hok|]. simpl. intros j [[_ ?] ?]. done. }
  { by left. }
  simpl in Hs. simpl. rewrite Hs, Hn. simpl.
  rewrite decide_False by (intros Hneq; by apply Hneq).
  eexists. split; [done|]. simpl. rewrite HL, HW. done.
Qed.

(** X26. [populate] for the action indices of an allocation that
    increase strictly and each name a create or an existing action of
    the transaction: it never panics; it makes one local action per
    index, in order, each carrying the TxnId, the variable and the
    create, read, write, roll and subscription marks of the action at
    that index and no ballot; and it appends to [writes] the variable
    of every action of the transaction that writes, those of other RMs
    included, in the order of the actions. *)
Theorem populate_local_actions indices actions txn :
  populatable indices actions →
  indices ≠ [] →
  ∃ txn', populate indices actions txn = inr txn'
    ∧ localActions txn' = localsOf (Id txn) actions indices
    ∧ length (localActions txn') = length indices
    ∧ Forall (λ a, localAction.Id a = Some (Id txn)
                   ∧ localAction.ballot a = None
                   ∧ localAction.frame a = None) (localActions txn')
    ∧ writes txn' = writes txn ++ writesFrom indices 0 actions
    ∧ Id txn' = Id txn ∧ TxnReader txn' = TxnReader txn
    ∧ currentState txn' = currentState txn
    ∧ queue txn' = queue txn ∧ trace txn' = trace txn.
Proof.
  intros Hpop Hne.
  destruct (populate_ok indices actions txn Hpop Hne)
    as (txn' & Hrun & HL & HW & ? & ? & ? & ? & ?).
  exists txn'. rewrite HL. split_and!; try done.
  - unfold localsOf. by rewrite length_fmap.
  - unfold localsOf. apply Forall_fmap, Forall_forall. done.
Qed.

Lemma populate_local_actions_witness :
  ∃ txn', populate [0; 2] threeActions twoWrites = inr txn'
    ∧ localActions txn' = localsOf T2 threeActions [0; 2]
    ∧ writes txn' = [W1; W2] ++ writesFrom [0; 2] 0 threeActions.
Proof.
  destruct (populate_local_actions [0; 2] threeActions twoWrites)
    as (txn' & Hrun & HL & _ & _ & HW & _).
  - split; [simpl; repeat constructor; lia|].
    repeat constructor; simpl; try lia; done.
  - done.
  - by exists txn'.
Defined.

Lemma populateFor_first ourRMId allocations actions txn :
  populateFor ourRMId allocations actions txn
  = match Paxos.AllocForRMId_from allocations ourRMId with
    | None => inr txn
    | Some alloc => populate (Msgs.ActionIndices alloc) actions txn
    end.
Proof.
  induction allocations as [|alloc rest IH]; [done|]. simpl.
  destruct (decide (ourRMId = Msgs.RmId alloc)) as [->|Hne].
  - by rewrite decide_True.
  - by rewrite decide_False.
Qed.

(** X27. [TxnFromReader] looks at the first allocation that names this
    RM and at no other.  With none, the Txn has no local action and its
    [writes] stay empty, whatever the transaction writes.  With an
    allocation that has no action index, it panics on the nil action as
    soon as the transaction has an action.  With action indices that
    [populate] can work with, the Txn has the local actions of those
    indices and the variables written by the whole transaction. *)
Theorem TxnFromReader_first_allocation ourRMId reader actions :
  let id := txnreader.Id reader in
  match Paxos.AllocForRMId_from (Msgs.Allocations (txnreader.Txn reader)) ourRMId with
  | None => TxnFromReader ourRMId reader actions = inr (newTxn id reader [] [])
  | Some alloc =>
      let indices := Msgs.ActionIndices alloc in
      (indices = [] →
       TxnFromReader ourRMId reader actions
       = if decide (actions = []) then inr (newTxn id reader [] [])
         else inl ActionIsNil)
      ∧ (indices ≠ [] → populatable indices actions →
         TxnFromReader ourRMId reader actions
         = inr (newTxn id reader (localsOf id actions indices)
                  (writesFrom indices 0 actions)))
  end.
Proof.
  intros id. unfold TxnFromReader. rewrite populateFor_first.
  destruct (Paxos.AllocForRMId_from _ _) as [alloc|]; [|done].
  split.
  - intros ->. unfold populate. simpl. by destruct actions.
  - intros Hne Hpop.
    destruct (populate_ok (Msgs.ActionIndices alloc) actions
                (newTxn (txnreader.Id reader) reader [] []) Hpop Hne)
      as (txn' & Hrun & HL & HW & _).
    rewrite Hrun. f_equal.
    unfold populate in Hrun.
    destruct (populateLoop _ _ _ _ _) as [|s]; [done|].
    case_decide; [done|]. injection Hrun as <-. simpl in *.
    unfold newTxn. by rewrite HL, HW.
Qed.

(** ** What the predicates of a local action say *)

(** X28. The predicates on the local actions [populate] and
    [ImmigrationTxnFromCap] build.  [populate] lists the variable of a
    local action in [writes] exactly when the action is a create or
    [IsWrite] holds of it (a create alone does not make [IsWrite]
    true); [IsNoopWrite] is [IsWrite] without the write mark; [IsMeta]
    implies [IsWrite]; [IsRead] holds exactly for an existing action
    with a non-empty read version; no such action is an immigrant.
    The action of an immigrant variable is a plain write: [IsWrite] and
    [IsImmigrant] hold of it, the other three do not. *)
Theorem localOf_predicates txnId actionCap :
  let a := localOf txnId actionCap in
  localIsWrite actionCap
  = localAction.IsWrite a || bool_decide (localAction.create a ≠ None)
  ∧ localAction.IsNoopWrite a
    = localAction.IsWrite a && negb (localAction.write a)
  ∧ (localAction.IsMeta a = true → localAction.IsWrite a = true)
  ∧ (localAction.IsRead a = true
     ↔ ∃ actionRead modify,
         capValue actionCap = ACTIONVALUE_EXISTING actionRead modify
         ∧ actionRead ≠ [])
  ∧ localAction.IsImmigrant a = false
  ∧ ∀ varCap,
      let i := immigrantAction varCap in
      localAction.IsImmigrant i = true ∧ localAction.IsWrite i = true
      ∧ localAction.IsRead i = false ∧ localAction.IsNoopWrite i = false
      ∧ localAction.IsMeta i = false.
Proof.
  destruct actionCap as [v value addSub delSub].
  unfold localOf, fillLocal, localIsWrite, localAction.IsWrite,
    localAction.IsNoopWrite, localAction.IsMeta, localAction.IsRead,
    localAction.IsImmigrant.
  simpl. split_and!.
  - destruct value as [positions|actionRead [| |]|which], addSub;
      simpl; repeat case_decide; by vm_compute.
  - destruct value as [positions|actionRead [| |]|which], addSub;
      simpl; repeat case_decide; by vm_compute.
  - destruct value as [positions|actionRead [| |]|which], addSub;
      simpl; repeat case_decide; by vm_compute.
  - destruct value as [positions|actionRead modify|which]; simpl.
    + split; [by vm_compute|]. by intros (? & ? & ? & ?).
    + case_decide as Hlen; simpl.
      * split; [|done]. intros _. exists actionRead, modify. split; [done|].
        by destruct actionRead.
      * split; [by vm_compute|]. intros (r & m & [= <- <-] & Hr).
        by destruct actionRead.
    + split; [by vm_compute|]. by intros (? & ? & ? & ?).
  - done.
  - intros varCap. by vm_compute.
Qed.

(** ** Votes *)

(** X29. Whatever events a Txn goes through, as long as none of them
    panics: it keeps voting or not voting, its actions keep their
    variables, and a ballot once cast stays as it is; a second vote
    for an action that has its ballot changes nothing, and
    [VoteCommit] then answers false. *)
Theorem ballot_cast_once ops t t' :
  run ops t = Ok t' →
  voter t' = voter t
  ∧ localAction.vUUId <$> localActions t' = localAction.vUUId <$> localActions t
  ∧ (∀ idx b, ballotsOf t !! idx = Some (Some b) →
       ballotsOf t' !! idx = Some (Some b))
  ∧ (∀ idx b, ballotsOf t' !! idx = Some (Some b) →
       (∀ clock, VoteDeadlock idx clock t' = Ok t')
       ∧ (∀ clock txnId acts, VoteBadRead idx clock txnId acts t' = Ok t')
       ∧ (∀ clock subs, VoteCommit idx clock subs t' = Ok (t', false))).
Proof.
  intros (Hv & _ & Hu & _ & Hb)%run_keeps. split_and!; try done.
  intros idx b Hidx. unfold ballotsOf in Hidx.
  rewrite list_lookup_fmap in Hidx.
  destruct (localActions t' !! idx) as [a|] eqn:Ha; [|done].
  simpl in Hidx. injection Hidx as Hidx.
  unfold VoteDeadlock, VoteBadRead, VoteCommit. rewrite Ha, Hidx.
  by rewrite bool_decide_eq_false_2.
Qed.

Lemma ballot_cast_once_witness :
  let t := stateAfter [OpVoteCommit 0 (Some [1]) None] twoWritesVoting in
  let t' := stateAfter [OpVoteDeadlock 1 None; OpRunTask; OpRunTask] t in
  ballotsOf t' !! 0%nat = Some (Some (NewBallot W1 Commit (Some [1]) None))
  ∧ VoteDeadlock 0 None t' = Ok t'.
Proof.
  intros t t'.
  destruct (ballot_cast_once [OpVoteDeadlock 1 None; OpRunTask; OpRunTask] t t')
    as (_ & _ & Hkeep & Hagain).
  { by vm_compute. }
  assert (ballotsOf t' !! 0%nat = Some (Some (NewBallot W1 Commit (Some [1]) None)))
    as Hb by (apply Hkeep; by vm_compute).
  split; [exact Hb|]. by apply (Hagain _ _ Hb).
Defined.

(** ** Starting a Txn *)

(** X30. [Start] never panics on a Txn fresh from its constructor
    (with fewer than 2^31 actions).  A voter enters
    [txnDetermineLocalBallots] and is advanced to
    [txnAwaitLocalBallots] before the first variable is asked to
    receive the transaction; then every action's variable is asked, in
    order, to be created if missing; it expects one vote and one frame
    per action.  A learner enters [txnReceiveOutcome] and asks
    nothing. *)
Theorem Start_first_state v id reader actions ws :
  Z.of_nat (length actions) < 2 ^ 31 →
  ∃ t, Start v (newTxn id reader actions ws) = Ok t
       ∧ voter t = v
       ∧ localActions t = actions
       ∧ queue t = []
       ∧ activeFramesCount t = Z.of_nat (length actions)
       ∧ pendingVote t = (if v then Z.of_nat (length actions) else 0)
       ∧ currentState t
         = Some (if v then txnAwaitLocalBallots else txnReceiveOutcome)
       ∧ trace t
         = if v then
             [Enter txnDetermineLocalBallots; Enter txnAwaitLocalBallots]
             ++ ((λ a, ApplyToVar ReceiveTxn true (localAction.vUUId a)) <$> actions)
           else [Enter txnReceiveOutcome].
Proof.
  intros Hlen.
  assert (wrap32 (Z.of_nat (length actions)) = Z.of_nat (length actions)) as Hw
    by (apply wrap32_small; lia).
  destruct v; unfold Start, newTxn, initComponents, enterWith, startWith; simpl.
  - unfold nextState. simpl. rewrite applyToEachVar_spec. simpl.
    eexists. split; [done|]. by rewrite Hw.
  - eexists. split; [done|]. by rewrite Hw.
Qed.

Lemma Start_first_state_witness :
  ∃ t, Start true twoWrites = Ok t
       ∧ currentState t = Some txnAwaitLocalBallots
       ∧ pendingVote t = 2
       ∧ trace t = [Enter txnDetermineLocalBallots; Enter txnAwaitLocalBallots;
                    ApplyToVar ReceiveTxn true W1; ApplyToVar ReceiveTxn true W2].
Proof.
  destruct (Start_first_state true T2 reader2 [writeOf W1; writeOf W2] [W1; W2])
    as (t & Hs & _ & _ & _ & _ & Hpv & Hst & Htr).
  { by vm_compute. }
  exists t. split_and!; done.
Defined.

End TxnFacts.
